(** * omuserver: the replicated table engine, the registry permission check
      and the session accessors, embedded from the Python sources

    Sources embedded here:
    - [packages/server/src/omuserver/extension/table/cached_table.py]
      (class [CachedTable]);
    - [packages/server/src/omuserver/extension/table/session_table_handler.py]
      (class [SessionTableListener]);
    - [packages/server/src/omuserver/extension/registry/registry_extension.py]
      ([RegistryExtension.check_permission] and the handlers that call it;
      [get], [register], [_on_start], [store]);
    - [packages/server/src/omuserver/session/aiohttp_session.py] and
      [aiohttp_connection.py] (the [permissions] properties; [_receive],
      [create], [listen], [disconnect] and [send] of [AiohttpSession]);
    - [packages/omu/src/omu/extension/table/table_extension.py]
      (class [TableImpl]: [update_cache], [_parse_items],
      [_serialize_items], [_on_proxy]).

    Conventions.  A Python [dict] is an association list kept in insertion
    order with the update-in-place behaviour of [d[k] = v].  Every coroutine
    of [CachedTable] is a function from the table state to an outcome
    (a value or the raised exception), the state it leaves behind and the
    trace of calls it made on its collaborators (adapter, listeners,
    sockets).  State written before an exception is raised stays written,
    as in Python.  One coroutine call is one atomic step; the background
    save task is a small-step machine of its own. *)

From stdpp Require Import base decidable option list strings.
From Stdlib Require Import ZArith Lia.

Local Open Scope Z_scope.
Local Open Scope nat_scope.
Local Open Scope string_scope.
Local Open Scope list_scope.

(** ** Python dictionaries *)

Section PyDict.
Context {K V : Type} `{EqDecision K}.

(** [d.get(k)] / [d[k]] *)
Fixpoint dict_get (k : K) (d : list (K * V)) : option V :=
  match d with
  | [] => None
  | (k', v) :: d' => if decide (k = k') then Some v else dict_get k d'
  end.

(** [k in d] *)
Definition dict_contains (k : K) (d : list (K * V)) : bool :=
  match dict_get k d with Some _ => true | None => false end.

(** [d[k] = v]: an existing key keeps its position, a new one goes last. *)
Fixpoint dict_set (k : K) (v : V) (d : list (K * V)) : list (K * V) :=
  match d with
  | [] => [(k, v)]
  | (k', v') :: d' =>
      if decide (k = k') then (k', v) :: d' else (k', v') :: dict_set k v d'
  end.

(** [del d[k]] for a key known to be present (absent keys leave [d]). *)
Fixpoint dict_del (k : K) (d : list (K * V)) : list (K * V) :=
  match d with
  | [] => []
  | (k', v') :: d' =>
      if decide (k = k') then d' else (k', v') :: dict_del k d'
  end.

Definition dict_keys (d : list (K * V)) : list K := map fst d.
Definition dict_values (d : list (K * V)) : list V := map snd d.

(** [for k, v in items.items(): d[k] = v] *)
Definition dict_update (items d : list (K * V)) : list (K * V) :=
  fold_left (fun acc kv => dict_set (fst kv) (snd kv) acc) items d.

(** [tuple(keys).index(k)] *)
Fixpoint index_of (k : K) (ks : list K) : option nat :=
  match ks with
  | [] => None
  | k' :: ks' =>
      if decide (k = k') then Some 0
      else match index_of k ks' with Some i => Some (S i) | None => None end
  end.

(** [l.remove(x)]: drops the first equal element, [None] when absent
    (Python raises [ValueError]). *)
Fixpoint list_remove_first (x : K) (l : list K) : option (list K) :=
  match l with
  | [] => None
  | y :: l' =>
      if decide (x = y) then Some l'
      else match list_remove_first x l' with
           | Some r => Some (y :: r)
           | None => None
           end
  end.
End PyDict.

(** The dict invariant: keys are pairwise distinct. *)
Definition dict_wf {K V : Type} (d : list (K * V)) : Prop := NoDup (dict_keys d).

(** ** Identifiers, apps, sessions *)

Definition bytes := list Byte.byte.

Record Identifier := mkIdentifier { namespace : string; path : list string }.

#[global] Instance Identifier_eq_dec : EqDecision Identifier.
Proof. solve_decision. Defined.

(** Modelled from the spec: [omu/identifier.py] is not among the sources.
    [is_subpart_of(parent)] holds iff namespaces match and the candidate's
    path is prefix-equal-or-longer than the parent's, that is
    [self.path[:len(base.path)] == base.path]. *)
Definition is_subpart_of (self base : Identifier) : bool :=
  bool_decide (namespace self = namespace base)
  && bool_decide (take (length (path base)) (path self) = path base).

(** Modelled from the spec: canonical string form [namespace:seg1/seg2/...]. *)
Definition key (self : Identifier) : string :=
  namespace self +:+ ":" +:+ String.concat "/" (path self).

Record App := mkApp { app_id : Identifier; version : string }.

#[global] Instance App_eq_dec : EqDecision App.
Proof. solve_decision. Defined.

(** Modelled from the spec: [App.key()] is the key of the app's identifier. *)
Definition app_key (a : App) : string := key (app_id a).

(** A session object.  Sessions define neither [__eq__] nor [__hash__]
    ([AiohttpSession.hash] is an ordinary method), so two sessions are the
    same dictionary key exactly when they are the same object; [session_uid]
    stands for the object identity. *)
Record Session := mkSession { session_uid : nat; app : App }.

#[global] Instance Session_eq_dec : EqDecision Session.
Proof. solve_decision. Defined.

(** ** Listeners, packets, collaborator calls *)

(** [ServerTableListener] implementations: the per-session handler of
    [session_table_handler.py], and any other listener registered through
    [add_listener] (told apart by a tag). *)
Inductive Listener :=
| SessionTableListener (key : string) (session : Session)
| OtherListener (tag : nat).

#[global] Instance Listener_eq_dec : EqDecision Listener.
Proof. solve_decision. Defined.

Inductive Packet :=
| TableItemAddEvent (type : string) (items : list (string * bytes))
| TableItemUpdateEvent (type : string) (items : list (string * bytes))
| TableItemRemoveEvent (type : string) (items : list (string * bytes))
| TableItemClearEvent (type : string)
| TableProxyEvent (type : string) (key : nat) (items : list (string * bytes)).

Inductive ListenerCall :=
| OnAdd (items : list (string * bytes))
| OnUpdate (items : list (string * bytes))
| OnRemove (items : list (string * bytes))
| OnClear
| OnCacheUpdate (cache : list (string * bytes)).

Inductive AdapterCall :=
| AGet (k : string)
| AGetAll (keys : list string)
| ASetAll (items : list (string * bytes))
| ARemoveAll (keys : list string)
| AClear
| AStore.

Inductive Event :=
| EvAdapter (c : AdapterCall)
| EvListener (l : Listener) (c : ListenerCall)
| EvSend (s : Session) (p : Packet)
| EvSubscribeDisconnected (s : Session)
| EvCreateTask.

Inductive Error :=
| TableNotSet                (* Exception("Table not set") *)
| ValueError (msg : string)
| IndexError
| StorageError
| RecursionError
| PermissionDenied (msg : string).

(** Modelled from the spec: [adapters/tableadapter.py] is not among the
    sources.  The adapter keeps an insertion-ordered keyed map; any of its
    operations may fail with [StorageError], which [ad_fails] decides. *)
Record TableAdapter := mkAdapter {
  ad_data : list (string * bytes);
  ad_fails : AdapterCall -> bool
}.

Record TableConfig := mkConfig { config_cache_size : option Z }.

(** The handle stored in [_save_task]: an [asyncio.Task] running
    [save_task], at the head of its [while], asleep inside the loop body,
    or finished (normally or by an exception). *)
Inductive Task :=
| TaskAtLoopHead
| TaskSleeping
| TaskDone
| TaskFailed (e : Error).

Definition task_running (h : option Task) : bool :=
  match h with
  | Some TaskAtLoopHead | Some TaskSleeping => true
  | _ => false
  end.

(** ** The table state: the attributes set in [CachedTable.__init__] *)

Record CachedTable := mkTable {
  identifier : Identifier;
  listeners : list Listener;
  sessions : list (Session * Listener);
  proxy_sessions : list (string * Session);
  changed : bool;
  proxy_id : nat;
  save_task_handle : option Task;
  adapter : option TableAdapter;
  config : TableConfig;
  cache : list (string * bytes);
  cache_size : option Z
}.

Definition init (id : Identifier) : CachedTable :=
  {| identifier := id; listeners := []; sessions := []; proxy_sessions := [];
     changed := false; proxy_id := 0; save_task_handle := None;
     adapter := None; config := mkConfig None; cache := [];
     cache_size := None |}.

Definition set_listeners (x : list Listener) (t : CachedTable) :=
  mkTable (identifier t) x (sessions t) (proxy_sessions t) (changed t)
    (proxy_id t) (save_task_handle t) (adapter t) (config t) (cache t)
    (cache_size t).
Definition set_sessions (x : list (Session * Listener)) (t : CachedTable) :=
  mkTable (identifier t) (listeners t) x (proxy_sessions t) (changed t)
    (proxy_id t) (save_task_handle t) (adapter t) (config t) (cache t)
    (cache_size t).
Definition set_proxy_sessions (x : list (string * Session)) (t : CachedTable) :=
  mkTable (identifier t) (listeners t) (sessions t) x (changed t)
    (proxy_id t) (save_task_handle t) (adapter t) (config t) (cache t)
    (cache_size t).
Definition set_changed (x : bool) (t : CachedTable) :=
  mkTable (identifier t) (listeners t) (sessions t) (proxy_sessions t) x
    (proxy_id t) (save_task_handle t) (adapter t) (config t) (cache t)
    (cache_size t).
Definition set_proxy_id (x : nat) (t : CachedTable) :=
  mkTable (identifier t) (listeners t) (sessions t) (proxy_sessions t)
    (changed t) x (save_task_handle t) (adapter t) (config t) (cache t)
    (cache_size t).
Definition set_save_task_handle (x : option Task) (t : CachedTable) :=
  mkTable (identifier t) (listeners t) (sessions t) (proxy_sessions t)
    (changed t) (proxy_id t) x (adapter t) (config t) (cache t)
    (cache_size t).
Definition set_adapter_field (x : option TableAdapter) (t : CachedTable) :=
  mkTable (identifier t) (listeners t) (sessions t) (proxy_sessions t)
    (changed t) (proxy_id t) (save_task_handle t) x (config t) (cache t)
    (cache_size t).
Definition set_config_field (x : TableConfig) (t : CachedTable) :=
  mkTable (identifier t) (listeners t) (sessions t) (proxy_sessions t)
    (changed t) (proxy_id t) (save_task_handle t) (adapter t) x (cache t)
    (cache_size t).
Definition set_cache (x : list (string * bytes)) (t : CachedTable) :=
  mkTable (identifier t) (listeners t) (sessions t) (proxy_sessions t)
    (changed t) (proxy_id t) (save_task_handle t) (adapter t) (config t) x
    (cache_size t).
Definition set_cache_size_field (x : option Z) (t : CachedTable) :=
  mkTable (identifier t) (listeners t) (sessions t) (proxy_sessions t)
    (changed t) (proxy_id t) (save_task_handle t) (adapter t) (config t)
    (cache t) x.

(** ** The coroutine monad: state, trace, exceptions *)

Record Run (A : Type) := mkRun {
  outcome : Error + A;
  final : CachedTable;
  trace : list Event
}.
Arguments mkRun {A} _ _ _.
Arguments outcome {A} _.
Arguments final {A} _.
Arguments trace {A} _.

Definition M (A : Type) : Type := CachedTable -> Run A.

Definition ret {A} (x : A) : M A := fun t => mkRun (inr x) t [].

Definition bind {A B} (m : M A) (f : A -> M B) : M B :=
  fun t =>
    let r := m t in
    match outcome r with
    | inl e => mkRun (inl e) (final r) (trace r)
    | inr x =>
        let r' := f x (final r) in
        mkRun (outcome r') (final r') (trace r ++ trace r')
    end.

Definition raise {A} (e : Error) : M A := fun t => mkRun (inl e) t [].
Definition self_ : M CachedTable := fun t => mkRun (inr t) t [].
Definition modify (f : CachedTable -> CachedTable) : M unit :=
  fun t => mkRun (inr tt) (f t) [].
Definition emit (e : Event) : M unit := fun t => mkRun (inr tt) t [e].

Declare Scope table_scope.
Delimit Scope table_scope with table.
Notation "x <- m ;; k" := (bind m (fun x => k))
  (at level 100, m at level 99, k at level 200, right associativity)
  : table_scope.
Notation "m ;; k" := (bind m (fun _ => k))
  (at level 100, k at level 200, right associativity) : table_scope.
Local Open Scope table_scope.

(** The outcome of a coroutine as seen by the task that wraps it: the
    exception, if any, ends that task and goes no further. *)
Definition attempt {A} (m : M A) : M (Error + A) :=
  fun t => let r := m t in mkRun (inr (outcome r)) (final r) (trace r).

(** [for x in l: await f(x)] *)
Fixpoint for_each {A} (l : list A) (f : A -> M unit) : M unit :=
  match l with
  | [] => ret tt
  | x :: l' => f x ;; for_each l' f
  end.

(** Number of [adapter.set_all] calls in a trace. *)
Definition is_set_all (e : Event) : bool :=
  match e with EvAdapter (ASetAll _) => true | _ => false end.
Definition count_set_all (tr : list Event) : nat :=
  length (filter (fun e => is_set_all e = true) tr).

Definition is_listener_event (e : Event) : bool :=
  match e with EvListener _ _ => true | _ => false end.
Definition no_listener_fired (tr : list Event) : Prop :=
  Forall (fun e => is_listener_event e = false) tr.

(** ** Adapter operations (state kept inside the table's [adapter] field) *)

(** Modelled from the spec: the adapter interface of the external-interfaces
    section ([get], [get_all] with missing keys omitted, [set_all],
    [remove_all], [clear], [store]).  Every call is recorded in the trace
    before it can fail. *)
Definition adapter_call {A} (c : AdapterCall)
    (f : TableAdapter -> A * list (string * bytes)) : M A :=
  t <- self_ ;;
  match adapter t with
  | None => raise TableNotSet
  | Some ad =>
      emit (EvAdapter c) ;;
      if ad_fails ad c then raise StorageError
      else
        let '(x, data) := f ad in
        modify (set_adapter_field (Some (mkAdapter data (ad_fails ad)))) ;;
        ret x
  end.

Definition select_keys (keys : list string) (d : list (string * bytes))
  : list (string * bytes) :=
  fold_left
    (fun acc k =>
       match dict_get k d with Some v => dict_set k v acc | None => acc end)
    keys [].

Definition adapter_get (k : string) : M (option bytes) :=
  adapter_call (AGet k) (fun ad => (dict_get k (ad_data ad), ad_data ad)).
Definition adapter_get_all (keys : list string) : M (list (string * bytes)) :=
  adapter_call (AGetAll keys)
    (fun ad => (select_keys keys (ad_data ad), ad_data ad)).
Definition adapter_set_all (items : list (string * bytes)) : M unit :=
  adapter_call (ASetAll items)
    (fun ad => (tt, dict_update items (ad_data ad))).
Definition adapter_remove_all (keys : list string) : M unit :=
  adapter_call (ARemoveAll keys)
    (fun ad => (tt, fold_left (fun acc k => dict_del k acc) keys (ad_data ad))).
Definition adapter_clear : M unit :=
  adapter_call AClear (fun _ => (tt, [])).
Definition adapter_store : M unit :=
  adapter_call AStore (fun ad => (tt, ad_data ad)).

(** ** [CachedTable] and [SessionTableListener] *)

Section Table.
(** [session.closed], the state of the session's socket while the
    coroutine runs. *)
Variable closed : Session -> bool.

(** [AiohttpSession.send] *)
Definition send (s : Session) (p : Packet) : M unit :=
  if closed s then raise (ValueError "Socket is closed")
  else emit (EvSend s p).

(** A listener method: the call itself is recorded, then the body of
    [SessionTableListener] runs; other listeners only record the call. *)
Definition notify (l : Listener) (c : ListenerCall) : M unit :=
  emit (EvListener l c) ;;
  match l with
  | OtherListener _ => ret tt
  | SessionTableListener k s =>
      match c with
      | OnCacheUpdate _ => ret tt      (* not overridden by the handler *)
      | OnAdd items =>
          if closed s then ret tt else send s (TableItemAddEvent k items)
      | OnUpdate items =>
          if closed s then ret tt else send s (TableItemUpdateEvent k items)
      | OnRemove items =>
          if closed s then ret tt else send s (TableItemRemoveEvent k items)
      | OnClear =>
          if closed s then ret tt else send s (TableItemClearEvent k)
      end
  end.

(** What the listeners observe for one call: the call, and for a session
    handler on an open socket the packet it sends. *)
Definition notify_events (c : ListenerCall) (l : Listener) : list Event :=
  EvListener l c ::
  match l with
  | OtherListener _ => []
  | SessionTableListener k s =>
      if closed s then []
      else match c with
           | OnAdd items => [EvSend s (TableItemAddEvent k items)]
           | OnUpdate items => [EvSend s (TableItemUpdateEvent k items)]
           | OnRemove items => [EvSend s (TableItemRemoveEvent k items)]
           | OnClear => [EvSend s (TableItemClearEvent k)]
           | OnCacheUpdate _ => []
           end
  end.
Definition notify_all (c : ListenerCall) : M unit :=
  t <- self_ ;; for_each (listeners t) (fun l => notify l c).

Definition require_adapter : M unit :=
  t <- self_ ;;
  match adapter t with None => raise TableNotSet | Some _ => ret tt end.

Definition set_config (cfg : TableConfig) : M unit :=
  modify (set_config_field cfg) ;;
  modify (set_cache_size_field (config_cache_size cfg)).

Definition set_adapter (ad : TableAdapter) : M unit :=
  modify (set_adapter_field (Some ad)).

Definition store : M unit :=
  require_adapter ;;
  t <- self_ ;;
  if negb (changed t) then ret tt
  else modify (set_changed false) ;; adapter_store.

Definition add_listener (l : Listener) : M unit :=
  modify (fun t => set_listeners (listeners t ++ [l]) t).

Definition remove_listener (l : Listener) : M unit :=
  t <- self_ ;;
  match list_remove_first l (listeners t) with
  | Some ls => modify (set_listeners ls)
  | None => raise (ValueError "list.remove(x): x not in list")
  end.

Definition attach_session (s : Session) : M unit :=
  t <- self_ ;;
  if dict_contains s (sessions t) then ret tt
  else
    let handler := SessionTableListener (key (identifier t)) s in
    modify (fun t => set_sessions (dict_set s handler (sessions t)) t) ;;
    add_listener handler ;;
    emit (EvSubscribeDisconnected s).

(** [session in self._proxy_sessions]: the dictionary is keyed by [str]
    and the probe is a [Session]; a session never compares equal to a
    string, so no key matches. *)
Definition session_eq_str (s : Session) (k : string) : bool := false.
Definition session_in_proxy_sessions (s : Session)
    (d : list (string * Session)) : bool :=
  existsb (session_eq_str s) (dict_keys d).

Definition detach_session (s : Session) : M unit :=
  t <- self_ ;;
  (if session_in_proxy_sessions s (proxy_sessions t)
   then modify (fun t =>
          set_proxy_sessions (dict_del (app_key (app s)) (proxy_sessions t)) t)
   else ret tt) ;;
  t <- self_ ;;
  match dict_get s (sessions t) with
  | Some handler =>
      modify (fun t => set_sessions (dict_del s (sessions t)) t) ;;
      remove_listener handler
  | None => ret tt
  end.

Definition handle_disconnection (s : Session) : M unit := detach_session s.

Definition attach_proxy_session (s : Session) : M unit :=
  modify (fun t =>
    set_proxy_sessions (dict_set (app_key (app s)) s (proxy_sessions t)) t).

Definition save_task_start : M unit :=
  emit EvCreateTask ;; modify (set_save_task_handle (Some TaskAtLoopHead)).

Definition mark_changed : M unit :=
  modify (set_changed true) ;;
  t <- self_ ;;
  match save_task_handle t with
  | None => save_task_start
  | Some _ => ret tt
  end.

(** One cache insertion of [update_cache]:
    [cache[key] = item], then evict [next(iter(cache))] when too long. *)
Definition cache_insert (n : Z) (c : list (string * bytes))
    (kv : string * bytes) : list (string * bytes) :=
  let c' := dict_set (fst kv) (snd kv) c in
  if (n <? Z.of_nat (length c'))%Z
  then match c' with
       | [] => []
       | (k0, _) :: _ => dict_del k0 c'
       end
  else c'.

Definition update_cache (items : list (string * bytes)) : M unit :=
  t <- self_ ;;
  match cache_size t with
  | None => ret tt
  | Some n =>
      if (n <=? 0)%Z then ret tt
      else
        modify (fun t => set_cache (fold_left (cache_insert n) items (cache t)) t) ;;
        t <- self_ ;;
        notify_all (OnCacheUpdate (cache t))
  end.

Definition get (k : string) : M (option bytes) :=
  require_adapter ;;
  t <- self_ ;;
  match dict_get k (cache t) with
  | Some v => ret (Some v)
  | None =>
      data <- adapter_get k ;;
      match data with
      | None => ret None
      | Some v => update_cache [(k, v)] ;; ret (Some v)
      end
  end.

(** The first loop of [get_all]: cached hits move from [keys] to [items]. *)
Definition take_cached (c : list (string * bytes)) (keys : list string)
  : list (string * bytes) * list string :=
  fold_left
    (fun '(items, rest) k =>
       match dict_get k c with
       | Some v =>
           (dict_set k v items,
            match list_remove_first k rest with Some r => r | None => rest end)
       | None => (items, rest)
       end)
    keys ([], keys).

Definition get_all (keys : list string) : M (list (string * bytes)) :=
  require_adapter ;;
  t <- self_ ;;
  let '(items, rest) := take_cached (cache t) keys in
  match rest with
  | [] => ret items
  | _ :: _ =>
      data <- adapter_get_all rest ;;
      let items := dict_update data items in
      update_cache items ;;
      ret items
  end.

Definition send_proxy_event (items : list (string * bytes)) : M unit :=
  t <- self_ ;;
  match dict_values (proxy_sessions t) with
  | [] => raise IndexError
  | s :: _ =>
      modify (fun t => set_proxy_id (S (proxy_id t)) t) ;;
      t <- self_ ;;
      send s (TableProxyEvent (key (identifier t)) (proxy_id t) items)
  end.

(** The tail shared by [add] (no proxies) and [proxy] (last session). *)
Definition persist_added (items : list (string * bytes)) : M unit :=
  adapter_set_all items ;;
  notify_all (OnAdd items) ;;
  update_cache items ;;
  mark_changed.

Definition add (items : list (string * bytes)) : M unit :=
  require_adapter ;;
  t <- self_ ;;
  if (0 <? length (proxy_sessions t))%nat then send_proxy_event items
  else persist_added items.

Definition proxy (s : Session) (k : nat) (items : list (string * bytes))
  : M nat :=
  require_adapter ;;
  t <- self_ ;;
  if negb (dict_contains (app_key (app s)) (proxy_sessions t))
  then raise (ValueError "Session not in proxy sessions")
  else
    let session_key := app_key (app s) in
    match index_of session_key (dict_keys (proxy_sessions t)) with
    | None => raise (ValueError "tuple.index(x): x not in tuple")
    | Some index =>
        if decide (index = length (proxy_sessions t) - 1)%nat
        then require_adapter ;; persist_added items ;; ret 0
        else
          match dict_values (proxy_sessions t) !! (index + 1)%nat with
          | None => raise IndexError
          | Some next =>
              send next
                (TableProxyEvent (key (identifier t)) (proxy_id t) items) ;;
              ret (proxy_id t)
          end
    end.

Definition update (items : list (string * bytes)) : M unit :=
  require_adapter ;;
  adapter_set_all items ;;
  notify_all (OnUpdate items) ;;
  update_cache items ;;
  mark_changed.

Definition remove (keys : list string) : M unit :=
  require_adapter ;;
  removed <- adapter_get_all keys ;;
  adapter_remove_all keys ;;
  modify (fun t =>
    set_cache
      (fold_left
         (fun c k => if dict_contains k c then dict_del k c else c)
         keys (cache t)) t) ;;
  notify_all (OnRemove removed) ;;
  mark_changed.

Definition clear : M unit :=
  require_adapter ;;
  adapter_clear ;;
  notify_all OnClear ;;
  modify (set_cache []) ;;
  mark_changed.

Definition size : M nat :=
  t <- self_ ;; ret (length (cache t)).

Definition set_cache_size (n : Z) : M unit :=
  modify (set_cache_size_field (Some n)).

(** One scheduling step of the task created by [mark_changed]:
    [while self._changed: await self.store(); await asyncio.sleep(30)].
    At the loop head the condition is tested and, when it holds, [store]
    runs up to the sleep; a sleeping task wakes at the loop head.  An
    exception of [store] ends the task. *)
Definition save_task_step : M unit :=
  t <- self_ ;;
  match save_task_handle t with
  | Some TaskAtLoopHead =>
      if changed t then
        r <- attempt store ;;
        match r with
        | inr _ => modify (set_save_task_handle (Some TaskSleeping))
        | inl e => modify (set_save_task_handle (Some (TaskFailed e)))
        end
      else modify (set_save_task_handle (Some TaskDone))
  | Some TaskSleeping => modify (set_save_task_handle (Some TaskAtLoopHead))
  | _ => ret tt
  end.

(** The calls a table can receive, for runs of several of them. *)
Inductive Op :=
| OpSetConfig (cfg : TableConfig)
| OpSetAdapter (ad : TableAdapter)
| OpStore
| OpAttachSession (s : Session)
| OpHandleDisconnection (s : Session)
| OpAttachProxySession (s : Session)
| OpGet (k : string)
| OpGetAll (keys : list string)
| OpAdd (items : list (string * bytes))
| OpProxy (s : Session) (k : nat) (items : list (string * bytes))
| OpUpdate (items : list (string * bytes))
| OpRemove (keys : list string)
| OpClear
| OpSize
| OpAddListener (l : Listener)
| OpRemoveListener (l : Listener)
| OpMarkChanged
| OpSetCacheSize (n : Z)
| OpUpdateCache (items : list (string * bytes))
| OpSaveTaskStep.

Definition void {A} (m : M A) : M unit := _ <- m ;; ret tt.

Definition exec (op : Op) : M unit :=
  match op with
  | OpSetConfig cfg => set_config cfg
  | OpSetAdapter ad => set_adapter ad
  | OpStore => store
  | OpAttachSession s => attach_session s
  | OpHandleDisconnection s => handle_disconnection s
  | OpAttachProxySession s => attach_proxy_session s
  | OpGet k => void (get k)
  | OpGetAll keys => void (get_all keys)
  | OpAdd items => add items
  | OpProxy s k items => void (proxy s k items)
  | OpUpdate items => update items
  | OpRemove keys => remove keys
  | OpClear => clear
  | OpSize => void size
  | OpAddListener l => add_listener l
  | OpRemoveListener l => remove_listener l
  | OpMarkChanged => mark_changed
  | OpSetCacheSize n => set_cache_size n
  | OpUpdateCache items => update_cache items
  | OpSaveTaskStep => save_task_step
  end.

(** A handler that raises does not stop the server: the next call runs on
    the state the failed one left. *)
Fixpoint run_ops (ops : list Op) (t : CachedTable) : CachedTable :=
  match ops with
  | [] => t
  | op :: ops' => run_ops ops' (final (exec op t))
  end.
End Table.

(** States a table can be in: built by [__init__] and changed only through
    its methods, whatever the sockets do in between. *)
Inductive reachable : CachedTable -> Prop :=
| reachable_init id : reachable (init id)
| reachable_step closed op t :
    reachable t -> reachable (final (exec closed op t)).

(** ** One traversal of the proxy chain

    [TableImpl._on_proxy] on the client answers every proxy packet with
    exactly one packet carrying the (possibly transformed) items.  A round
    is the [add] followed by the answers of the chain's sessions in chain
    order; [echoes] lists the key and items each session answers with, and
    is shorter than the chain for a traversal still under way. *)
Section ProxyRound.
Variable closed : Session -> bool.

Fixpoint echo_all (chain : list Session)
    (echoes : list (nat * list (string * bytes))) : M unit :=
  match chain, echoes with
  | s :: chain', (k, items) :: echoes' =>
      (_ <- proxy closed s k items ;; echo_all chain' echoes')%table
  | _, _ => ret tt
  end.

Definition item_add_round (items : list (string * bytes))
    (echoes : list (nat * list (string * bytes))) : M unit :=
  (add closed items ;;
   t <- self_ ;;
   echo_all (dict_values (proxy_sessions t)) echoes)%table.

(** The packets the server forwards while the first [n] sessions of the
    chain answer: the answer of session [i] goes to session [i+1]. *)
Fixpoint forwards (type : string) (pid : nat) (chain : list Session)
    (echoes : list (nat * list (string * bytes))) : list Event :=
  match chain, echoes with
  | _ :: ((next :: _) as chain'), (_, items) :: echoes' =>
      EvSend next (TableProxyEvent type pid items)
      :: forwards type pid chain' echoes'
  | _, _ => []
  end.
End ProxyRound.

(** The insertions and fetches named by the cache policy. *)
Definition inserts_or_fetches (op : Op) : bool :=
  match op with
  | OpAdd _ | OpUpdate _ | OpGet _ | OpGetAll _ | OpUpdateCache _ => true
  | _ => false
  end.

Definition sets_cache_size (op : Op) : bool :=
  match op with
  | OpSetConfig _ | OpSetCacheSize _ => true
  | _ => false
  end.

(** The calls that leave [cache_size] at [n]: every call but [set_config]
    and [set_cache_size], and those two when the size they bring is [n]. *)
Definition keeps_cache_size (n : Z) (op : Op) : bool :=
  match op with
  | OpSetConfig cfg => bool_decide (config_cache_size cfg = Some n)
  | OpSetCacheSize m => bool_decide (m = n)
  | _ => true
  end.

(** The proxy sessions attached during a run, oldest first. *)
Fixpoint attached_proxies (ops : list Op) : list Session :=
  match ops with
  | [] => []
  | OpAttachProxySession s :: ops' => s :: attached_proxies ops'
  | _ :: ops' => attached_proxies ops'
  end.

Definition attach_all (ss : list Session) (d : list (string * Session))
  : list (string * Session) :=
  fold_left (fun d s => dict_set (app_key (app s)) s d) ss d.

(** The session stored under app key [k] after the sessions [ss] attached
    in turn, [cur] being stored before. *)
Definition latest_session (k : string) (ss : list Session) (cur : Session)
  : Session :=
  fold_left (fun cur s => if decide (app_key (app s) = k) then s else cur)
    ss cur.

(** [reached_by ops t]: the calls [ops], oldest first, took a new table to
    [t], each call seeing its own socket states. *)
Inductive reached_by : list Op -> CachedTable -> Prop :=
| reached_init id : reached_by [] (init id)
| reached_step closed op ops t :
    reached_by ops t -> reached_by (ops ++ [op]) (final (exec closed op t)).

(** Every stored proxy session sits under its own app key. *)
Definition chain_ok (d : list (string * Session)) : Prop :=
  dict_wf d /\ Forall (fun ks => app_key (app (snd ks)) = fst ks) d.

(** ** Registry permission check *)

Record RegistryPermissions := mkRegistryPermissions {
  perm_all : option Identifier;
  perm_read : option Identifier;
  perm_write : option Identifier
}.

(** Modelled from the spec: [registry/registry.py] is not among the sources;
    a [ServerRegistry] holds its id, its declared permissions and its value,
    and [store] replaces the value. *)
Record ServerRegistry := mkServerRegistry {
  reg_id : Identifier;
  reg_permissions : RegistryPermissions;
  reg_data : bytes
}.

Definition registry_store (value : bytes) (r : ServerRegistry) : ServerRegistry :=
  mkServerRegistry (reg_id r) (reg_permissions r) value.

(** Modelled from the spec: [PermissionExtension.has_permission] is not
    among the sources.  It holds iff some identifier granted to the session
    equals the required one or is an ancestor of it, or the required
    identifier is a subpart of the session's app id. *)
Definition has_permission_spec (grants : Session -> list Identifier)
    (s : Session) (required : Identifier) : bool :=
  is_subpart_of required (app_id (app s))
  || existsb (fun g => is_subpart_of required g) (grants s).

Section Registry.
(** [self._server.permissions.has_permission] *)
Variable has_permission : Session -> Identifier -> bool.

(** [filter(None, require_permissions)] *)
Definition filter_none (l : list (option Identifier)) : list Identifier :=
  omap (fun x => x) l.

Definition check_permission (registry : ServerRegistry) (session : Session)
    (get_permissions : RegistryPermissions -> list (option Identifier))
  : Error + unit :=
  if is_subpart_of (reg_id registry) (app_id (app session)) then inr tt
  else
    let require_permissions := get_permissions (reg_permissions registry) in
    if negb (existsb (has_permission session) (filter_none require_permissions))
    then inl (PermissionDenied "not allowed to access")
    else inr tt.

(** The handlers, from the registry [self.get(...)] returned onwards. *)
Definition handle_update (registry : ServerRegistry) (session : Session)
    (value : bytes) : Error + ServerRegistry :=
  match check_permission registry session
          (fun permissions => [perm_all permissions; perm_write permissions])
  with
  | inl e => inl e
  | inr _ => inr (registry_store value registry)
  end.

Definition handle_get (registry : ServerRegistry) (session : Session)
  : Error + bytes :=
  match check_permission registry session
          (fun permissions => [perm_all permissions; perm_read permissions])
  with
  | inl e => inl e
  | inr _ => inr (reg_data registry)
  end.

Definition handle_register (registry : ServerRegistry) (session : Session)
    (permissions : RegistryPermissions) : Error + ServerRegistry :=
  if negb (is_subpart_of (reg_id registry) (app_id (app session)))
  then inl (PermissionDenied "not allowed to register")
  else inr (mkServerRegistry (reg_id registry) permissions (reg_data registry)).
End Registry.

(** ** The [permissions] properties of the session classes *)

(** [omuserver.security.Permission]: the identifiers granted to a session. *)
Definition Permission := list Identifier.

(** The attributes [AiohttpSession.__init__] stores that matter here. *)
Record AiohttpSession := mkAiohttpSession {
  aio_app : App;
  aio_permissions : Permission   (* self._permissions *)
}.

(** [WebsocketsConnection.__init__] stores the socket only. *)
Record WebsocketsConnection := mkWebsocketsConnection {
  ws_socket_closed : bool
}.

(** [return self.permissions] inside the property [permissions]: reading the
    attribute calls the property again.  [frames] is the number of stack
    frames the interpreter still allows; when none is left the call raises
    [RecursionError]. *)
Fixpoint AiohttpSession_permissions (frames : nat) (self : AiohttpSession)
  : Error + Permission :=
  match frames with
  | 0 => inl RecursionError
  | S frames' => AiohttpSession_permissions frames' self
  end.

Fixpoint WebsocketsConnection_permissions (frames : nat)
    (self : WebsocketsConnection) : Error + Permission :=
  match frames with
  | 0 => inl RecursionError
  | S frames' => WebsocketsConnection_permissions frames' self
  end.

(** ** Concrete tables and sessions used by the examples *)

Module Ex.
Definition table_id := mkIdentifier "x" ["svc"; "data"].
Definition never_fails : AdapterCall -> bool := fun _ => false.
Definition store_fails (c : AdapterCall) : bool :=
  match c with AStore => true | _ => false end.
Definition all_open : Session -> bool := fun _ => false.
Definition v1 : bytes := [Byte.x61].
Definition v2 : bytes := [Byte.x62].
Definition owner := mkSession 1 (mkApp (mkIdentifier "x" ["svc"]) "0.1").
Definition p1 := mkSession 2 (mkApp (mkIdentifier "y" ["first"]) "0.1").
Definition p2 := mkSession 3 (mkApp (mkIdentifier "z" ["second"]) "0.1").
(** a second connection of the app of [p1] *)
Definition p1' := mkSession 4 (mkApp (mkIdentifier "y" ["first"]) "0.1").

(** A table with an adapter and no cache size configured. *)
Definition plain : CachedTable :=
  run_ops all_open [OpSetAdapter (mkAdapter [] never_fails)] (init table_id).

(** The same with [cache_size = 2] and one listening session. *)
Definition cached : CachedTable :=
  run_ops all_open
    [OpSetConfig (mkConfig (Some 2%Z)); OpAttachSession owner] plain.

(** [cached] with the proxy chain [p1], [p2]. *)
Definition proxied : CachedTable :=
  run_ops all_open [OpAttachProxySession p1; OpAttachProxySession p2] cached.

(** A dirty table whose adapter cannot flush. *)
Definition unflushable : CachedTable :=
  run_ops all_open
    [OpSetAdapter (mkAdapter [] store_fails); OpUpdate [("k1", v1)]]
    (init table_id).

Definition no_grants : Session -> list Identifier := fun _ => [].
Definition sub_app :=
  mkSession 5 (mkApp (mkIdentifier "x" ["svc"; "sub"]) "0.1").
Definition required := mkIdentifier "x" ["svc"].
Definition foreign_registry :=
  mkServerRegistry (mkIdentifier "y" ["reg"])
    (mkRegistryPermissions None None (Some required)) [].
End Ex.


(** The cache [update_cache items] leaves behind. *)
Definition cache_after (items : list (string * bytes)) (t : CachedTable)
  : list (string * bytes) :=
  match cache_size t with
  | None => cache t
  | Some n =>
      if (n <=? 0)%Z then cache t
      else fold_left (cache_insert n) items (cache t)
  end.

(** The cache policy in the spec's words, for a cache within its size [n]:
    an item whose key is cached replaces the value where it stands; a new
    item goes last, and when the cache is full the oldest entry leaves. *)
Definition fifo_insert (n : Z) (c : list (string * bytes))
    (kv : string * bytes) : list (string * bytes) :=
  if dict_contains (fst kv) c then dict_set (fst kv) (snd kv) c
  else if (Z.of_nat (length c) <? n)%Z then c ++ [kv]
       else tail c ++ [kv].

(** [I] survives the coroutine [m], whether [m] returns or raises. *)
Definition invariant {A} (I : CachedTable -> Prop) (m : M A) : Prop :=
  forall t, I t -> I (final (m t)).

(** A run preceded by the calls already made. *)
Definition prefix_trace {A} (tr : list Event) (r : Run A) : Run A :=
  mkRun (outcome r) (final r) (tr ++ trace r).

(** The failed mutation the caller sees: [StorageError], no listener called,
    dirty flag, cache and save task as before. *)
Definition failed_quietly {A} (r : Run A) (t : CachedTable) : Prop :=
  outcome r = inl StorageError
  /\ no_listener_fired (trace r)
  /\ changed (final r) = changed t
  /\ cache (final r) = cache t
  /\ save_task_handle (final r) = save_task_handle t.

(** A run that persisted nothing: no [set_all], no listener called, cache,
    dirty flag and adapter as before. *)
Definition nothing_persisted {A} (r : Run A) (t : CachedTable) : Prop :=
  count_set_all (trace r) = 0
  /\ no_listener_fired (trace r)
  /\ cache (final r) = cache t
  /\ changed (final r) = changed t
  /\ adapter (final r) = adapter t.

(** The proxy packets of a round: the first goes to the head of the chain,
    the others are the forwards. *)
Definition round_sends (type : string) (pid : nat) (chain : list Session)
    (items : list (string * bytes))
    (echoes : list (nat * list (string * bytes))) : list Event :=
  match chain with
  | [] => []
  | first :: _ =>
      EvSend first (TableProxyEvent type pid items)
      :: forwards type pid chain echoes
  end.

(** ** More about runs of a table *)

(** The calls that start with the [Table not set] test. *)
Definition needs_adapter (op : Op) : bool :=
  match op with
  | OpStore | OpGet _ | OpGetAll _ | OpAdd _ | OpProxy _ _ _ | OpUpdate _
  | OpRemove _ | OpClear => true
  | _ => false
  end.

Definition is_add (op : Op) : bool :=
  match op with OpAdd _ => true | _ => false end.

(** Everything a run of calls made on the collaborators, in order. *)
Fixpoint run_events (closed : Session -> bool) (ops : list Op)
    (t : CachedTable) : list Event :=
  match ops with
  | [] => []
  | op :: ops' =>
      trace (exec closed op t) ++ run_events closed ops' (final (exec closed op t))
  end.

Definition is_create_task (e : Event) : bool :=
  match e with EvCreateTask => true | _ => false end.

Definition count_create_task (tr : list Event) : nat :=
  length (filter (fun e => is_create_task e = true) tr).

(** The listener methods called in a trace, in call order. *)
Definition listener_calls (tr : list Event) : list (Listener * ListenerCall) :=
  omap (fun e => match e with EvListener l c => Some (l, c) | _ => None end) tr.

Definition is_proxy_packet (e : Event) : bool :=
  match e with EvSend _ (TableProxyEvent _ _ _) => true | _ => false end.

(** [J] relates the state to everything emitted so far, and survives [m]. *)
Definition history_invariant {A} (J : CachedTable -> list Event -> Prop)
    (m : M A) : Prop :=
  forall t tr, J t tr -> J (final (m t)) (tr ++ trace (m t)).

(** [update_cache] does something: a positive cache size is configured. *)
Definition cache_enabled (t : CachedTable) : bool :=
  match cache_size t with
  | Some n => negb (n <=? 0)%Z
  | None => false
  end.

(** What a table and the trace of its run so far say about the save task:
    no task was created while the handle is [None], and at most [b] tasks
    were created (the handle can only be [None] when [b] is 1). *)
Definition task_history (b : nat) (t : CachedTable) (tr : list Event) : Prop :=
  (save_task_handle t = None -> count_create_task tr = 0 /\ b = 1)
  /\ count_create_task tr <= b.

(** The adapter calls of a trace, in call order. *)
Definition adapter_calls (tr : list Event) : list AdapterCall :=
  omap (fun e => match e with EvAdapter c => Some c | _ => None end) tr.

(** The keys [get_all] cannot answer from the cache. *)
Definition cache_misses (c : list (string * bytes)) (keys : list string)
  : list string :=
  filter (fun k => dict_contains k c = false) keys.

(** ** The registry extension: its map of registries and their loading *)

(** [self.registries] and [self._startup_registries].  The startup list
    holds the very objects stored in the map (they are never replaced there),
    so it is kept as the list of their ids. *)
Record RegistryExtension := mkRegistryExtension {
  registries : list (Identifier * ServerRegistry);
  startup_registries : list Identifier
}.

Inductive RegistryEvent :=
| RegLoad (id : Identifier).

Definition loaded_ids (tr : list RegistryEvent) : list Identifier :=
  map (fun e => match e with RegLoad id => id end) tr.

(** Modelled from the spec: [ServerRegistry(server, id, permissions)] (the
    class is not among the sources) starts with the given permissions, or
    none, and the empty value standing for unset. *)
Definition new_registry (id : Identifier) (permissions : option RegistryPermissions)
  : ServerRegistry :=
  mkServerRegistry id
    (match permissions with
     | Some p => p
     | None => mkRegistryPermissions None None None
     end) [].

Inductive RegistryOp :=
| RGet (id : Identifier)
| RRegister (id : Identifier) (permissions : RegistryPermissions)
| ROnStart
| RStore (id : Identifier) (value : bytes)
| RHandleRegister (s : Session) (id : Identifier) (permissions : RegistryPermissions)
| RHandleUpdate (s : Session) (id : Identifier) (value : bytes)
| RHandleGet (s : Session) (id : Identifier).

Section RegistryExtension.
(** [self._server.permissions.has_permission] *)
Variable has_permission : Session -> Identifier -> bool.
(** What [ServerRegistry.load] (not among the sources) does to a registry. *)
Variable load : ServerRegistry -> ServerRegistry.

(** [RegistryExtension.get] *)
Definition registry_get (id : Identifier) (ext : RegistryExtension)
  : ServerRegistry * RegistryExtension * list RegistryEvent :=
  match dict_get id (registries ext) with
  | Some registry => (registry, ext, [])
  | None =>
      let registry := load (new_registry id None) in
      (registry,
       mkRegistryExtension (dict_set id registry (registries ext))
         (startup_registries ext),
       [RegLoad id])
  end.

(** [RegistryExtension.register], up to the wrapper it returns. *)
Definition registry_register (id : Identifier) (permissions : RegistryPermissions)
    (ext : RegistryExtension) : RegistryExtension :=
  match dict_get id (registries ext) with
  | Some _ => ext
  | None =>
      mkRegistryExtension
        (dict_set id (new_registry id (Some permissions)) (registries ext))
        (startup_registries ext ++ [id])
  end.

(** [await registry.load()] on an object of the map. *)
Definition load_in_place (id : Identifier) (rs : list (Identifier * ServerRegistry))
  : list (Identifier * ServerRegistry) :=
  match dict_get id rs with
  | Some registry => dict_set id (load registry) rs
  | None => rs
  end.

(** [RegistryExtension._on_start] *)
Definition registry_on_start (ext : RegistryExtension)
  : RegistryExtension * list RegistryEvent :=
  (mkRegistryExtension
     (fold_left (fun rs id => load_in_place id rs) (startup_registries ext)
        (registries ext))
     [],
   map RegLoad (startup_registries ext)).

(** A method of the registry object that [get] returned: the object in the
    map changes. *)
Definition put_registry (id : Identifier) (registry : ServerRegistry)
    (ext : RegistryExtension) : RegistryExtension :=
  mkRegistryExtension (dict_set id registry (registries ext))
    (startup_registries ext).

(** [RegistryExtension.store] and the packet handlers, on the extension. *)
Definition registry_exec (op : RegistryOp) (ext : RegistryExtension)
  : (Error + unit) * RegistryExtension * list RegistryEvent :=
  match op with
  | RGet id =>
      let '(_, ext', tr) := registry_get id ext in (inr tt, ext', tr)
  | RRegister id permissions =>
      (inr tt, registry_register id permissions ext, [])
  | ROnStart =>
      let '(ext', tr) := registry_on_start ext in (inr tt, ext', tr)
  | RStore id value =>
      let '(registry, ext', tr) := registry_get id ext in
      (inr tt, put_registry id (registry_store value registry) ext', tr)
  | RHandleRegister s id permissions =>
      let '(registry, ext', tr) := registry_get id ext in
      match handle_register registry s permissions with
      | inl e => (inl e, ext', tr)
      | inr registry' => (inr tt, put_registry id registry' ext', tr)
      end
  | RHandleUpdate s id value =>
      let '(registry, ext', tr) := registry_get id ext in
      match handle_update has_permission registry s value with
      | inl e => (inl e, ext', tr)
      | inr registry' => (inr tt, put_registry id registry' ext', tr)
      end
  | RHandleGet s id =>
      let '(registry, ext', tr) := registry_get id ext in
      match handle_get has_permission registry s with
      | inl e => (inl e, ext', tr)
      | inr _ => (inr tt, ext', tr)
      end
  end.

Fixpoint registry_run (ops : list RegistryOp) (ext : RegistryExtension)
  : RegistryExtension * list RegistryEvent :=
  match ops with
  | [] => (ext, [])
  | op :: ops' =>
      let '(_, ext', tr) := registry_exec op ext in
      let '(ext'', tr') := registry_run ops' ext' in
      (ext'', tr ++ tr')
  end.
End RegistryExtension.

Definition empty_extension : RegistryExtension := mkRegistryExtension [] [].

(** The session has one of the listed permissions that are declared. *)
Definition holds_one_of (has_permission : Session -> Identifier -> bool)
    (s : Session) (declared : list (option Identifier)) : Prop :=
  exists p, Some p ∈ declared /\ has_permission s p = true.

(** Every registry of the map is loaded or waits in the startup list. *)
Definition registries_accounted (ext : RegistryExtension)
    (loaded : list Identifier) : Prop :=
  dict_wf (registries ext)
  /\ Permutation (dict_keys (registries ext))
       (loaded ++ startup_registries ext).

(** ** Session sockets: [AiohttpSession._receive], [create], [listen],
       [disconnect], [send] *)

(** [aiohttp.web.WSMsgType] *)
Module WSMsgType.
Inductive t :=
| CONTINUATION | TEXT | BINARY | PING | PONG | CLOSE | CLOSING | CLOSED | ERROR.
End WSMsgType.

#[global] Instance WSMsgType_eq_dec : EqDecision WSMsgType.t.
Proof. solve_decision. Defined.

(** What [socket.receive()] returns: the type and [msg.data]. *)
Record WSMessage := mkWSMessage {
  msg_type : WSMsgType.t;
  msg_data : option bytes
}.

(** [PacketData(event_type, event_data)] *)
Record PacketData := mkPacketData { pd_type : string; pd_data : bytes }.

(** The exceptions of the session module. *)
Inductive SessionError :=
| SocketError (t : WSMsgType.t)   (* RuntimeError(f"Socket {msg.type.name.lower()}") *)
| EmptyMessage                    (* RuntimeError("Received empty message") *)
| TextMessage                     (* RuntimeError("Received text message") *)
| UnknownMessageType (t : WSMsgType.t)
| ClosedBeforeConnect             (* RuntimeError("Socket closed before connect") *)
| UnexpectedPacket (got : string) (* RuntimeError(f"Expected ... but got {data.type}") *)
| SocketIsClosed                  (* ValueError("Socket is closed") *)
| CloseInterrupted                (* the BaseException out of socket.close() *)
| Raised (tag : nat).             (* raised inside a collaborator *)

(** How [socket.close()] ends: it returns, it raises an [Exception], or it
    raises a [BaseException] that is no [Exception]
    ([asyncio.CancelledError], [KeyboardInterrupt]). *)
Inductive CloseResult :=
| CloseReturns
| CloseRaisesException
| CloseRaisesBaseException.

(** The socket as the session sees it: the messages [receive] will deliver,
    in order, the [closed] flag, and how [close] ends.  Delivering a
    message leaves the flag alone: the only function that reads it, [send],
    is reached after binary messages only. *)
Record WebSocketResponse := mkSocket {
  inbox : list WSMessage;
  socket_closed : bool;
  close_result : CloseResult
}.

(** Calls the session makes on its collaborators. *)
Inductive SocketEvent :=
| SockSendBytes (frame : bytes)          (* socket.send_bytes(writer.finish()) *)
| SockClose                              (* socket.close() *)
| SockLog                                (* logger.warning / logger.error *)
| EvPacketTask (event : PacketData)      (* create_task(listeners.packet.emit(self, event)) *)
| EvDisconnected                         (* listeners.disconnected.emit(self) *)
| EvAuthenticate (a : App) (token : option string).

(** A coroutine that awaits the socket: finished with a value or an
    exception, or still suspended in [await socket.receive()] because no
    message is left to deliver. *)
Inductive Progress (A : Type) :=
| Finished (r : SessionError + A)
| Awaiting.
Arguments Finished {A} r.
Arguments Awaiting {A}.

Definition is_send_bytes (e : SocketEvent) : bool :=
  match e with SockSendBytes _ => true | _ => false end.

Section Session.
(** [ByteReader]: [read_string] then [read_byte_array] on the payload. *)
Variable read_frame : bytes -> SessionError + PacketData.
(** [ByteWriter]: [write_string], [write_byte_array], [finish]. *)
Variable write_frame : string -> bytes -> bytes.
(** [PACKET_TYPES.Connect.type], [PACKET_TYPES.Token.type] *)
Variable connect_type token_type : string.
(** [PACKET_TYPES.Connect.serializer.deserialize] *)
Variable deserialize_connect : bytes -> SessionError + (App * option string).
(** [PACKET_TYPES.Token.serializer.serialize] *)
Variable serialize_token : string -> bytes.
(** [server.security.authenticate_app] *)
Variable authenticate_app :
  App -> option string -> SessionError + (Permission * string).

(** The body of [_receive] once [socket.receive()] has delivered [msg]. *)
Definition receive_message (msg : WSMessage) : SessionError + option PacketData :=
  match msg_type msg with
  | WSMsgType.CLOSE => inr None
  | WSMsgType.ERROR | WSMsgType.CLOSED | WSMsgType.CLOSING =>
      inl (SocketError (msg_type msg))
  | t =>
      match msg_data msg with
      | None => inl EmptyMessage
      | Some data =>
          match t with
          | WSMsgType.TEXT => inl TextMessage
          | WSMsgType.BINARY =>
              match read_frame data with
              | inl e => inl e
              | inr packet => inr (Some packet)
              end
          | _ => inl (UnknownMessageType t)
          end
      end
  end.

(** [AiohttpSession._receive] *)
Definition AiohttpSession_receive (socket : WebSocketResponse)
  : Progress (option PacketData) * WebSocketResponse :=
  match inbox socket with
  | [] => (Awaiting, socket)
  | msg :: rest =>
      (Finished (receive_message msg),
       mkSocket rest (socket_closed socket) (close_result socket))
  end.

(** [AiohttpSession.send] on the session's own socket. *)
Definition AiohttpSession_send (socket : WebSocketResponse)
    (type : string) (data : bytes) : (SessionError + unit) * list SocketEvent :=
  if socket_closed socket then (inl SocketIsClosed, [])
  else (inr tt, [SockSendBytes (write_frame type data)]).

(** [AiohttpSession.create] *)
Definition AiohttpSession_create (socket : WebSocketResponse)
  : Progress AiohttpSession * WebSocketResponse * list SocketEvent :=
  match AiohttpSession_receive socket with
  | (Awaiting, socket') => (Awaiting, socket', [])
  | (Finished (inl e), socket') => (Finished (inl e), socket', [])
  | (Finished (inr None), socket') =>
      (Finished (inl ClosedBeforeConnect), socket', [])
  | (Finished (inr (Some data)), socket') =>
      if negb (bool_decide (pd_type data = connect_type)) then
        (Finished (inl (UnexpectedPacket (pd_type data))), socket', [])
      else
        match deserialize_connect (pd_data data) with
        | inl e => (Finished (inl e), socket', [])
        | inr (event_app, event_token) =>
            match authenticate_app event_app event_token with
            | inl e =>
                (Finished (inl e), socket',
                 [EvAuthenticate event_app event_token])
            | inr (permissions, token) =>
                let session := mkAiohttpSession event_app permissions in
                match AiohttpSession_send socket' token_type
                        (serialize_token token) with
                | (inl e, tr) =>
                    (Finished (inl e), socket',
                     EvAuthenticate event_app event_token :: tr)
                | (inr _, tr) =>
                    (Finished (inr session), socket',
                     EvAuthenticate event_app event_token :: tr)
                end
            end
        end
  end.

(** [AiohttpSession.disconnect]: the [try] catches [Exception] only.  An
    [Exception] of [socket.close()] is logged and swallowed and
    [disconnected] is emitted all the same; a [BaseException] that is no
    [Exception] leaves the function before the emit. *)
Definition AiohttpSession_disconnect (socket : WebSocketResponse)
  : (SessionError + unit) * WebSocketResponse * list SocketEvent :=
  match close_result socket with
  | CloseReturns =>
      (inr tt, mkSocket (inbox socket) true (close_result socket),
       [SockClose; EvDisconnected])
  | CloseRaisesException =>
      (inr tt, socket, [SockClose; SockLog; SockLog; EvDisconnected])
  | CloseRaisesBaseException =>
      (inl CloseInterrupted, socket, [SockClose])
  end.

(** The [while True] of [listen], by recursion on the messages the socket
    still delivers; the result carries the messages left over. *)
Fixpoint listen_loop (msgs : list WSMessage)
  : Progress unit * list WSMessage * list SocketEvent :=
  match msgs with
  | [] => (Awaiting, [], [])
  | msg :: rest =>
      match receive_message msg with
      | inl e => (Finished (inl e), rest, [])
      | inr None => (Finished (inr tt), rest, [])
      | inr (Some event) =>
          let '(r, rest', tr) := listen_loop rest in
          (r, rest', EvPacketTask event :: tr)
      end
  end.

(** [AiohttpSession.listen]: the loop, then [disconnect] in the [finally]
    (reached when the loop breaks or raises, not while it is suspended).
    What [disconnect] raises replaces the outcome of the loop. *)
Definition AiohttpSession_listen (socket : WebSocketResponse)
  : Progress unit * WebSocketResponse * list SocketEvent :=
  let '(r, rest, tr) := listen_loop (inbox socket) in
  let socket' := mkSocket rest (socket_closed socket) (close_result socket) in
  match r with
  | Awaiting => (Awaiting, socket', tr)
  | Finished r' =>
      let '(d, socket'', tr') := AiohttpSession_disconnect socket' in
      (Finished (match d with inl e => inl e | inr _ => r' end),
       socket'', tr ++ tr')
  end.
End Session.

(** ** The client side of a table: [TableImpl] of [table_extension.py] *)

(** [TableProxyPacket] *)
Record TableProxyPacket := mkTableProxyPacket {
  tpp_id : Identifier;
  tpp_key : nat;
  tpp_items : list (string * bytes)
}.

(** Calls the client table makes on its collaborators. *)
Inductive ClientEvent (T : Type) :=
| ClientSendProxy (packet : TableProxyPacket)  (* client.send(TABLE_PROXY_PACKET, ...) *)
| ClientCacheUpdate (cache : list (string * T)). (* listeners.cache_update(cache) *)
Arguments ClientSendProxy {T} packet.
Arguments ClientCacheUpdate {T} cache.

(** The attributes of [TableImpl] read here.  A proxy callback is taken as
    a function of the item it is given. *)
Record TableImpl (T : Type) := mkTableImpl {
  impl_id : Identifier;                    (* self._id *)
  impl_cache : list (string * T);          (* self._cache *)
  impl_cache_size : option Z;              (* self._cache_size *)
  impl_proxies : list (T -> option T)      (* self._proxies *)
}.
Arguments mkTableImpl {T}.
Arguments impl_id {T}.
Arguments impl_cache {T}.
Arguments impl_cache_size {T}.
Arguments impl_proxies {T}.

(** [l[:n]]: a negative [n] counts from the end. *)
Definition slice_to {A : Type} (n : Z) (l : list A) : list A :=
  if (n <? 0)%Z then take (length l - Z.to_nat (- n)) l
  else take (Z.to_nat n) l.

Section TableImpl.
Context {T : Type}.
Variable serialize : T -> bytes.             (* self._serializer.serialize *)
Variable deserialize : bytes -> option T.    (* self._serializer.deserialize *)
Variable key_function : T -> string.         (* self._key_function *)

(** The loop of [_parse_items], [parsed] being [parsed_items] so far. *)
Fixpoint parse_items_loop (items : list (string * bytes))
    (parsed : list (string * T)) : Error + list (string * T) :=
  match items with
  | [] => inr parsed
  | (k, item_bytes) :: rest =>
      match deserialize item_bytes with
      | None => inl (ValueError ("Failed to deserialize item with key: " +:+ k))
      | Some item => parse_items_loop rest (dict_set k item parsed)
      end
  end.

(** [TableImpl._parse_items] *)
Definition TableImpl_parse_items (items : list (string * bytes))
  : Error + list (string * T) :=
  parse_items_loop items [].

(** [TableImpl._serialize_items] *)
Definition TableImpl_serialize_items (items : list T) : list (string * bytes) :=
  fold_left
    (fun serialized item =>
       dict_set (key_function item) (serialize item) serialized)
    items [].

(** [TableImpl.update_cache] *)
Definition TableImpl_update_cache (items : list (string * T))
    (self : TableImpl T) : TableImpl T * list (ClientEvent T) :=
  let cache :=
    match impl_cache_size self with
    | None => dict_update items []
    | Some n => slice_to n (dict_update items (impl_cache self))
    end in
  (mkTableImpl (impl_id self) cache (impl_cache_size self) (impl_proxies self),
   [ClientCacheUpdate cache]).

(** One proxy of [_on_proxy]: the inner [for] runs over a snapshot of the
    items and writes into the dict itself. *)
Definition proxy_pass (proxy : T -> option T) (items : list (string * T))
  : list (string * T) :=
  fold_left
    (fun items kv =>
       match proxy (snd kv) with
       | None => dict_del (fst kv) items
       | Some updated_item => dict_set (fst kv) updated_item items
       end)
    items items.

(** [TableImpl._on_proxy] *)
Definition TableImpl_on_proxy (packet : TableProxyPacket) (self : TableImpl T)
  : (Error + unit) * list (ClientEvent T) :=
  if negb (bool_decide (tpp_id packet = impl_id self)) then (inr tt, [])
  else
    match TableImpl_parse_items (tpp_items packet) with
    | inl e => (inl e, [])
    | inr items =>
        let items :=
          fold_left (fun items proxy => proxy_pass proxy items)
            (impl_proxies self) items in
        (inr tt,
         [ClientSendProxy
            (mkTableProxyPacket (impl_id self) (tpp_key packet)
               (TableImpl_serialize_items (dict_values items)))])
    end.

(** The items a sequence of proxies lets through: each proxy sees what the
    one before it returned, and a dropped item is shown to no later one. *)
Definition through (proxies : list (T -> option T)) (item : T) : option T :=
  fold_left
    (fun acc proxy => match acc with Some x => proxy x | None => None end)
    proxies (Some item).

(** What one proxy makes of one entry: the key stays, the item is replaced
    or the entry goes. *)
Definition pass_entry (proxy : T -> option T) (kv : string * T)
  : option (string * T) :=
  match proxy (snd kv) with
  | Some updated_item => Some (fst kv, updated_item)
  | None => None
  end.

(** The dict [{key_function(x): x}] built item by item. *)
Definition keyed (items : list T) : list (string * T) :=
  fold_left (fun acc item => dict_set (key_function item) item acc) items [].
End TableImpl.

(** The entry of the cache refreshed from [items]. *)
Definition refreshed {T : Type} (items : list (string * T)) (kv : string * T)
  : string * T :=
  (fst kv, default (snd kv) (dict_get (fst kv) items)).

(** * Properties *)

(** ** The coroutine monad *)

Lemma bind_run {A B} (m : M A) (f : A -> M B) t x t' tr :
  m t = mkRun (inr x) t' tr ->
  bind m f t = prefix_trace tr (f x t').
Proof. intros Hm. unfold bind. rewrite Hm. reflexivity. Qed.

Lemma prefix_trace_nil {A} (r : Run A) : prefix_trace [] r = r.
Proof. destruct r; reflexivity. Qed.

Lemma prefix_trace_app {A} tr1 tr2 (r : Run A) :
  prefix_trace tr1 (prefix_trace tr2 r) = prefix_trace (tr1 ++ tr2) r.
Proof. unfold prefix_trace. cbn. rewrite app_assoc. reflexivity. Qed.

Lemma bind_run_err {A B} (m : M A) (f : A -> M B) t e t' tr :
  m t = mkRun (inl e) t' tr ->
  bind m f t = mkRun (inl e) t' tr.
Proof. intros Hm. unfold bind. rewrite Hm. reflexivity. Qed.

(** ** Listener fan-out, cache update, dirty marking, as equations *)

Lemma notify_eq closed l c t :
  notify closed l c t = mkRun (inr tt) t (notify_events closed c l).
Proof.
  unfold notify, notify_events, send.
  destruct l as [k s|n]; [|reflexivity].
  destruct c; destruct (closed s) eqn:Hc; cbn; rewrite ?Hc; reflexivity.
Qed.

Lemma for_each_notify_eq closed ls c t :
  for_each ls (fun l => notify closed l c) t =
  mkRun (inr tt) t (flat_map (notify_events closed c) ls).
Proof.
  induction ls as [|l ls IH]; [reflexivity|].
  cbn [for_each flat_map].
  rewrite (bind_run _ _ _ _ _ _ (notify_eq closed l c t)), IH. reflexivity.
Qed.

Lemma notify_all_eq closed c t :
  notify_all closed c t =
  mkRun (inr tt) t (flat_map (notify_events closed c) (listeners t)).
Proof. unfold notify_all. cbn. rewrite for_each_notify_eq. reflexivity. Qed.

Arguments notify : simpl never.
Arguments notify_all : simpl never.

Lemma mark_changed_eq t :
  mark_changed t =
  match save_task_handle t with
  | None =>
      mkRun (inr tt)
        (set_save_task_handle (Some TaskAtLoopHead) (set_changed true t))
        [EvCreateTask]
  | Some _ => mkRun (inr tt) (set_changed true t) []
  end.
Proof. unfold mark_changed. cbn. destruct (save_task_handle t); reflexivity. Qed.

Lemma update_cache_eq closed items t :
  update_cache closed items t =
  mkRun (inr tt) (set_cache (cache_after items t) t)
    (match cache_size t with
     | None => []
     | Some n =>
         if (n <=? 0)%Z then []
         else flat_map
                (notify_events closed (OnCacheUpdate (cache_after items t)))
                (listeners t)
     end).
Proof.
  unfold update_cache, cache_after. cbn.
  destruct (cache_size t) as [n|]; [|destruct t; reflexivity].
  destruct (n <=? 0)%Z; [destruct t; reflexivity|]. cbn.
  rewrite notify_all_eq. reflexivity.
Qed.

Arguments mark_changed : simpl never.
Arguments update_cache : simpl never.

Lemma adapter_call_ok {A} c (f : TableAdapter -> A * list (string * bytes)) t ad :
  adapter t = Some ad -> ad_fails ad c = false ->
  adapter_call c f t =
  mkRun (inr (fst (f ad)))
    (set_adapter_field (Some (mkAdapter (snd (f ad)) (ad_fails ad))) t)
    [EvAdapter c].
Proof.
  intros Ha Hf. unfold adapter_call. cbn. rewrite Ha. cbn. rewrite Hf.
  destruct (f ad). reflexivity.
Qed.

Lemma adapter_call_fail {A} c (f : TableAdapter -> A * list (string * bytes)) t ad :
  adapter t = Some ad -> ad_fails ad c = true ->
  adapter_call c f t = mkRun (inl StorageError) t [EvAdapter c].
Proof.
  intros Ha Hf. unfold adapter_call. cbn. rewrite Ha. cbn. rewrite Hf.
  reflexivity.
Qed.

Lemma adapter_call_none {A} c (f : TableAdapter -> A * list (string * bytes)) t :
  adapter t = None ->
  adapter_call c f t = mkRun (inl TableNotSet) t [].
Proof. intros Ha. unfold adapter_call. cbn. rewrite Ha. reflexivity. Qed.

Arguments adapter_call : simpl never.

(** ** Invariants of coroutines *)

Lemma inv_ret {A} I (x : A) : invariant I (ret x).
Proof. intros t Ht. exact Ht. Qed.

Lemma inv_raise {A} I e : invariant I (@raise A e).
Proof. intros t Ht. exact Ht. Qed.

Lemma inv_emit I e : invariant I (emit e).
Proof. intros t Ht. exact Ht. Qed.

Lemma inv_self I : invariant I self_.
Proof. intros t Ht. exact Ht. Qed.

Lemma inv_modify I f : (forall t, I t -> I (f t)) -> invariant I (modify f).
Proof. intros Hf t Ht. apply Hf, Ht. Qed.

Lemma inv_bind {A B} I (m : M A) (f : A -> M B) :
  invariant I m -> (forall x, invariant I (f x)) -> invariant I (bind m f).
Proof.
  intros Hm Hf t Ht. unfold bind.
  destruct (outcome (m t)) as [e|x] eqn:Ho; cbn.
  - apply Hm, Ht.
  - apply Hf, Hm, Ht.
Qed.

Lemma inv_attempt {A} I (m : M A) : invariant I m -> invariant I (attempt m).
Proof. intros Hm t Ht. apply Hm, Ht. Qed.

Lemma inv_for_each {A} I (l : list A) (f : A -> M unit) :
  (forall x, invariant I (f x)) -> invariant I (for_each l f).
Proof.
  intros Hf. induction l as [|x l IH]; cbn [for_each].
  - apply inv_ret.
  - apply inv_bind; [apply Hf | intros _; exact IH].
Qed.

Lemma inv_send I closed s p : invariant I (send closed s p).
Proof. unfold send. destruct (closed s); [apply inv_raise | apply inv_emit]. Qed.

Lemma inv_notify_all I closed c : invariant I (notify_all closed c).
Proof. intros t Ht. rewrite notify_all_eq. exact Ht. Qed.

Lemma inv_mark_changed I :
  (forall t b, I t -> I (set_changed b t)) ->
  (forall t h, I t -> I (set_save_task_handle h t)) ->
  invariant I mark_changed.
Proof.
  intros Hc Hs t Ht. rewrite mark_changed_eq.
  destruct (save_task_handle t); cbn; auto.
Qed.

Lemma inv_adapter_call {A} I c (f : TableAdapter -> A * list (string * bytes)) :
  (forall t x, I t -> I (set_adapter_field x t)) ->
  invariant I (adapter_call c f).
Proof.
  intros Ha t Ht. destruct (adapter t) as [ad|] eqn:Had.
  - destruct (ad_fails ad c) eqn:Hf.
    + rewrite (adapter_call_fail _ _ _ _ Had Hf). exact Ht.
    + rewrite (adapter_call_ok _ _ _ _ Had Hf). apply Ha, Ht.
  - rewrite (adapter_call_none _ _ _ Had). exact Ht.
Qed.

Lemma inv_update_cache I closed items :
  (forall t c, I t -> I (set_cache c t)) ->
  invariant I (update_cache closed items).
Proof. intros Hc t Ht. rewrite update_cache_eq. cbn. apply Hc, Ht. Qed.

(** Breaks a coroutine into its primitive steps; what is left are the
    state updates that touch the fields the invariant reads. *)
Ltac unfold_ops :=
  unfold exec, void, set_config, set_adapter, store, add_listener,
    remove_listener, attach_session, detach_session, handle_disconnection,
    attach_proxy_session, save_task_start, get, get_all, send_proxy_event,
    persist_added, add, proxy, update, remove, clear, size, set_cache_size,
    save_task_step, require_adapter, adapter_get, adapter_get_all,
    adapter_set_all, adapter_remove_all, adapter_clear, adapter_store.

Ltac inv_step :=
  lazymatch goal with
  | H : ?G |- ?G => exact H
  | |- invariant _ (ret _) => apply inv_ret
  | |- invariant _ (raise _) => apply inv_raise
  | |- invariant _ (emit _) => apply inv_emit
  | |- invariant _ self_ => apply inv_self
  | |- invariant _ (send _ _ _) => apply inv_send
  | |- invariant _ (notify_all _ _) => apply inv_notify_all
  | |- invariant _ (attempt _) => apply inv_attempt
  | |- invariant _ mark_changed =>
      apply inv_mark_changed; intros ? ? ?
  | |- invariant _ (adapter_call _ _) =>
      apply inv_adapter_call; intros ? ? ?
  | |- invariant _ (update_cache _ _) =>
      apply inv_update_cache; let H := fresh in intros ? ? H; exact H
  | |- invariant _ (for_each _ _) => apply inv_for_each; intros ?
  | |- invariant _ (bind _ _) => apply inv_bind; [|intros ?]
  | |- invariant _ (modify _) => apply inv_modify; intros ? ?
  | |- invariant _ (match _ with _ => _ end) => case_match
  | |- invariant _ _ => progress unfold_ops
  end.

Ltac inv_go := repeat inv_step.

(** ** Dictionaries *)

Lemma dict_set_length {K V} `{EqDecision K} (k : K) (v : V) d :
  length (dict_set k v d) =
  if dict_contains k d then length d else S (length d).
Proof.
  unfold dict_contains. induction d as [|[k' v'] d IH]; cbn; [reflexivity|].
  destruct (decide (k = k')); cbn; [reflexivity|].
  rewrite IH. destruct (dict_get k d); reflexivity.
Qed.

Lemma dict_del_length {K V} `{EqDecision K} (k : K) (d : list (K * V)) :
  length (dict_del k d) <= length d.
Proof.
  induction d as [|[k' v'] d IH]; cbn; [lia|].
  destruct (decide (k = k')); cbn; lia.
Qed.

Lemma dict_del_head {K V} `{EqDecision K} (k : K) (v : V) d :
  dict_del k ((k, v) :: d) = d.
Proof. cbn. destruct (decide (k = k)); [reflexivity|congruence]. Qed.

(** ** Cache policy *)

(** One insertion: the entry is written in place or appended, and when the
    cache then holds more than [n] entries its oldest entry goes. *)
Lemma cache_insert_eq n c kv :
  cache_insert n c kv =
  let c' := dict_set (fst kv) (snd kv) c in
  if (n <? Z.of_nat (length c'))%Z then tail c' else c'.
Proof.
  unfold cache_insert. cbn zeta.
  destruct (n <? Z.of_nat (length (dict_set kv.1 kv.2 c)))%Z; [|reflexivity].
  destruct (dict_set kv.1 kv.2 c) as [|[k0 v0] c']; [reflexivity|].
  apply dict_del_head.
Qed.

Lemma cache_insert_length n c kv :
  (0 <= n)%Z -> (Z.of_nat (length c) <= n)%Z ->
  (Z.of_nat (length (cache_insert n c kv)) <= n)%Z.
Proof.
  intros Hn Hc. rewrite cache_insert_eq. cbn zeta.
  pose proof (dict_set_length (fst kv) (snd kv) c) as Hl.
  destruct (Z.ltb_spec n (Z.of_nat (length (dict_set kv.1 kv.2 c)))) as [Hlt|Hge];
    [|exact Hge].
  destruct (dict_set kv.1 kv.2 c) as [|e c']; cbn in *; [lia|].
  destruct (dict_contains kv.1 c); lia.
Qed.

Lemma cache_inserts_length n items c :
  (0 <= n)%Z -> (Z.of_nat (length c) <= n)%Z ->
  (Z.of_nat (length (fold_left (cache_insert n) items c)) <= n)%Z.
Proof.
  intros Hn. revert c. induction items as [|kv items IH]; intros c Hc; cbn.
  - exact Hc.
  - apply IH, cache_insert_length; assumption.
Qed.

Lemma cache_removals_length (keys : list string) (c : list (string * bytes)) :
  length
    (fold_left (fun c k => if dict_contains k c then dict_del k c else c) keys c)
  <= length c.
Proof.
  revert c. induction keys as [|k keys IH]; intros c; cbn; [lia|].
  etransitivity; [apply IH|].
  destruct (dict_contains k c); [apply dict_del_length|lia].
Qed.

Lemma update_cache_unset closed items c :
  invariant (fun t => cache_size t = None /\ cache t = c)
    (update_cache closed items).
Proof.
  intros t [Hs Hc]. rewrite update_cache_eq. cbn. unfold cache_after.
  rewrite Hs. auto.
Qed.

Lemma update_cache_bounded closed items n :
  (0 < n)%Z ->
  invariant
    (fun t => cache_size t = Some n /\ (Z.of_nat (length (cache t)) <= n)%Z)
    (update_cache closed items).
Proof.
  intros Hn t [Hs Hc]. rewrite update_cache_eq. cbn. unfold cache_after.
  rewrite Hs. split; [reflexivity|].
  destruct (n <=? 0)%Z; [exact Hc|].
  apply cache_inserts_length; [lia|exact Hc].
Qed.

Lemma exec_cache_bounded closed op n :
  (0 < n)%Z -> sets_cache_size op = false ->
  invariant
    (fun t => cache_size t = Some n /\ (Z.of_nat (length (cache t)) <= n)%Z)
    (exec closed op).
Proof.
  intros Hn Hop. pose proof (update_cache_bounded closed) as Huc.
  destruct op; try discriminate; inv_go; try (apply Huc; exact Hn).
  - (* remove *)
    cbn. match goal with H : _ /\ _ |- _ => destruct H as [Hs Hc] end.
    split; [exact Hs|].
    pose proof (cache_removals_length keys (cache t)). lia.
  - (* clear *)
    cbn. match goal with H : _ /\ _ |- _ => destruct H as [Hs Hc] end.
    split; [exact Hs|cbn; lia].
Qed.

(** C3 (as amended).  With [cache_size] unset, [update_cache] returns at its
    first test, so an [add], [update], [get], [get_all] or [update_cache]
    call leaves the cache exactly as it found it: nothing inserted or fetched
    is kept, and the cache does not grow. *)
Theorem cache_unset_never_filled closed op t :
  cache_size t = None -> inserts_or_fetches op = true ->
  cache (final (exec closed op t)) = cache t
  /\ cache_size (final (exec closed op t)) = None.
Proof.
  intros Hs Hop.
  assert (H : invariant (fun t' => cache_size t' = None /\ cache t' = cache t)
                (exec closed op)).
  { pose proof (update_cache_unset closed) as Huc.
    destruct op; try discriminate; inv_go; apply Huc. }
  destruct (H t) as [H1 H2]; auto.
Qed.

Lemma cache_unset_never_filled_witness :
  cache (final (exec Ex.all_open (OpAdd [("k1", Ex.v1)]) Ex.plain)) = []
  /\ cache_size (final (exec Ex.all_open (OpAdd [("k1", Ex.v1)]) Ex.plain))
     = None.
Proof.
  apply (cache_unset_never_filled Ex.all_open (OpAdd [("k1", Ex.v1)]) Ex.plain);
    reflexivity.
Defined.

(** C3 fails as stated: on a table with an adapter and no cache size, a
    successful [add] of [k1] persists the item and leaves the cache without
    [k1]; a following [get] of [k1] finds it in the adapter and still does
    not cache it. *)
Lemma cache_unset_drops_added_item :
  let r := add Ex.all_open [("k1", Ex.v1)] Ex.plain in
  let r' := get Ex.all_open "k1" (final r) in
  cache_size Ex.plain = None
  /\ outcome r = inr tt
  /\ dict_get "k1" (cache (final r)) = None
  /\ outcome r' = inr (Some Ex.v1)
  /\ dict_get "k1" (cache (final r')) = None.
Proof. vm_compute. repeat split. Qed.

Lemma exec_cache_kept closed op n :
  (0 < n)%Z -> keeps_cache_size n op = true ->
  invariant
    (fun t => cache_size t = Some n /\ (Z.of_nat (length (cache t)) <= n)%Z)
    (exec closed op).
Proof.
  intros Hn Hop. destruct (sets_cache_size op) eqn:Hsets.
  - destruct op; try discriminate Hsets; cbn in Hop;
      apply bool_decide_eq_true in Hop; intros t [Hs Hc]; cbn.
    + rewrite Hop. split; [reflexivity|exact Hc].
    + rewrite Hop. split; [reflexivity|exact Hc].
  - apply exec_cache_bounded; assumption.
Qed.

(** C4 (as amended).  On a table with [cache_size = n > 0] whose cache holds
    at most [n] entries, every sequence of calls that leaves [cache_size]
    at [n] ([set_config] and [set_cache_size] included when they bring the
    size [n] again) keeps the cache at [n] entries or fewer; [update_cache]
    inserts the items in order, and an insertion that makes the cache
    longer than [n] drops the oldest entry.  [set_config] and
    [set_cache_size] only store the size they are given, on any table: the
    cache is left as it is, so a size set below the number of cached
    entries leaves a cache longer than its size. *)
Theorem cache_bounded_while_size_kept closed n ops t :
  (0 < n)%Z -> cache_size t = Some n ->
  (Z.of_nat (length (cache t)) <= n)%Z ->
  Forall (fun op => keeps_cache_size n op = true) ops ->
  (Z.of_nat (length (cache (run_ops closed ops t))) <= n)%Z
  /\ cache_size (run_ops closed ops t) = Some n
  /\ (forall items,
        cache (final (update_cache closed items t))
        = fold_left (cache_insert n) items (cache t))
  /\ (forall c kv,
        cache_insert n c kv =
        let c' := dict_set (fst kv) (snd kv) c in
        if (n <? Z.of_nat (length c'))%Z then tail c' else c')
  /\ (forall t' cfg,
        cache (final (set_config cfg t')) = cache t'
        /\ cache_size (final (set_config cfg t')) = config_cache_size cfg
        /\ outcome (set_config cfg t') = inr tt
        /\ trace (set_config cfg t') = [])
  /\ (forall t' m,
        cache (final (set_cache_size m t')) = cache t'
        /\ cache_size (final (set_cache_size m t')) = Some m
        /\ outcome (set_cache_size m t') = inr tt
        /\ trace (set_cache_size m t') = []
        /\ ((m < Z.of_nat (length (cache t')))%Z ->
            (m < Z.of_nat (length (cache (final (set_cache_size m t')))))%Z)).
Proof.
  intros Hn Hs Hc Hops.
  assert (Hrun : cache_size (run_ops closed ops t) = Some n
                 /\ (Z.of_nat (length (cache (run_ops closed ops t))) <= n)%Z).
  { revert t Hs Hc. induction Hops as [|op ops Hop _ IH]; intros t Hs Hc; cbn.
    - auto.
    - destruct (exec_cache_kept closed op n Hn Hop t (conj Hs Hc)) as [H1 H2].
      apply IH; assumption. }
  destruct Hrun as [H1 H2].
  split; [exact H2|]. split; [exact H1|]. split; [|split; [|split]].
  - intros items. rewrite update_cache_eq. cbn. unfold cache_after. rewrite Hs.
    destruct (Z.leb_spec n 0); [lia|reflexivity].
  - intros c kv. apply cache_insert_eq.
  - intros t' cfg. repeat split.
  - intros t' m. repeat split. intros Hm. exact Hm.
Qed.

Lemma cache_bounded_while_size_kept_witness :
  (Z.of_nat
     (length
        (cache
           (run_ops Ex.all_open
              [OpAdd [("k1", Ex.v1)]; OpAdd [("k2", Ex.v1)];
               OpSetConfig (mkConfig (Some 2%Z));
               OpAdd [("k3", Ex.v1)]] Ex.cached))) <= 2)%Z.
Proof.
  apply (cache_bounded_while_size_kept Ex.all_open 2
           [OpAdd [("k1", Ex.v1)]; OpAdd [("k2", Ex.v1)];
            OpSetConfig (mkConfig (Some 2%Z)); OpAdd [("k3", Ex.v1)]]
           Ex.cached).
  - lia.
  - reflexivity.
  - vm_compute. discriminate.
  - repeat constructor.
Defined.

(** The cache-truncation scenario: with [cache_size = 2], adding [k1],
    [k2], [k3] one after the other leaves [k2], [k3]. *)
Example cache_truncation_scenario :
  dict_keys
    (cache
       (run_ops Ex.all_open
          [OpAdd [("k1", Ex.v1)]; OpAdd [("k2", Ex.v1)]; OpAdd [("k3", Ex.v1)]]
          Ex.cached))
  = ["k2"; "k3"].
Proof. reflexivity. Qed.

(** C4 fails as stated once [set_config] is among the operations:
    [set_config] stores the new size and leaves the cache alone, and a later
    insertion drops one entry only.  After lowering the size from 2 to 1 the
    cache still holds 2 entries, also after one more [add]. *)
Lemma cache_exceeds_lowered_size :
  let t := run_ops Ex.all_open
             [OpAdd [("k1", Ex.v1)]; OpAdd [("k2", Ex.v1)];
              OpSetConfig (mkConfig (Some 1%Z))] Ex.cached in
  let t' := run_ops Ex.all_open [OpAdd [("k3", Ex.v1)]] t in
  cache_size t = Some 1%Z /\ length (cache t) = 2
  /\ cache_size t' = Some 1%Z /\ length (cache t') = 2.
Proof. vm_compute. repeat split. Qed.

(** C5 (as amended).  [size] returns the number of entries of the in-memory
    cache; it neither reads the adapter nor changes the table. *)
Theorem size_is_cache_length t :
  size t = mkRun (inr (length (cache t))) t [].
Proof. reflexivity. Qed.

(** C5 fails as stated: after a successful [add] on a table without cache
    size the adapter holds one item and [size] answers 0. *)
Lemma size_differs_from_adapter_count :
  let t := final (add Ex.all_open [("k1", Ex.v1)] Ex.plain) in
  option_map (fun ad => length (ad_data ad)) (adapter t) = Some 1
  /\ outcome (size t) = inr 0.
Proof. vm_compute. split; reflexivity. Qed.

(** ** Failing adapters *)

Lemma require_adapter_ok t ad :
  adapter t = Some ad -> require_adapter t = mkRun (inr tt) t [].
Proof. intros Ha. unfold require_adapter. cbn. rewrite Ha. reflexivity. Qed.

Lemma require_adapter_none t :
  adapter t = None -> require_adapter t = mkRun (inl TableNotSet) t [].
Proof. intros Ha. unfold require_adapter. cbn. rewrite Ha. reflexivity. Qed.

Lemma failed_quietly_adapter {A} t c :
  failed_quietly (@mkRun A (inl StorageError) t [EvAdapter c]) t.
Proof. repeat split. repeat constructor. Qed.

Lemma persist_added_fail closed items t ad :
  adapter t = Some ad -> ad_fails ad (ASetAll items) = true ->
  persist_added closed items t
  = mkRun (inl StorageError) t [EvAdapter (ASetAll items)].
Proof.
  intros Ha Hf. unfold persist_added, adapter_set_all.
  apply bind_run_err, (adapter_call_fail _ _ _ _ Ha Hf).
Qed.

Lemma update_fail closed items t ad :
  adapter t = Some ad -> ad_fails ad (ASetAll items) = true ->
  update closed items t
  = mkRun (inl StorageError) t [EvAdapter (ASetAll items)].
Proof.
  intros Ha Hf. unfold update, adapter_set_all.
  rewrite (bind_run _ _ _ _ _ _ (require_adapter_ok _ _ Ha)).
  rewrite (bind_run_err _ _ _ _ _ _ (adapter_call_fail _ _ _ _ Ha Hf)).
  reflexivity.
Qed.

Lemma add_direct closed items t ad :
  adapter t = Some ad -> proxy_sessions t = [] ->
  add closed items t = persist_added closed items t.
Proof.
  intros Ha Hp. unfold add.
  rewrite (bind_run _ _ _ _ _ _ (require_adapter_ok _ _ Ha)).
  cbn. rewrite Hp. cbn. apply (prefix_trace_nil (persist_added closed items t)).
Qed.

Lemma clear_fail closed t ad :
  adapter t = Some ad -> ad_fails ad AClear = true ->
  clear closed t = mkRun (inl StorageError) t [EvAdapter AClear].
Proof.
  intros Ha Hf. unfold clear, adapter_clear.
  rewrite (bind_run _ _ _ _ _ _ (require_adapter_ok _ _ Ha)).
  rewrite (bind_run_err _ _ _ _ _ _ (adapter_call_fail _ _ _ _ Ha Hf)).
  reflexivity.
Qed.

Lemma remove_fail closed keys t ad :
  adapter t = Some ad ->
  ad_fails ad (AGetAll keys) = true \/ ad_fails ad (ARemoveAll keys) = true ->
  failed_quietly (remove closed keys t) t.
Proof.
  intros Ha Hf. unfold remove, adapter_get_all, adapter_remove_all.
  rewrite (bind_run _ _ _ _ _ _ (require_adapter_ok _ _ Ha)).
  rewrite prefix_trace_nil.
  destruct (ad_fails ad (AGetAll keys)) eqn:Hg.
  - rewrite (bind_run_err _ _ _ _ _ _ (adapter_call_fail _ _ _ _ Ha Hg)).
    apply failed_quietly_adapter.
  - destruct Hf as [Hf|Hf]; [discriminate|].
    rewrite (bind_run _ _ _ _ _ _ (adapter_call_ok _ _ _ _ Ha Hg)).
    cbn [fst snd].
    erewrite bind_run_err.
    2:{ apply adapter_call_fail with (ad := mkAdapter (ad_data ad) (ad_fails ad));
        [reflexivity|exact Hf]. }
    repeat split. repeat constructor.
Qed.


(** ** The proxy chain is a dictionary keyed by app key *)

Lemma dict_contains_keys {K V} `{EqDecision K} (k : K) (d : list (K * V)) :
  dict_contains k d = true <-> k ∈ dict_keys d.
Proof.
  unfold dict_contains, dict_keys.
  induction d as [|[k' v'] d IH]; cbn.
  - split; [discriminate|]. intros Hin. inversion Hin.
  - destruct (decide (k = k')) as [->|Hne].
    + split; [intros _; left|reflexivity].
    + rewrite IH. split; [right; assumption|].
      intros Hin. inversion Hin; subst; [congruence|assumption].
Qed.

Lemma dict_set_keys {K V} `{EqDecision K} (k : K) (v : V) d :
  dict_keys (dict_set k v d) =
  if dict_contains k d then dict_keys d else dict_keys d ++ [k].
Proof.
  unfold dict_contains, dict_keys.
  induction d as [|[k' v'] d IH]; cbn; [reflexivity|].
  destruct (decide (k = k')); cbn; [reflexivity|].
  rewrite IH. destruct (dict_get k d); reflexivity.
Qed.

Lemma dict_set_get {K V} `{EqDecision K} (k : K) (v : V) d :
  dict_get k (dict_set k v d) = Some v.
Proof.
  induction d as [|[k' v'] d IH]; cbn.
  - destruct (decide (k = k)); [reflexivity|congruence].
  - destruct (decide (k = k')) as [->|Hne]; cbn.
    + destruct (decide (k' = k')); [reflexivity|congruence].
    + destruct (decide (k = k')); [congruence|exact IH].
Qed.

Lemma dict_set_wf {K V} `{EqDecision K} (k : K) (v : V) d :
  dict_wf d -> dict_wf (dict_set k v d).
Proof.
  unfold dict_wf. intros Hd. rewrite dict_set_keys.
  destruct (dict_contains k d) eqn:Hc; [exact Hd|].
  apply NoDup_app. split; [exact Hd|]. split.
  - intros x Hx Hx'. apply list_elem_of_singleton in Hx'. subst x.
    apply dict_contains_keys in Hx. congruence.
  - apply NoDup_singleton.
Qed.

Lemma dict_set_Forall {K V} `{EqDecision K} (P : K * V -> Prop) k v d :
  Forall P d -> P (k, v) -> Forall P (dict_set k v d).
Proof.
  intros Hd Hkv. induction Hd as [|[k' v'] d Hx Hd IH]; cbn.
  - repeat constructor. exact Hkv.
  - destruct (decide (k = k')) as [->|Hne]; constructor; assumption.
Qed.

Lemma attach_chain_ok s d :
  chain_ok d -> chain_ok (dict_set (app_key (app s)) s d).
Proof.
  intros [Hwf Hkeys]. split.
  - apply dict_set_wf, Hwf.
  - apply dict_set_Forall; [exact Hkeys|reflexivity].
Qed.

Lemma session_never_in_proxy_sessions s d :
  session_in_proxy_sessions s d = false.
Proof.
  unfold session_in_proxy_sessions. induction (dict_keys d); [reflexivity|].
  cbn. assumption.
Qed.

Lemma exec_chain_ok closed op :
  invariant (fun t => chain_ok (proxy_sessions t)) (exec closed op).
Proof.
  destruct op; inv_go.
  - match goal with
    | H : session_in_proxy_sessions _ _ = true |- _ =>
        rewrite session_never_in_proxy_sessions in H; discriminate
    end.
  - cbn. apply attach_chain_ok. assumption.
Qed.

Lemma reachable_chain_ok t : reachable t -> chain_ok (proxy_sessions t).
Proof.
  induction 1 as [id|closed op t _ IH].
  - split; [apply NoDup_nil_2|constructor].
  - apply exec_chain_ok, IH.
Qed.

Lemma run_ops_reachable closed ops t :
  reachable t -> reachable (run_ops closed ops t).
Proof.
  revert t. induction ops as [|op ops IH]; intros t Ht; cbn; [exact Ht|].
  apply IH. constructor. exact Ht.
Qed.

(** Only [attach_proxy_session] writes the proxy chain. *)
Lemma exec_keeps_proxy_sessions closed op d :
  (forall s, op <> OpAttachProxySession s) ->
  invariant (fun t => proxy_sessions t = d) (exec closed op).
Proof.
  intros Hop. destruct op; inv_go.
  - match goal with
    | H : session_in_proxy_sessions _ _ = true |- _ =>
        rewrite session_never_in_proxy_sessions in H; discriminate
    end.
  - exfalso. eapply Hop. reflexivity.
Qed.

Lemma exec_proxy_sessions_other closed op t :
  (forall s, op <> OpAttachProxySession s) ->
  proxy_sessions (final (exec closed op t)) = proxy_sessions t.
Proof.
  intros Hop.
  exact (exec_keeps_proxy_sessions closed op (proxy_sessions t) Hop t eq_refl).
Qed.

Lemma reached_by_reachable ops t : reached_by ops t -> reachable t.
Proof. induction 1; constructor; assumption. Qed.

Lemma run_ops_reached closed ops0 ops t :
  reached_by ops0 t -> reached_by (ops0 ++ ops) (run_ops closed ops t).
Proof.
  revert ops0 t. induction ops as [|op ops IH]; intros ops0 t Ht; cbn [run_ops].
  - rewrite app_nil_r. exact Ht.
  - replace (ops0 ++ op :: ops) with ((ops0 ++ [op]) ++ ops)
      by (rewrite <- app_assoc; reflexivity).
    apply IH. constructor. exact Ht.
Qed.

Lemma attached_proxies_app ops1 ops2 :
  attached_proxies (ops1 ++ ops2)
  = attached_proxies ops1 ++ attached_proxies ops2.
Proof.
  induction ops1 as [|op ops1 IH]; [reflexivity|].
  destruct op; cbn; rewrite ?IH; reflexivity.
Qed.

Lemma reached_proxy_sessions ops t :
  reached_by ops t ->
  proxy_sessions t = attach_all (attached_proxies ops) [].
Proof.
  induction 1 as [id|closed op ops t _ IH]; [reflexivity|].
  rewrite attached_proxies_app. unfold attach_all. rewrite fold_left_app.
  fold (attach_all (attached_proxies ops) []). rewrite <- IH.
  destruct op;
    try (rewrite exec_proxy_sessions_other by (intros; discriminate);
         reflexivity).
  reflexivity.
Qed.

Lemma attach_all_head ss k v d :
  exists tl, attach_all ss ((k, v) :: d) = (k, latest_session k ss v) :: tl.
Proof.
  revert v d. induction ss as [|s ss IH]; intros v d.
  - exists d. reflexivity.
  - cbn [attach_all latest_session fold_left dict_set].
    destruct (decide (app_key (app s) = k)) as [Hk|Hk]; apply IH.
Qed.

Lemma add_proxied closed items t ad k0 s0 rest :
  adapter t = Some ad -> proxy_sessions t = (k0, s0) :: rest ->
  add closed items t =
  if closed s0
  then mkRun (inl (ValueError "Socket is closed"))
         (set_proxy_id (S (proxy_id t)) t) []
  else mkRun (inr tt) (set_proxy_id (S (proxy_id t)) t)
         [EvSend s0
            (TableProxyEvent (key (identifier t)) (S (proxy_id t)) items)].
Proof.
  intros Ha Hp. unfold add.
  rewrite (bind_run _ _ _ _ _ _ (require_adapter_ok _ _ Ha)).
  rewrite prefix_trace_nil. unfold send_proxy_event, send.
  cbn. rewrite Hp. cbn. rewrite Hp. cbn.
  destruct (closed s0); reflexivity.
Qed.

Lemma dict_set_get_other {K V} `{EqDecision K} (k k' : K) (v : V) d :
  k' <> k -> dict_get k' (dict_set k v d) = dict_get k' d.
Proof.
  intros Hne. induction d as [|[k0 v0] d IH]; cbn.
  - destruct (decide (k' = k)); [congruence|reflexivity].
  - destruct (decide (k = k0)) as [->|Hk]; cbn.
    + destruct (decide (k' = k0)); [congruence|reflexivity].
    + destruct (decide (k' = k0)); [reflexivity|exact IH].
Qed.

(** C10.  In every state a table reaches, the proxy chain has pairwise
    distinct app keys.  [attach_proxy_session] with a session whose app key
    is present keeps the sequence of keys as it is, stores the new session
    under that key and leaves the other entries alone.  With an adapter set,
    [add] hands the proxy packet to one session only: the one stored under
    the app key that was attached first, which is the latest session
    attached under that key (and to nobody when its socket is closed). *)
Theorem proxy_chain_one_entry_per_app ops t closed s items ad :
  reached_by ops t -> adapter t = Some ad ->
  dict_wf (proxy_sessions t)
  /\ (dict_contains (app_key (app s)) (proxy_sessions t) = true ->
      let t' := final (attach_proxy_session s t) in
      dict_keys (proxy_sessions t') = dict_keys (proxy_sessions t)
      /\ dict_get (app_key (app s)) (proxy_sessions t') = Some s
      /\ (forall k, k <> app_key (app s) ->
            dict_get k (proxy_sessions t') = dict_get k (proxy_sessions t)))
  /\ (forall s0 later, attached_proxies ops = s0 :: later ->
      let target := latest_session (app_key (app s0)) later s0 in
      head (proxy_sessions t) = Some (app_key (app s0), target)
      /\ trace (add closed items t) =
         if closed target then []
         else [EvSend target
                 (TableProxyEvent (key (identifier t)) (S (proxy_id t)) items)]).
Proof.
  intros Hr Ha. split; [|split].
  - apply reachable_chain_ok, (reached_by_reachable _ _ Hr).
  - intros Hc. cbn zeta. unfold attach_proxy_session, modify.
    cbn [final proxy_sessions set_proxy_sessions].
    rewrite dict_set_keys, Hc, dict_set_get. repeat split.
    intros k Hk. apply dict_set_get_other, Hk.
  - intros s0 later Hatt. cbn zeta.
    pose proof (reached_proxy_sessions _ _ Hr) as Hp. rewrite Hatt in Hp.
    cbn [attach_all fold_left dict_set] in Hp.
    destruct (attach_all_head later (app_key (app s0)) s0 []) as [tl Htl].
    unfold attach_all in Htl. rewrite Htl in Hp.
    rewrite Hp. split; [reflexivity|].
    rewrite (add_proxied closed items t ad _ _ _ Ha Hp).
    destruct (closed _); reflexivity.
Qed.

Lemma proxy_chain_one_entry_per_app_witness :
  let ops := [OpSetAdapter (mkAdapter [] Ex.never_fails);
              OpAttachProxySession Ex.p1; OpAttachProxySession Ex.p2;
              OpAttachProxySession Ex.p1'] in
  let t := run_ops Ex.all_open ops (init Ex.table_id) in
  dict_wf (proxy_sessions t)
  /\ dict_keys (proxy_sessions (final (attach_proxy_session Ex.p1 t)))
     = ["y:first"; "z:second"]
  /\ head (proxy_sessions t) = Some ("y:first", Ex.p1')
  /\ trace (add Ex.all_open [("k1", Ex.v1)] t)
     = [EvSend Ex.p1' (TableProxyEvent "x:svc/data" 1 [("k1", Ex.v1)])].
Proof.
  intros ops t.
  destruct (proxy_chain_one_entry_per_app ops t Ex.all_open Ex.p1
              [("k1", Ex.v1)] (mkAdapter [] Ex.never_fails)
              (run_ops_reached Ex.all_open [] ops _ (reached_init Ex.table_id))
              eq_refl) as (Hwf & Hre & Hfirst).
  destruct (Hre eq_refl) as (Hkeys & _).
  destruct (Hfirst Ex.p1 [Ex.p2; Ex.p1'] eq_refl) as (Hhead & Hsend).
  repeat split; assumption.
Defined.

(** ** Counting [set_all] calls *)

Lemma count_set_all_app tr1 tr2 :
  count_set_all (tr1 ++ tr2) = count_set_all tr1 + count_set_all tr2.
Proof. unfold count_set_all. rewrite filter_app, length_app. reflexivity. Qed.

Lemma count_set_all_cons e tr :
  count_set_all (e :: tr)
  = (if is_set_all e then 1 else 0) + count_set_all tr.
Proof.
  unfold count_set_all. rewrite filter_cons.
  destruct (is_set_all e); cbn.
  - destruct (decide (true = true)); [reflexivity|congruence].
  - destruct (decide (false = true)); [discriminate|reflexivity].
Qed.

Lemma notify_events_no_set_all closed c ls :
  count_set_all (flat_map (notify_events closed c) ls) = 0.
Proof.
  induction ls as [|l ls IH]; [reflexivity|].
  cbn [flat_map]. rewrite count_set_all_app, IH.
  unfold notify_events. destruct l as [k s|n]; [|reflexivity].
  destruct (closed s); [reflexivity|]. destruct c; reflexivity.
Qed.

Lemma update_cache_no_set_all closed items t :
  count_set_all (trace (update_cache closed items t)) = 0.
Proof.
  rewrite update_cache_eq. cbn [trace].
  destruct (cache_size t) as [n|]; [|reflexivity].
  destruct (n <=? 0)%Z; [reflexivity|apply notify_events_no_set_all].
Qed.

Lemma mark_changed_no_set_all t : count_set_all (trace (mark_changed t)) = 0.
Proof. rewrite mark_changed_eq. destruct (save_task_handle t); reflexivity. Qed.

Lemma mark_changed_sets_flag t :
  outcome (mark_changed t) = inr tt
  /\ changed (final (mark_changed t)) = true
  /\ cache (final (mark_changed t)) = cache t
  /\ adapter (final (mark_changed t)) = adapter t.
Proof.
  rewrite mark_changed_eq. destruct (save_task_handle t); repeat split.
Qed.

(** [persist_added] on an adapter that accepts the items. *)
Lemma persist_added_ok closed items t ad :
  adapter t = Some ad -> ad_fails ad (ASetAll items) = false ->
  persist_added closed items t =
  prefix_trace
    (EvAdapter (ASetAll items)
     :: flat_map (notify_events closed (OnAdd items)) (listeners t)
     ++ trace (update_cache closed items t))
    (mark_changed
       (set_cache (cache_after items t)
          (set_adapter_field
             (Some (mkAdapter (dict_update items (ad_data ad)) (ad_fails ad)))
             t))).
Proof.
  intros Ha Hf. unfold persist_added, adapter_set_all.
  rewrite (bind_run _ _ _ _ _ _ (adapter_call_ok _ _ _ _ Ha Hf)).
  cbn [fst snd].
  rewrite (bind_run _ _ _ _ _ _ (notify_all_eq _ _ _)).
  rewrite (bind_run _ _ _ _ _ _ (update_cache_eq _ _ _)).
  rewrite !prefix_trace_app, (update_cache_eq closed items t).
  cbn [trace app]. rewrite <- app_assoc. reflexivity.
Qed.

Lemma persist_added_count closed items t :
  count_set_all (trace (persist_added closed items t)) <= 1.
Proof.
  destruct (adapter t) as [ad|] eqn:Ha.
  - destruct (ad_fails ad (ASetAll items)) eqn:Hf.
    + rewrite (persist_added_fail _ _ _ _ Ha Hf). cbn [trace].
      rewrite count_set_all_cons. cbn. lia.
    + rewrite (persist_added_ok _ _ _ _ Ha Hf). cbn [prefix_trace trace].
      rewrite <- app_comm_cons, count_set_all_cons, !count_set_all_app.
      rewrite notify_events_no_set_all, update_cache_no_set_all,
        mark_changed_no_set_all. cbn. lia.
  - unfold persist_added, adapter_set_all.
    rewrite (bind_run_err _ _ _ _ _ _ (adapter_call_none _ _ _ Ha)). cbn. lia.
Qed.

(** ** One answer of a proxy session *)

Lemma run_eta {A} (r : Run A) : mkRun (outcome r) (final r) (trace r) = r.
Proof. destruct r; reflexivity. Qed.

Lemma index_of_lookup {K} `{EqDecision K} (ks : list K) i k :
  NoDup ks -> ks !! i = Some k -> index_of k ks = Some i.
Proof.
  intros Hnd. revert i. induction Hnd as [|k' ks Hnotin Hnd IH]; intros i Hi.
  - destruct i; discriminate.
  - destruct i as [|i]; cbn in *.
    + injection Hi as ->. destruct (decide (k = k)); [reflexivity|congruence].
    + destruct (decide (k = k')) as [->|Hne].
      * exfalso. apply Hnotin. eapply list_elem_of_lookup_2, Hi.
      * rewrite (IH i Hi). reflexivity.
Qed.

Lemma index_of_elem_of {K} `{EqDecision K} (ks : list K) i k :
  index_of k ks = Some i -> k ∈ ks.
Proof.
  revert i. induction ks as [|k' ks IH]; intros i; cbn; [discriminate|].
  destruct (decide (k = k')) as [->|Hne]; [intros _; left|].
  destruct (index_of k ks) eqn:Hi; [|discriminate].
  intros _. right. eapply IH. reflexivity.
Qed.

Lemma chain_key_at d i s :
  chain_ok d -> dict_values d !! i = Some s ->
  dict_keys d !! i = Some (app_key (app s)).
Proof.
  intros [_ Hkeys] Hs. unfold dict_values, dict_keys in *.
  rewrite list_lookup_fmap in Hs. rewrite list_lookup_fmap.
  destruct (d !! i) as [[k s']|] eqn:Hd; [|discriminate].
  cbn in *. injection Hs as ->.
  rewrite Forall_lookup in Hkeys. specialize (Hkeys _ _ Hd). cbn in Hkeys.
  rewrite Hkeys. reflexivity.
Qed.

Lemma proxy_at closed t ad i s k items :
  adapter t = Some ad -> chain_ok (proxy_sessions t) ->
  dict_values (proxy_sessions t) !! i = Some s ->
  proxy closed s k items t =
  if decide (i = length (proxy_sessions t) - 1)
  then bind (persist_added closed items) (fun _ => ret 0) t
  else
    match dict_values (proxy_sessions t) !! (i + 1) with
    | None => mkRun (inl IndexError) t []
    | Some next =>
        if closed next
        then mkRun (inl (ValueError "Socket is closed")) t []
        else mkRun (inr (proxy_id t)) t
               [EvSend next
                  (TableProxyEvent (key (identifier t)) (proxy_id t) items)]
    end.
Proof.
  intros Ha Hok Hs.
  pose proof (chain_key_at _ _ _ Hok Hs) as Hk.
  pose proof (index_of_lookup _ _ _ (proj1 Hok) Hk) as Hi.
  assert (Hc : dict_contains (app_key (app s)) (proxy_sessions t) = true).
  { apply dict_contains_keys. eapply index_of_elem_of, Hi. }
  unfold proxy.
  rewrite (bind_run _ _ _ _ _ _ (require_adapter_ok _ _ Ha)), prefix_trace_nil.
  cbn. rewrite Hc. cbn. rewrite Hi.
  destruct (decide (i = length (proxy_sessions t) - 1)) as [Hl|Hl].
  - rewrite (bind_run _ _ _ _ _ _ (require_adapter_ok _ _ Ha)), prefix_trace_nil.
    apply run_eta.
  - destruct (dict_values (proxy_sessions t) !! (i + 1)) as [next|];
      [|reflexivity].
    unfold send. destruct (closed next); reflexivity.
Qed.

(** ** A whole traversal of the chain *)

Lemma bind_ret_unit {B} (m : M unit) (y : B) t :
  bind (bind m (fun _ => ret y)) (fun _ => ret tt) t = m t.
Proof.
  unfold bind, ret. destruct (m t) as [[e|[]] t' tr]; cbn; [reflexivity|].
  rewrite !app_nil_r. reflexivity.
Qed.

Lemma bind_congr_run {A B} (m m' : M A) (f : A -> M B) t :
  m t = m' t -> bind m f t = bind m' f t.
Proof. intros Hm. unfold bind. rewrite Hm. reflexivity. Qed.

Lemma bind_self {B} (f : CachedTable -> M B) t : bind self_ f t = f t t.
Proof. unfold bind, self_. cbn. apply run_eta. Qed.

Lemma no_listener_fired_send s p tr :
  no_listener_fired tr -> no_listener_fired (EvSend s p :: tr).
Proof. intros H. constructor; [reflexivity|exact H]. Qed.

Lemma echo_all_pending closed t ad pre rest echoes :
  adapter t = Some ad -> chain_ok (proxy_sessions t) ->
  dict_values (proxy_sessions t) = pre ++ rest ->
  length echoes < length rest ->
  final (echo_all closed rest echoes t) = t
  /\ count_set_all (trace (echo_all closed rest echoes t)) = 0
  /\ no_listener_fired (trace (echo_all closed rest echoes t)).
Proof.
  intros Ha Hok. revert pre echoes.
  induction rest as [|s rest IH]; intros pre echoes Hv Hlen; [cbn in Hlen; lia|].
  destruct echoes as [|[k e] echoes]; [repeat split; constructor|].
  cbn [echo_all]. cbn in Hlen.
  assert (Hs : dict_values (proxy_sessions t) !! length pre = Some s).
  { rewrite Hv. apply list_lookup_middle. reflexivity. }
  assert (Hl : length (proxy_sessions t) = length pre + S (length rest)).
  { rewrite <- (length_map snd (proxy_sessions t)).
    change (map snd (proxy_sessions t)) with (dict_values (proxy_sessions t)).
    rewrite Hv, length_app. reflexivity. }
  pose proof (proxy_at closed t ad _ s k e Ha Hok Hs) as Hp.
  destruct (decide (length pre = length (proxy_sessions t) - 1)); [lia|].
  destruct rest as [|next rest]; [cbn in Hlen; lia|].
  assert (Hn : dict_values (proxy_sessions t) !! (length pre + 1) = Some next).
  { rewrite Hv. replace (pre ++ s :: next :: rest) with ((pre ++ [s]) ++ next :: rest)
      by (rewrite <- app_assoc; reflexivity).
    apply list_lookup_middle. rewrite length_app. reflexivity. }
  rewrite Hn in Hp. destruct (closed next).
  - rewrite (bind_run_err _ _ _ _ _ _ Hp). repeat split; constructor.
  - rewrite (bind_run _ _ _ _ _ _ Hp). unfold prefix_trace. cbn [final trace].
    destruct (IH (pre ++ [s]) echoes) as (H1 & H2 & H3).
    + rewrite Hv, <- app_assoc. reflexivity.
    + lia.
    + split; [exact H1|]. split.
      * rewrite count_set_all_app, H2. reflexivity.
      * apply no_listener_fired_send, H3.
Qed.

Lemma echo_all_count closed t ad pre rest echoes :
  adapter t = Some ad -> chain_ok (proxy_sessions t) ->
  dict_values (proxy_sessions t) = pre ++ rest ->
  count_set_all (trace (echo_all closed rest echoes t)) <= 1.
Proof.
  intros Ha Hok. revert pre echoes.
  induction rest as [|s rest IH]; intros pre echoes Hv; [cbn; lia|].
  destruct echoes as [|[k e] echoes]; [cbn; lia|].
  cbn [echo_all].
  assert (Hs : dict_values (proxy_sessions t) !! length pre = Some s).
  { rewrite Hv. apply list_lookup_middle. reflexivity. }
  pose proof (proxy_at closed t ad _ s k e Ha Hok Hs) as Hp.
  destruct (decide (length pre = length (proxy_sessions t) - 1)).
  - assert (rest = []) as ->.
    { assert (Hl : length (dict_values (proxy_sessions t))
                   = length (proxy_sessions t)) by apply length_map.
      rewrite Hv, length_app in Hl. cbn in Hl. destruct rest; [reflexivity|].
      cbn in Hl. lia. }
    cbn [echo_all].
    rewrite (bind_congr_run _ _ _ _ Hp), bind_ret_unit.
    apply persist_added_count.
  - destruct (dict_values (proxy_sessions t) !! (length pre + 1)) as [next|].
    + destruct (closed next).
      * rewrite (bind_run_err _ _ _ _ _ _ Hp). cbn. lia.
      * rewrite (bind_run _ _ _ _ _ _ Hp). unfold prefix_trace. cbn [trace].
        rewrite count_set_all_app.
        change (count_set_all [EvSend next
                  (TableProxyEvent (key (identifier t)) (proxy_id t) e)])
          with 0.
        apply (IH (pre ++ [s])). rewrite Hv, <- app_assoc. reflexivity.
    + rewrite (bind_run_err _ _ _ _ _ _ Hp). cbn. lia.
Qed.

Lemma echo_all_complete closed t ad pre rest echoes k last_items :
  adapter t = Some ad -> chain_ok (proxy_sessions t) ->
  dict_values (proxy_sessions t) = pre ++ rest ->
  Forall (fun s => closed s = false) rest ->
  echoes !! (length rest - 1) = Some (k, last_items) ->
  rest <> [] ->
  echo_all closed rest echoes t =
  prefix_trace (forwards (key (identifier t)) (proxy_id t) rest echoes)
    (persist_added closed last_items t).
Proof.
  intros Ha Hok. revert pre echoes.
  induction rest as [|s rest IH]; intros pre echoes Hv Hopen Hlast Hne;
    [congruence|].
  destruct echoes as [|[k' e] echoes]; [discriminate|].
  cbn [echo_all].
  assert (Hs : dict_values (proxy_sessions t) !! length pre = Some s).
  { rewrite Hv. apply list_lookup_middle. reflexivity. }
  assert (Hl : length (proxy_sessions t) = length pre + S (length rest)).
  { rewrite <- (length_map snd (proxy_sessions t)).
    change (map snd (proxy_sessions t)) with (dict_values (proxy_sessions t)).
    rewrite Hv, length_app. reflexivity. }
  pose proof (proxy_at closed t ad _ s k' e Ha Hok Hs) as Hp.
  destruct rest as [|next rest].
  - cbn in Hlast. injection Hlast as -> ->.
    destruct (decide (length pre = length (proxy_sessions t) - 1)); [|cbn in Hl; lia].
    cbn [echo_all forwards].
    rewrite (bind_congr_run _ _ _ _ Hp), bind_ret_unit, prefix_trace_nil.
    reflexivity.
  - destruct (decide (length pre = length (proxy_sessions t) - 1));
      [cbn in Hl; lia|].
    assert (Hn : dict_values (proxy_sessions t) !! (length pre + 1) = Some next).
    { rewrite Hv.
      replace (pre ++ s :: next :: rest) with ((pre ++ [s]) ++ next :: rest)
        by (rewrite <- app_assoc; reflexivity).
      apply list_lookup_middle. rewrite length_app. reflexivity. }
    rewrite Hn in Hp.
    inversion Hopen as [|? ? _ Hopen']; subst.
    inversion Hopen' as [|? ? Hnext _]; subst.
    rewrite Hnext in Hp.
    rewrite (bind_run _ _ _ _ _ _ Hp).
    rewrite (IH (pre ++ [s]) echoes); try assumption; try discriminate.
    + rewrite prefix_trace_app. reflexivity.
    + rewrite Hv, <- app_assoc. reflexivity.
    + cbn in Hlast. cbn. rewrite Nat.sub_0_r. exact Hlast.
Qed.

Lemma nothing_persisted_same {A} (r : Run A) t t' :
  count_set_all (trace r) = 0 -> no_listener_fired (trace r) ->
  final r = t' -> cache t' = cache t -> changed t' = changed t ->
  adapter t' = adapter t ->
  nothing_persisted r t.
Proof.
  intros H1 H2 Hf H3 H4 H5. unfold nothing_persisted. rewrite Hf.
  repeat split; assumption.
Qed.

Lemma index_of_last {K} `{EqDecision K} (ks : list K) k :
  index_of k ks = Some (length ks - 1) -> last ks = Some k.
Proof.
  induction ks as [|k' ks IH]; cbn [index_of length]; [discriminate|].
  destruct (decide (k = k')) as [->|Hne].
  - intros Hi. destruct ks; [reflexivity|cbn in Hi; discriminate].
  - destruct (index_of k ks) as [i|] eqn:Hi; [|discriminate].
    intros Hl. destruct ks as [|k'' ks]; [discriminate|].
    rewrite last_cons_cons. apply IH. cbn in *. f_equal. injection Hl. lia.
Qed.

(** Whoever answers and whatever it answers, one call of [proxy] calls
    [set_all] at most once, and only for the session under the chain's last
    app key. *)
Lemma no_set_all_vacuous tr (P : Prop) :
  count_set_all tr = 0 ->
  count_set_all tr <= 1 /\ (0 < count_set_all tr -> P).
Proof. intros ->. split; lia. Qed.

Arguments count_set_all : simpl never.

Lemma proxy_set_all_only_last closed s k items t :
  count_set_all (trace (proxy closed s k items t)) <= 1
  /\ (0 < count_set_all (trace (proxy closed s k items t)) ->
      last (dict_keys (proxy_sessions t)) = Some (app_key (app s))).
Proof.
  unfold proxy. destruct (adapter t) as [ad|] eqn:Ha.
  - rewrite (bind_run _ _ _ _ _ _ (require_adapter_ok _ _ Ha)), prefix_trace_nil.
    cbn.
    destruct (dict_contains (app_key (app s)) (proxy_sessions t)); cbn;
      [|apply no_set_all_vacuous; reflexivity].
    destruct (index_of (app_key (app s)) (dict_keys (proxy_sessions t)))
      as [i|] eqn:Hi; cbn; [|apply no_set_all_vacuous; reflexivity].
    destruct (decide (i = length (proxy_sessions t) - 1)) as [->|Hl].
    + rewrite (bind_run _ _ _ _ _ _ (require_adapter_ok _ _ Ha)),
        prefix_trace_nil.
      pose proof (persist_added_count closed items t) as Hc.
      unfold bind. destruct (persist_added closed items t) as [[e|[]] t' tr];
        cbn in *; rewrite ?app_nil_r; (split; [exact Hc|]); intros _;
        apply index_of_last; unfold dict_keys; rewrite length_map; exact Hi.
    + destruct (dict_values (proxy_sessions t) !! (i + 1)) as [next|]; cbn;
        [|apply no_set_all_vacuous; reflexivity].
      unfold send. destruct (closed next); cbn;
        apply no_set_all_vacuous; reflexivity.
  - rewrite (bind_run_err _ _ _ _ _ _ (require_adapter_none _ Ha)).
    apply no_set_all_vacuous; reflexivity.
Qed.

(** ** The cache an answer leaves behind *)

Lemma dict_contains_false {K V} `{EqDecision K} (k : K) (d : list (K * V)) :
  dict_contains k d = false <-> dict_get k d = None.
Proof. unfold dict_contains. destruct (dict_get k d); split; congruence. Qed.

Lemma dict_set_new {K V} `{EqDecision K} (k : K) (v : V) d :
  dict_get k d = None -> dict_set k v d = d ++ [(k, v)].
Proof.
  induction d as [|[k' v'] d IH]; cbn; [reflexivity|].
  destruct (decide (k = k')); [discriminate|]. intros Hd. rewrite IH; auto.
Qed.

Lemma cache_insert_keeps_inserted n c k v :
  (0 < n)%Z -> (Z.of_nat (length c) <= n)%Z ->
  dict_get k (cache_insert n c (k, v)) = Some v.
Proof.
  intros Hn Hc. rewrite cache_insert_eq. cbn [fst snd].
  pose proof (dict_set_get k v c) as Hget.
  pose proof (dict_set_length k v c) as Hlen.
  destruct (Z.ltb_spec n (Z.of_nat (length (dict_set k v c)))) as [Hlt|_];
    [|exact Hget].
  destruct c as [|[k1 v1] c1]; [cbn in Hlt; lia|].
  cbn [dict_set] in *. destruct (decide (k = k1)) as [->|Hne].
  - cbn [length] in *. lia.
  - cbn [tail dict_get] in *. destruct (decide (k = k1)); [congruence|exact Hget].
Qed.

Lemma cache_insert_fifo n c kv :
  (0 < n)%Z -> (Z.of_nat (length c) <= n)%Z ->
  cache_insert n c kv = fifo_insert n c kv.
Proof.
  intros Hn Hc. rewrite cache_insert_eq. cbn zeta. unfold fifo_insert.
  pose proof (dict_set_length (fst kv) (snd kv) c) as Hl.
  destruct (dict_contains (fst kv) c) eqn:Hk.
  - destruct (Z.ltb_spec n (Z.of_nat (length (dict_set kv.1 kv.2 c))));
      [lia|reflexivity].
  - apply dict_contains_false in Hk.
    rewrite (dict_set_new _ (snd kv) c Hk) in *.
    destruct kv as [k v]. cbn [fst snd] in *.
    destruct (Z.ltb_spec (Z.of_nat (length c)) n);
      destruct (Z.ltb_spec n (Z.of_nat (length (c ++ [(k, v)]))));
      try lia; [reflexivity|].
    destruct c as [|e c]; [cbn in *; lia|reflexivity].
Qed.

Lemma cache_inserts_fifo n items c :
  (0 < n)%Z -> (Z.of_nat (length c) <= n)%Z ->
  fold_left (cache_insert n) items c = fold_left (fifo_insert n) items c.
Proof.
  intros Hn. revert c. induction items as [|kv items IH]; intros c Hc;
    [reflexivity|].
  cbn [fold_left]. rewrite <- (cache_insert_fifo n c kv Hn Hc).
  apply IH, cache_insert_length; [lia|exact Hc].
Qed.

Lemma cache_inserts_room n items c :
  (Z.of_nat (length c + length items) <= n)%Z ->
  fold_left (cache_insert n) items c = dict_update items c.
Proof.
  revert c. induction items as [|kv items IH]; intros c Hc; [reflexivity|].
  unfold dict_update in *. cbn [fold_left].
  pose proof (dict_set_length (fst kv) (snd kv) c) as Hl.
  assert (Hlen : length (dict_set kv.1 kv.2 c) <= S (length c))
    by (destruct (dict_contains kv.1 c); lia).
  cbn [length] in Hc.
  replace (cache_insert n c kv) with (dict_set (fst kv) (snd kv) c).
  - apply IH. lia.
  - rewrite cache_insert_eq. cbn zeta.
    destruct (Z.ltb_spec n (Z.of_nat (length (dict_set kv.1 kv.2 c))));
      [lia|reflexivity].
Qed.

Lemma cache_inserts_last n items c k v :
  (0 < n)%Z -> (Z.of_nat (length c) <= n)%Z ->
  last items = Some (k, v) ->
  dict_get k (fold_left (cache_insert n) items c) = Some v.
Proof.
  intros Hn Hc Hlast. apply last_Some in Hlast as [items' ->].
  rewrite fold_left_app. cbn [fold_left].
  apply cache_insert_keeps_inserted; [exact Hn|].
  apply cache_inserts_length; [lia|exact Hc].
Qed.

(** What [update_cache items] makes of the cache, without reference to the
    insertion code. *)
Lemma cache_after_policy items t :
  (cache_enabled t = false -> cache_after items t = cache t)
  /\ (forall n,
        cache_size t = Some n -> (0 < n)%Z ->
        (Z.of_nat (length (cache t)) <= n)%Z ->
        cache_after items t = fold_left (fifo_insert n) items (cache t)
        /\ (Z.of_nat (length (cache_after items t)) <= n)%Z
        /\ (forall k v,
              last items = Some (k, v) ->
              dict_get k (cache_after items t) = Some v)
        /\ ((Z.of_nat (length (cache t) + length items) <= n)%Z ->
            cache_after items t = dict_update items (cache t))).
Proof.
  unfold cache_after, cache_enabled. split.
  - destruct (cache_size t) as [n|]; [|reflexivity].
    destruct (n <=? 0)%Z; [reflexivity|discriminate].
  - intros n Hs Hn Hc. rewrite Hs.
    destruct (Z.leb_spec n 0); [lia|].
    split; [apply cache_inserts_fifo; assumption|].
    split; [apply cache_inserts_length; [lia|assumption]|].
    split; [intros k v; apply cache_inserts_last; assumption|].
    apply cache_inserts_room.
Qed.

(** C1 (as amended).  On a reachable table with an adapter and a non-empty
    proxy chain: the [add] itself calls [set_all] zero times, calls no
    listener and leaves cache, dirty flag and adapter untouched; it takes
    the next proxy id and sends the proxy packet to the head of the chain
    only.  Any one answer makes at most one [set_all] call, and only when
    it comes from the session under the chain's last app key.  The server
    does not match answers to adds, so the count per [add] is stated for
    the traversal that the [add] starts (each session of the chain
    answering once, in chain order): there [set_all] is called at most
    once, and as long as some session of the chain has not answered,
    nothing is persisted.  When the last session answers (sockets open,
    adapter accepting), the trace is the proxy packets, then the one
    [set_all] with the last answer's items, then [on_add] on every
    listener, then the cache update and the dirty mark.  The cache is
    untouched when no positive cache size is configured; otherwise, for a
    cache within its size [n], the items of the answer are inserted in
    order (a cached key keeps its place, a new key goes last and pushes
    out the oldest entry of a full cache): the cache stays within [n],
    holds the last item of the answer, and is the old cache updated with
    the items when there is room for them all. *)
Theorem proxied_add_persists_after_last_echo closed t ad items echoes :
  reachable t -> adapter t = Some ad -> proxy_sessions t <> [] ->
  nothing_persisted (add closed items t) t
  /\ (exists first,
        head (dict_values (proxy_sessions t)) = Some first
        /\ proxy_id (final (add closed items t)) = S (proxy_id t)
        /\ trace (add closed items t) =
           if closed first then []
           else [EvSend first
                   (TableProxyEvent (key (identifier t)) (S (proxy_id t))
                      items)])
  /\ (forall s k answer t',
        count_set_all (trace (proxy closed s k answer t')) <= 1
        /\ (0 < count_set_all (trace (proxy closed s k answer t')) ->
            last (dict_keys (proxy_sessions t')) = Some (app_key (app s))))
  /\ count_set_all (trace (item_add_round closed items echoes t)) <= 1
  /\ (length echoes < length (proxy_sessions t) ->
      nothing_persisted (item_add_round closed items echoes t) t)
  /\ (forall k last_items,
        echoes !! (length (proxy_sessions t) - 1) = Some (k, last_items) ->
        Forall (fun s => closed s = false) (dict_values (proxy_sessions t)) ->
        ad_fails ad (ASetAll last_items) = false ->
        let r := item_add_round closed items echoes t in
        outcome r = inr tt
        /\ trace r =
           round_sends (key (identifier t)) (S (proxy_id t))
             (dict_values (proxy_sessions t)) items echoes
           ++ EvAdapter (ASetAll last_items)
           :: flat_map (notify_events closed (OnAdd last_items)) (listeners t)
           ++ trace (update_cache closed last_items t)
           ++ trace (mark_changed t)
        /\ changed (final r) = true
        /\ cache (final r) = cache_after last_items t
        /\ adapter (final r)
           = Some (mkAdapter (dict_update last_items (ad_data ad))
                     (ad_fails ad))
        /\ (cache_enabled t = false -> cache (final r) = cache t)
        /\ (forall n,
              cache_size t = Some n -> (0 < n)%Z ->
              (Z.of_nat (length (cache t)) <= n)%Z ->
              cache (final r) = fold_left (fifo_insert n) last_items (cache t)
              /\ (Z.of_nat (length (cache (final r))) <= n)%Z
              /\ (forall k' v',
                    last last_items = Some (k', v') ->
                    dict_get k' (cache (final r)) = Some v')
              /\ ((Z.of_nat (length (cache t) + length last_items) <= n)%Z ->
                  cache (final r) = dict_update last_items (cache t)))).
Proof.
  intros Hr Ha Hne.
  pose proof (reachable_chain_ok t Hr) as Hok.
  destruct (proxy_sessions t) as [|[k0 s0] tl] eqn:Hp; [congruence|].
  pose proof (add_proxied closed items t ad k0 s0 tl Ha Hp) as Hadd.
  set (t1 := set_proxy_id (S (proxy_id t)) t) in *.
  assert (Hp1 : proxy_sessions t1 = (k0, s0) :: tl) by exact Hp.
  assert (Hok1 : chain_ok (proxy_sessions t1)) by (rewrite Hp1; exact Hok).
  assert (Ha1 : adapter t1 = Some ad) by exact Ha.
  assert (Hv1 : dict_values (proxy_sessions t1) = [] ++ dict_values ((k0, s0) :: tl))
    by (rewrite Hp1; reflexivity).
  assert (Hround : item_add_round closed items echoes t =
            if closed s0
            then mkRun (inl (ValueError "Socket is closed")) t1 []
            else prefix_trace
                   [EvSend s0 (TableProxyEvent (key (identifier t))
                                 (S (proxy_id t)) items)]
                   (echo_all closed (dict_values ((k0, s0) :: tl)) echoes t1)).
  { unfold item_add_round. destruct (closed s0).
    - apply bind_run_err, Hadd.
    - rewrite (bind_run _ _ _ _ _ _ Hadd), bind_self, Hp1. reflexivity. }
  split; [|split; [|split; [|split; [|split]]]].
  - rewrite Hadd. destruct (closed s0);
      (eapply nothing_persisted_same; [| |reflexivity|..]);
      try reflexivity; repeat constructor.
  - exists s0. rewrite Hadd. destruct (closed s0); repeat split.
  - intros s k answer t'. apply proxy_set_all_only_last.
  - rewrite Hround. destruct (closed s0);
      [change (count_set_all (trace (@mkRun unit _ _ []))) with 0; lia|].
    unfold prefix_trace. cbn [trace]. rewrite count_set_all_app.
    apply (echo_all_count closed t1 ad [] _ echoes Ha1 Hok1 Hv1).
  - intros Hlen. rewrite Hround. destruct (closed s0).
    + eapply nothing_persisted_same; [| |reflexivity|..];
        try reflexivity; repeat constructor.
    + destruct (echo_all_pending closed t1 ad [] _ echoes Ha1 Hok1 Hv1)
        as (H1 & H2 & H3).
      { unfold dict_values. rewrite length_map. exact Hlen. }
      eapply nothing_persisted_same with (t' := t1); try reflexivity.
      * unfold prefix_trace. cbn [trace]. rewrite count_set_all_app, H2.
        reflexivity.
      * apply no_listener_fired_send, H3.
      * exact H1.
  - intros k last_items Hlast Hopen Hf. cbn zeta. rewrite Hround.
    inversion Hopen as [|? ? Hs0 _]; subst. rewrite Hs0.
    rewrite (echo_all_complete closed t1 ad [] _ echoes k last_items
               Ha1 Hok1 Hv1 Hopen);
      [|unfold dict_values; rewrite length_map; exact Hlast|discriminate].
    rewrite prefix_trace_app.
    rewrite (persist_added_ok closed last_items t1 ad Ha1 Hf).
    rewrite prefix_trace_app.
    destruct (mark_changed_sets_flag
                (set_cache (cache_after last_items t1)
                   (set_adapter_field
                      (Some (mkAdapter (dict_update last_items (ad_data ad))
                               (ad_fails ad))) t1)))
      as (Hout & Hch & Hca & Had).
    unfold prefix_trace. cbn [outcome final trace].
    rewrite Hout, Hch, Hca, Had.
    split; [reflexivity|].
    split; [|split; [reflexivity|split; [reflexivity|split; [reflexivity|]]]].
    + rewrite !mark_changed_eq, !update_cache_eq. cbn [trace].
      change (save_task_handle (set_cache _ (set_adapter_field _ t1)))
        with (save_task_handle t).
      destruct (save_task_handle t); cbn [trace];
        unfold round_sends, dict_values; cbn [map snd].
      all: repeat (rewrite <- app_assoc || rewrite <- app_comm_cons).
      all: reflexivity.
    + exact (cache_after_policy last_items t).
Qed.

Lemma proxied_reachable : reachable Ex.proxied.
Proof. repeat apply run_ops_reachable. constructor. Qed.

Lemma proxied_add_persists_after_last_echo_witness :
  let items := [("a", Ex.v1); ("b", Ex.v2)] in
  let echoes := [(1, [("a", Ex.v2)]); (1, [("a", Ex.v1)])] in
  let r := item_add_round Ex.all_open items echoes Ex.proxied in
  nothing_persisted (add Ex.all_open items Ex.proxied) Ex.proxied
  /\ count_set_all (trace r) <= 1
  /\ outcome r = inr tt
  /\ changed (final r) = true
  /\ adapter (final r) = Some (mkAdapter [("a", Ex.v1)] Ex.never_fails)
  /\ cache (final r) = [("a", Ex.v1)].
Proof.
  intros items echoes r.
  destruct (proxied_add_persists_after_last_echo Ex.all_open Ex.proxied
              (mkAdapter [] Ex.never_fails) items echoes
              proxied_reachable eq_refl ltac:(discriminate))
    as (Hadd & _ & _ & Hcount & _ & Hlast).
  destruct (Hlast 1 [("a", Ex.v1)] eq_refl ltac:(repeat constructor) eq_refl)
    as (Hout & _ & Hch & _ & Had & _ & Hcache).
  destruct (Hcache 2%Z eq_refl ltac:(lia) ltac:(vm_compute; discriminate))
    as (_ & _ & _ & Hroom).
  split; [exact Hadd|]. split; [exact Hcount|]. split; [exact Hout|].
  split; [exact Hch|]. split; [exact Had|].
  exact (Hroom ltac:(vm_compute; discriminate)).
Defined.

(** C1 fails as stated: [proxy] never looks at the key of the answer, so
    the server cannot tell which [add] an answer belongs to.  With the
    chain [p1], [p2] and one [add], the last session answering twice makes
    two [set_all] calls, while [p1] has not answered at all. *)
Lemma last_session_answering_twice_persists_twice :
  let ops := [OpAdd [("a", Ex.v1); ("b", Ex.v2)];
              OpProxy Ex.p2 1 [("a", Ex.v1)];
              OpProxy Ex.p2 1 [("a", Ex.v2)]] in
  dict_values (proxy_sessions Ex.proxied) = [Ex.p1; Ex.p2]
  /\ length (filter (fun op => is_add op = true) ops) = 1
  /\ count_set_all (run_events Ex.all_open ops Ex.proxied) = 2
  /\ option_map ad_data (adapter (run_ops Ex.all_open ops Ex.proxied))
     = Some [("a", Ex.v2)].
Proof. vm_compute. repeat split. Qed.

(** The proxy-chain scenario: two proxies, the first drops [b] and rewrites
    [a], the second rewrites [a] again; the adapter ends with the last
    answer only and [set_all] ran once. *)
Example proxy_chain_scenario :
  let r := item_add_round Ex.all_open [("a", Ex.v1); ("b", Ex.v2)]
             [(1, [("a", Ex.v2)]); (1, [("a", Ex.v1)])] Ex.proxied in
  option_map ad_data (adapter (final r)) = Some [("a", Ex.v1)]
  /\ count_set_all (trace r) = 1.
Proof. vm_compute. split; reflexivity. Qed.

(** ** Storage errors *)

Lemma proxy_last_fail closed s k items t ad :
  adapter t = Some ad -> ad_fails ad (ASetAll items) = true ->
  index_of (app_key (app s)) (dict_keys (proxy_sessions t))
  = Some (length (proxy_sessions t) - 1) ->
  proxy closed s k items t
  = mkRun (inl StorageError) t [EvAdapter (ASetAll items)].
Proof.
  intros Ha Hf Hi.
  assert (Hc : dict_contains (app_key (app s)) (proxy_sessions t) = true).
  { apply dict_contains_keys. eapply index_of_elem_of, Hi. }
  unfold proxy.
  rewrite (bind_run _ _ _ _ _ _ (require_adapter_ok _ _ Ha)), prefix_trace_nil.
  cbn. rewrite Hc. cbn. rewrite Hi.
  destruct (decide (length (proxy_sessions t) - 1
                    = length (proxy_sessions t) - 1)); [|congruence].
  rewrite (bind_run _ _ _ _ _ _ (require_adapter_ok _ _ Ha)), prefix_trace_nil.
  rewrite (bind_run_err _ _ _ _ _ _ (persist_added_fail _ _ _ _ Ha Hf)).
  reflexivity.
Qed.

Lemma store_fail t ad :
  adapter t = Some ad -> ad_fails ad AStore = true -> changed t = true ->
  store t = mkRun (inl StorageError) (set_changed false t) [EvAdapter AStore].
Proof.
  intros Ha Hf Hc. unfold store, adapter_store.
  rewrite (bind_run _ _ _ _ _ _ (require_adapter_ok _ _ Ha)), prefix_trace_nil.
  cbn. rewrite Hc. cbn.
  rewrite (adapter_call_fail AStore _ (set_changed false t) ad Ha Hf).
  reflexivity.
Qed.

(** C6 (as amended).  When the adapter call of a mutation ([set_all] for
    [add], [update] and the last proxy answer, [get_all] or [remove_all]
    for [remove], [clear] for [clear]) fails, the caller gets
    [StorageError], no listener is called, and dirty flag, cache and save
    task are as before the call.  [store] clears the dirty flag before it
    calls the adapter: when [adapter.store] fails on a dirty table the
    caller gets [StorageError] and the flag is left cleared. *)
Theorem storage_error_propagates closed t ad :
  adapter t = Some ad ->
  (forall items, ad_fails ad (ASetAll items) = true ->
     failed_quietly (update closed items t) t
     /\ (proxy_sessions t = [] -> failed_quietly (add closed items t) t)
     /\ (forall s k,
           index_of (app_key (app s)) (dict_keys (proxy_sessions t))
           = Some (length (proxy_sessions t) - 1) ->
           failed_quietly (proxy closed s k items t) t))
  /\ (forall keys,
        ad_fails ad (AGetAll keys) = true \/ ad_fails ad (ARemoveAll keys) = true ->
        failed_quietly (remove closed keys t) t)
  /\ (ad_fails ad AClear = true -> failed_quietly (clear closed t) t)
  /\ (ad_fails ad AStore = true -> changed t = true ->
      outcome (store t) = inl StorageError
      /\ changed (final (store t)) = false
      /\ no_listener_fired (trace (store t))).
Proof.
  intros Ha. split; [|split; [|split]].
  - intros items Hf. split; [|split].
    + rewrite (update_fail _ _ _ _ Ha Hf). apply failed_quietly_adapter.
    + intros Hp. rewrite (add_direct _ _ _ _ Ha Hp).
      rewrite (persist_added_fail _ _ _ _ Ha Hf). apply failed_quietly_adapter.
    + intros s k Hi. rewrite (proxy_last_fail _ _ _ _ _ _ Ha Hf Hi).
      apply failed_quietly_adapter.
  - intros keys Hf. apply (remove_fail closed keys t ad Ha Hf).
  - intros Hf. rewrite (clear_fail _ _ _ Ha Hf). apply failed_quietly_adapter.
  - intros Hf Hc. rewrite (store_fail _ _ Ha Hf Hc). cbn.
    repeat split. repeat constructor.
Qed.

Lemma storage_error_propagates_witness :
  let ad := mkAdapter [] (fun _ => true) in
  let t := run_ops Ex.all_open [OpSetAdapter ad]
             (run_ops Ex.all_open [OpUpdate [("k0", Ex.v1)]] Ex.cached) in
  failed_quietly (update Ex.all_open [("k1", Ex.v1)] t) t
  /\ failed_quietly (add Ex.all_open [("k1", Ex.v1)] t) t
  /\ failed_quietly (remove Ex.all_open ["k0"] t) t
  /\ failed_quietly (clear Ex.all_open t) t
  /\ outcome (store t) = inl StorageError
  /\ changed (final (store t)) = false.
Proof.
  intros ad t.
  destruct (storage_error_propagates Ex.all_open t ad eq_refl)
    as (Hset & Hrem & Hclear & Hstore).
  destruct (Hset [("k1", Ex.v1)] eq_refl) as (Hupd & Hadd & _).
  destruct (Hstore eq_refl eq_refl) as (Hs1 & Hs2 & _).
  split; [exact Hupd|].
  split; [exact (Hadd eq_refl)|].
  split; [exact (Hrem ["k0"] (or_introl eq_refl))|].
  split; [exact (Hclear eq_refl)|].
  split; [exact Hs1|exact Hs2].
Defined.

(** C6 fails as stated for [store]: on a dirty table whose adapter cannot
    flush, [store] raises [StorageError] and the dirty flag is cleared all
    the same. *)
Lemma failing_store_clears_dirty_flag :
  changed Ex.unflushable = true
  /\ outcome (store Ex.unflushable) = inl StorageError
  /\ changed (final (store Ex.unflushable)) = false.
Proof. vm_compute. repeat split. Qed.

(** ** Deferred persistence *)

(** The first [mark_changed] of a table starts the save task. *)
Lemma mark_changed_starts_task t :
  save_task_handle t = None ->
  changed (final (mark_changed t)) = true
  /\ task_running (save_task_handle (final (mark_changed t))) = true.
Proof. intros Hs. rewrite mark_changed_eq, Hs. split; reflexivity. Qed.

(** [_save_task] is never reset: once the task has ended, [mark_changed]
    finds the stale handle and starts nothing. *)
Lemma mark_changed_after_task_ended t h :
  save_task_handle t = Some h -> task_running (Some h) = false ->
  changed (final (mark_changed t)) = true
  /\ task_running (save_task_handle (final (mark_changed t))) = false.
Proof.
  intros Hs Hh. rewrite mark_changed_eq, Hs. cbn. rewrite Hs. auto.
Qed.

(** C7 fails on the code.  A table gets an adapter and is marked changed:
    the save task starts, stores, sleeps, finds the table clean and ends.
    The next [mark_changed] sets the dirty flag while no save task runs,
    and none will: the state is reachable, dirty, and without a running
    save task. *)
Theorem dirty_without_running_save_task :
  let t := run_ops Ex.all_open
             [OpSetAdapter (mkAdapter [] Ex.never_fails); OpMarkChanged;
              OpSaveTaskStep; OpSaveTaskStep; OpSaveTaskStep; OpMarkChanged]
             (init Ex.table_id) in
  reachable t
  /\ changed t = true
  /\ save_task_handle t = Some TaskDone
  /\ task_running (save_task_handle t) = false
  /\ final (save_task_step t) = t.
Proof.
  split; [apply run_ops_reachable; constructor|].
  vm_compute. repeat split.
Qed.

(** ** Session detachment *)

(** [detach_session] never deletes from the proxy chain: its test looks the
    session object up among the app keys. *)
Lemma handle_disconnection_keeps_proxy_sessions s t :
  proxy_sessions (final (handle_disconnection s t)) = proxy_sessions t.
Proof.
  apply (exec_proxy_sessions_other (fun _ => false) (OpHandleDisconnection s)).
  intros; discriminate.
Qed.

(** C8 fails on the code.  Session [p1] listens to a table and is also its
    first proxy.  After the table handled its disconnection the handler is
    gone from the listeners and [p1] from the attached map, but the proxy
    chain still holds [p1] under its app key, and the next [add] is sent
    to it. *)
Theorem disconnect_keeps_proxy_entry :
  let t := run_ops Ex.all_open [OpAttachSession Ex.p1] Ex.proxied in
  let t' := final (handle_disconnection Ex.p1 t) in
  dict_contains Ex.p1 (sessions t) = true
  /\ dict_get "y:first" (proxy_sessions t) = Some Ex.p1
  /\ outcome (handle_disconnection Ex.p1 t) = inr tt
  /\ dict_contains Ex.p1 (sessions t') = false
  /\ listeners t' = [SessionTableListener "x:svc/data" Ex.owner]
  /\ dict_get "y:first" (proxy_sessions t') = Some Ex.p1
  /\ trace (add Ex.all_open [("k1", Ex.v1)] t')
     = [EvSend Ex.p1 (TableProxyEvent "x:svc/data" 1 [("k1", Ex.v1)])].
Proof. vm_compute. repeat split. Qed.

(** ** The [permissions] accessors *)

(** C9 fails on the code.  Whatever stack the interpreter has left, the
    [permissions] property of [AiohttpSession] and of
    [WebsocketsConnection] ends in [RecursionError]; it never returns the
    permission set stored by the constructor. *)
Theorem permissions_accessor_never_returns frames :
  (forall self, AiohttpSession_permissions frames self = inl RecursionError)
  /\ (forall self,
        WebsocketsConnection_permissions frames self = inl RecursionError).
Proof.
  split; intros self; induction frames as [|frames IH]; cbn; auto.
Qed.

Example permissions_accessor_at_default_limit :
  AiohttpSession_permissions 1000
    (mkAiohttpSession (app Ex.owner) [Ex.required])
  = inl RecursionError.
Proof. reflexivity. Qed.

(** ** Registry permission check *)

(** C2 (as amended).  When the registry's id is a subpart of the session's
    app id, [check_permission] returns without consulting the permissions,
    so [handle_update] and [handle_get] succeed whatever the session was
    granted and whatever the registry declares. *)
Theorem registry_owner_bypasses_permissions
    has_permission registry session get_permissions value :
  is_subpart_of (reg_id registry) (app_id (app session)) = true ->
  check_permission has_permission registry session get_permissions = inr tt
  /\ handle_update has_permission registry session value
     = inr (registry_store value registry)
  /\ handle_get has_permission registry session = inr (reg_data registry).
Proof.
  intros Hown. unfold handle_update, handle_get, check_permission.
  rewrite Hown. repeat split.
Qed.

Lemma registry_owner_bypasses_permissions_witness :
  let registry := mkServerRegistry Ex.table_id
                    (mkRegistryPermissions None None (Some Ex.required)) [] in
  handle_update (fun _ _ => false) registry Ex.owner Ex.v1
  = inr (registry_store Ex.v1 registry).
Proof.
  intros registry.
  apply (registry_owner_bypasses_permissions (fun _ _ => false) registry
           Ex.owner (fun p => [perm_all p; perm_write p]) Ex.v1).
  reflexivity.
Defined.

(** C2 fails as stated: the app id [x:svc/sub] is a subpart of the required
    permission [x:svc], the session holds no grant, the registry [y:reg]
    is not its own, and the update is denied. *)
Lemma app_under_required_permission_is_denied :
  is_subpart_of (app_id (app Ex.sub_app)) Ex.required = true
  /\ perm_write (reg_permissions Ex.foreign_registry) = Some Ex.required
  /\ handle_update (has_permission_spec Ex.no_grants) Ex.foreign_registry
       Ex.sub_app Ex.v1
     = inl (PermissionDenied "not allowed to access").
Proof. vm_compute. repeat split. Qed.

(** * Further properties of the table *)

Lemma void_err {A} (m : M A) t e t' tr :
  m t = mkRun (inl e) t' tr -> void m t = mkRun (inl e) t' tr.
Proof. intros Hm. unfold void. apply bind_run_err, Hm. Qed.

(** X1.  Before [set_adapter], every call that reads or writes items
    ([store], [get], [get_all], [add], [proxy], [update], [remove],
    [clear]) raises [Table not set], changes nothing in the table and calls
    neither listener nor socket. *)
Theorem table_not_set closed op t :
  adapter t = None -> needs_adapter op = true ->
  exec closed op t = mkRun (inl TableNotSet) t [].
Proof.
  intros Ha Hop. pose proof (require_adapter_none t Ha) as Hr.
  destruct op; try discriminate; cbn [exec];
    try apply void_err;
    unfold store, get, get_all, add, proxy, update, remove, clear;
    apply bind_run_err, Hr.
Qed.

Lemma table_not_set_witness :
  exec Ex.all_open (OpAdd [("k1", Ex.v1)]) (init Ex.table_id)
  = mkRun (inl TableNotSet) (init Ex.table_id) [].
Proof.
  apply (table_not_set Ex.all_open (OpAdd [("k1", Ex.v1)]) (init Ex.table_id));
    reflexivity.
Defined.

(** ** Attaching and detaching sessions *)

Lemma dict_del_appended {K V} `{EqDecision K} (k : K) (v : V) d :
  dict_get k d = None -> dict_del k (d ++ [(k, v)]) = d.
Proof.
  induction d as [|[k' v'] d IH]; cbn.
  - intros _. destruct (decide (k = k)); [reflexivity|congruence].
  - destruct (decide (k = k')); [discriminate|]. intros Hd. rewrite IH; auto.
Qed.

Lemma dict_get_appended {K V} `{EqDecision K} (k : K) (v : V) d :
  dict_get k d = None -> dict_get k (d ++ [(k, v)]) = Some v.
Proof.
  induction d as [|[k' v'] d IH]; cbn.
  - intros _. destruct (decide (k = k)); [reflexivity|congruence].
  - destruct (decide (k = k')); [discriminate|]. exact IH.
Qed.

Lemma list_remove_first_appended {K} `{EqDecision K} (x : K) l :
  x ∉ l -> list_remove_first x (l ++ [x]) = Some l.
Proof.
  induction l as [|y l IH]; cbn; intros Hx.
  - destruct (decide (x = x)); [reflexivity|congruence].
  - destruct (decide (x = y)) as [->|Hne]; [exfalso; apply Hx; left|].
    rewrite IH; [reflexivity|]. intros Hin. apply Hx. right. exact Hin.
Qed.

Lemma attach_session_new s t :
  dict_get s (sessions t) = None ->
  attach_session s t =
  mkRun (inr tt)
    (set_listeners
       (listeners t ++ [SessionTableListener (key (identifier t)) s])
       (set_sessions
          (sessions t ++ [(s, SessionTableListener (key (identifier t)) s)]) t))
    [EvSubscribeDisconnected s].
Proof.
  intros Hs. unfold attach_session, add_listener, dict_contains. cbn.
  rewrite Hs. cbn. rewrite (dict_set_new _ _ _ Hs). reflexivity.
Qed.

Lemma detach_session_absent s t :
  dict_get s (sessions t) = None ->
  handle_disconnection s t = mkRun (inr tt) t [].
Proof.
  intros Hs. unfold handle_disconnection, detach_session.
  rewrite bind_self, session_never_in_proxy_sessions. cbn.
  rewrite Hs. reflexivity.
Qed.

(** X2.  For a session that is not attached: its disconnection is a
    no-op without error; [attach_session] followed by the disconnection
    gives back the very same table (handler gone from the listeners, entry
    gone from the attached map, nothing else touched), provided the
    session's handler was not already registered by hand; and a second
    [attach_session] does nothing. *)
Theorem attach_then_disconnect_restores s t :
  dict_contains s (sessions t) = false ->
  SessionTableListener (key (identifier t)) s ∉ listeners t ->
  handle_disconnection s t = mkRun (inr tt) t []
  /\ handle_disconnection s (final (attach_session s t)) = mkRun (inr tt) t []
  /\ attach_session s (final (attach_session s t))
     = mkRun (inr tt) (final (attach_session s t)) [].
Proof.
  intros Hc Hl. apply dict_contains_false in Hc.
  split; [apply detach_session_absent, Hc|].
  rewrite (attach_session_new s t Hc). cbn [final]. split.
  - unfold handle_disconnection, detach_session.
    rewrite bind_self, session_never_in_proxy_sessions. cbn.
    rewrite (dict_get_appended _ _ _ Hc). cbn.
    unfold remove_listener. cbn.
    rewrite (list_remove_first_appended _ _ Hl). cbn.
    rewrite (dict_del_appended _ _ _ Hc).
    destruct t; reflexivity.
  - unfold attach_session, dict_contains. cbn.
    rewrite (dict_get_appended _ _ _ Hc). reflexivity.
Qed.

Lemma attach_then_disconnect_restores_witness :
  handle_disconnection Ex.p1 (final (attach_session Ex.p1 Ex.proxied))
  = mkRun (inr tt) Ex.proxied [].
Proof.
  apply (attach_then_disconnect_restores Ex.p1 Ex.proxied).
  - reflexivity.
  - vm_compute. intros H. inversion H as [|? ? ? H']; subst. inversion H'.
Defined.

(** ** Reading through the cache *)

(** ** Eviction order *)

Lemma dict_keys_tail {K V} (d : list (K * V)) :
  dict_keys (tail d) = tail (dict_keys d).
Proof. destruct d; reflexivity. Qed.

(** X4.  On a table with [cache_size = n > 0] whose cache is within its
    size, [update_cache] with one item leaves that item in the cache with
    its new value.  A key already cached keeps its place and nothing is
    evicted (no refresh on update); a new key goes to the end, and when the
    cache was full the oldest entry, and only it, leaves. *)
Theorem update_cache_is_fifo closed t n k v :
  cache_size t = Some n -> (0 < n)%Z -> (Z.of_nat (length (cache t)) <= n)%Z ->
  let c' := cache (final (update_cache closed [(k, v)] t)) in
  dict_get k c' = Some v
  /\ dict_keys c' =
     if dict_contains k (cache t) then dict_keys (cache t)
     else if (Z.of_nat (length (cache t)) <? n)%Z
          then dict_keys (cache t) ++ [k]
          else tail (dict_keys (cache t)) ++ [k].
Proof.
  intros Hs Hn Hlen. cbn zeta. rewrite update_cache_eq. cbn [final cache set_cache].
  unfold cache_after. rewrite Hs. destruct (Z.leb_spec n 0); [lia|].
  cbn [fold_left]. split; [apply cache_insert_keeps_inserted; assumption|].
  rewrite cache_insert_eq. cbn [fst snd]. rewrite dict_set_length.
  destruct (dict_contains k (cache t)) eqn:Hc.
  - destruct (Z.ltb_spec n (Z.of_nat (length (cache t)))); [lia|].
    rewrite dict_set_keys, Hc. reflexivity.
  - destruct (Z.ltb_spec (Z.of_nat (length (cache t))) n);
      destruct (Z.ltb_spec n (Z.of_nat (S (length (cache t))))); try lia;
      rewrite ?dict_keys_tail, dict_set_keys, Hc; [reflexivity|].
    destruct (cache t) as [|e c]; [cbn in *; lia|reflexivity].
Qed.

Lemma update_cache_is_fifo_witness :
  let t := run_ops Ex.all_open
             [OpAdd [("k1", Ex.v1)]; OpAdd [("k2", Ex.v1)]] Ex.cached in
  dict_keys (cache (final (update_cache Ex.all_open [("k3", Ex.v2)] t)))
  = ["k2"; "k3"].
Proof.
  intros t.
  destruct (update_cache_is_fifo Ex.all_open t 2 "k3" Ex.v2 eq_refl
              ltac:(lia) ltac:(vm_compute; discriminate)) as (_ & H).
  exact H.
Defined.

(** ** [update]: straight to the adapter, then the listeners in order *)

Lemma listener_calls_app tr1 tr2 :
  listener_calls (tr1 ++ tr2) = listener_calls tr1 ++ listener_calls tr2.
Proof.
  unfold listener_calls. induction tr1 as [|e tr1 IH]; [reflexivity|].
  cbn. destruct e; cbn; rewrite IH; reflexivity.
Qed.

Lemma listener_calls_notify closed c ls :
  listener_calls (flat_map (notify_events closed c) ls)
  = map (fun l => (l, c)) ls.
Proof.
  induction ls as [|l ls IH]; [reflexivity|].
  cbn [flat_map map]. rewrite listener_calls_app, IH.
  unfold notify_events. destruct l as [k s|n]; [|reflexivity].
  destruct (closed s); [reflexivity|]. destruct c; reflexivity.
Qed.

Lemma notify_events_not_proxy closed c ls :
  Forall (fun e => is_proxy_packet e = false)
    (flat_map (notify_events closed c) ls).
Proof.
  induction ls as [|l ls IH]; [constructor|].
  cbn [flat_map]. apply Forall_app. split; [|exact IH].
  unfold notify_events. destruct l as [k s|n]; [|repeat constructor].
  destruct (closed s); [repeat constructor|].
  destruct c; repeat constructor.
Qed.

Lemma update_cache_trace closed items t :
  trace (update_cache closed items t) =
  if cache_enabled t
  then flat_map (notify_events closed (OnCacheUpdate (cache_after items t)))
         (listeners t)
  else [].
Proof.
  rewrite update_cache_eq. unfold cache_enabled. cbn [trace].
  destruct (cache_size t) as [n|]; [|reflexivity].
  destruct (n <=? 0)%Z; reflexivity.
Qed.

Lemma update_ok closed items t ad :
  adapter t = Some ad -> ad_fails ad (ASetAll items) = false ->
  update closed items t =
  prefix_trace
    (EvAdapter (ASetAll items)
     :: flat_map (notify_events closed (OnUpdate items)) (listeners t)
     ++ trace (update_cache closed items t))
    (mark_changed
       (set_cache (cache_after items t)
          (set_adapter_field
             (Some (mkAdapter (dict_update items (ad_data ad)) (ad_fails ad)))
             t))).
Proof.
  intros Ha Hf. unfold update, adapter_set_all.
  rewrite (bind_run _ _ _ _ _ _ (require_adapter_ok _ _ Ha)), prefix_trace_nil.
  rewrite (bind_run _ _ _ _ _ _ (adapter_call_ok _ _ _ _ Ha Hf)).
  cbn [fst snd].
  rewrite (bind_run _ _ _ _ _ _ (notify_all_eq _ _ _)).
  rewrite (bind_run _ _ _ _ _ _ (update_cache_eq _ _ _)).
  rewrite !prefix_trace_app, (update_cache_eq closed items t).
  cbn [trace app]. rewrite <- app_assoc. reflexivity.
Qed.

(** X5.  [update] with an adapter that accepts the items succeeds whether
    the listeners' sockets are open or closed.  It calls [set_all] once and
    first, then [on_update] on every listener in registration order, then
    (cache enabled) [on_cache_update] on every listener in the same order.
    It never sends a proxy packet and does not take a proxy id, even when a
    proxy chain is attached; the table ends dirty. *)
Theorem update_persists_and_fans_out closed items t ad :
  adapter t = Some ad -> ad_fails ad (ASetAll items) = false ->
  let r := update closed items t in
  outcome r = inr tt
  /\ head (trace r) = Some (EvAdapter (ASetAll items))
  /\ count_set_all (trace r) = 1
  /\ listener_calls (trace r) =
     map (fun l => (l, OnUpdate items)) (listeners t)
     ++ (if cache_enabled t
         then map (fun l => (l, OnCacheUpdate (cache_after items t)))
                (listeners t)
         else [])
  /\ Forall (fun e => is_proxy_packet e = false) (trace r)
  /\ proxy_id (final r) = proxy_id t
  /\ changed (final r) = true
  /\ cache (final r) = cache_after items t.
Proof.
  intros Ha Hf. cbn zeta. rewrite (update_ok closed items t ad Ha Hf).
  rewrite mark_changed_eq, update_cache_trace.
  change (save_task_handle (set_cache _ (set_adapter_field _ t)))
    with (save_task_handle t).
  assert (Hcalls : forall tl, listener_calls tl = [] ->
    listener_calls
      (EvAdapter (ASetAll items)
       :: flat_map (notify_events closed (OnUpdate items)) (listeners t)
       ++ (if cache_enabled t
           then flat_map
                  (notify_events closed (OnCacheUpdate (cache_after items t)))
                  (listeners t)
           else []) ++ tl)
    = map (fun l => (l, OnUpdate items)) (listeners t)
      ++ (if cache_enabled t
          then map (fun l => (l, OnCacheUpdate (cache_after items t)))
                 (listeners t)
          else [])).
  { intros tl Htl.
    change (EvAdapter (ASetAll items) :: ?l) with ([EvAdapter (ASetAll items)] ++ l).
    rewrite !listener_calls_app, listener_calls_notify, Htl, app_nil_r.
    destruct (cache_enabled t); [rewrite listener_calls_notify|]; reflexivity. }
  assert (Hnp : forall tl, Forall (fun e => is_proxy_packet e = false) tl ->
    Forall (fun e => is_proxy_packet e = false)
      (EvAdapter (ASetAll items)
       :: flat_map (notify_events closed (OnUpdate items)) (listeners t)
       ++ (if cache_enabled t
           then flat_map
                  (notify_events closed (OnCacheUpdate (cache_after items t)))
                  (listeners t)
           else []) ++ tl)).
  { intros tl Htl. constructor; [reflexivity|].
    apply Forall_app. split; [apply notify_events_not_proxy|].
    apply Forall_app. split; [|exact Htl].
    destruct (cache_enabled t); [apply notify_events_not_proxy|constructor]. }
  assert (Hcount : forall tl, count_set_all tl = 0 ->
    count_set_all
      (EvAdapter (ASetAll items)
       :: flat_map (notify_events closed (OnUpdate items)) (listeners t)
       ++ (if cache_enabled t
           then flat_map
                  (notify_events closed (OnCacheUpdate (cache_after items t)))
                  (listeners t)
           else []) ++ tl) = 1).
  { intros tl Htl. rewrite count_set_all_cons, !count_set_all_app, Htl.
    rewrite notify_events_no_set_all.
    destruct (cache_enabled t); [rewrite notify_events_no_set_all|];
      reflexivity. }
  destruct (save_task_handle t); unfold prefix_trace;
    cbn [outcome final trace];
    repeat (rewrite <- app_assoc || rewrite <- app_comm_cons);
    (split; [reflexivity|]); (split; [reflexivity|]);
    (split; [apply Hcount; reflexivity|]);
    (split; [apply Hcalls; reflexivity|]);
    (split; [apply Hnp; repeat constructor|]); repeat split.
Qed.

Lemma update_persists_and_fans_out_witness :
  let r := update (fun _ => true) [("k1", Ex.v1)] Ex.proxied in
  outcome r = inr tt
  /\ listener_calls (trace r) =
     [(SessionTableListener "x:svc/data" Ex.owner, OnUpdate [("k1", Ex.v1)]);
      (SessionTableListener "x:svc/data" Ex.owner,
       OnCacheUpdate [("k1", Ex.v1)])]
  /\ proxy_id (final r) = 0.
Proof.
  intros r.
  destruct (update_persists_and_fans_out (fun _ => true) [("k1", Ex.v1)]
              Ex.proxied (mkAdapter [] Ex.never_fails) eq_refl eq_refl)
    as (H1 & _ & _ & H2 & _ & H3 & _).
  split; [exact H1|]. split; [exact H2|exact H3].
Defined.

(** ** [remove] *)

Lemma dict_del_absent {K V} `{EqDecision K} (k : K) (d : list (K * V)) :
  dict_get k d = None -> dict_del k d = d.
Proof.
  induction d as [|[k' v'] d IH]; cbn; [reflexivity|].
  destruct (decide (k = k')); [discriminate|]. intros Hd. rewrite IH; auto.
Qed.

Lemma dict_get_not_in_keys {K V} `{EqDecision K} (k : K) (d : list (K * V)) :
  k ∉ dict_keys d -> dict_get k d = None.
Proof.
  intros Hk. apply dict_contains_false.
  destruct (dict_contains k d) eqn:Hc; [|reflexivity].
  apply dict_contains_keys in Hc. contradiction.
Qed.

Lemma dict_get_del_same {K V} `{EqDecision K} (k : K) (d : list (K * V)) :
  dict_wf d -> dict_get k (dict_del k d) = None.
Proof.
  unfold dict_wf. induction d as [|[k' v'] d IH]; cbn; [reflexivity|].
  intros Hwf. apply NoDup_cons in Hwf as [Hk' Hwf].
  destruct (decide (k = k')) as [->|Hne].
  - apply dict_get_not_in_keys, Hk'.
  - cbn. destruct (decide (k = k')); [congruence|]. apply IH, Hwf.
Qed.

Lemma dict_get_del_other {K V} `{EqDecision K} (k k' : K) (d : list (K * V)) :
  k' <> k -> dict_get k' (dict_del k d) = dict_get k' d.
Proof.
  intros Hne. induction d as [|[k0 v0] d IH]; cbn; [reflexivity|].
  destruct (decide (k = k0)) as [->|Hk]; cbn.
  - destruct (decide (k' = k0)); [congruence|reflexivity].
  - destruct (decide (k' = k0)); [reflexivity|exact IH].
Qed.

Lemma dict_del_keys_incl {K V} `{EqDecision K} (k x : K) (d : list (K * V)) :
  x ∈ dict_keys (dict_del k d) -> x ∈ dict_keys d.
Proof.
  unfold dict_keys. induction d as [|[k' v'] d IH]; cbn; [auto|].
  destruct (decide (k = k')); cbn.
  - intros Hx. right. exact Hx.
  - intros Hx. apply elem_of_cons in Hx as [->|Hx]; [left|right; auto].
Qed.

Lemma dict_del_wf {K V} `{EqDecision K} (k : K) (d : list (K * V)) :
  dict_wf d -> dict_wf (dict_del k d).
Proof.
  unfold dict_wf. induction d as [|[k' v'] d IH]; cbn; [auto|].
  intros Hwf. apply NoDup_cons in Hwf as [Hk' Hwf].
  destruct (decide (k = k')); [exact Hwf|]. cbn.
  apply NoDup_cons. split; [|apply IH, Hwf].
  intros Hin. apply Hk'. eapply dict_del_keys_incl, Hin.
Qed.

Lemma cache_insert_wf n c kv : dict_wf c -> dict_wf (cache_insert n c kv).
Proof.
  intros Hwf. rewrite cache_insert_eq. cbn zeta.
  pose proof (dict_set_wf (fst kv) (snd kv) c Hwf) as Hs.
  destruct (n <? _)%Z; [|exact Hs].
  destruct (dict_set kv.1 kv.2 c) as [|e c']; [exact Hs|].
  unfold dict_wf in *. cbn in *. apply NoDup_cons in Hs as [_ Hs]. exact Hs.
Qed.

Lemma cache_removals_eq (keys : list string) (c : list (string * bytes)) :
  fold_left (fun c k => if dict_contains k c then dict_del k c else c) keys c
  = fold_left (fun c k => dict_del k c) keys c.
Proof.
  revert c. induction keys as [|k keys IH]; intros c; [reflexivity|].
  cbn [fold_left]. rewrite <- IH. f_equal.
  destruct (dict_contains k c) eqn:Hc; [reflexivity|].
  symmetry. apply dict_del_absent, dict_contains_false, Hc.
Qed.

Lemma removals_wf (keys : list string) (c : list (string * bytes)) :
  dict_wf c -> dict_wf (fold_left (fun c k => dict_del k c) keys c).
Proof.
  revert c. induction keys as [|k keys IH]; intros c Hc; [exact Hc|].
  apply IH, dict_del_wf, Hc.
Qed.

Lemma exec_cache_wf closed op :
  invariant (fun t => dict_wf (cache t)) (exec closed op).
Proof.
  assert (Huc : forall items,
            invariant (fun t => dict_wf (cache t)) (update_cache closed items)).
  { intros items t Ht. rewrite update_cache_eq. cbn. unfold cache_after.
    destruct (cache_size t) as [n|]; [|exact Ht].
    destruct (n <=? 0)%Z; [exact Ht|].
    revert Ht. generalize (cache t). induction items as [|kv items IH];
      intros c Hc; [exact Hc|].
    apply IH, cache_insert_wf, Hc. }
  destruct op; inv_go; try apply Huc.
  - cbn. rewrite cache_removals_eq. apply removals_wf. assumption.
  - cbn. apply NoDup_nil_2.
Qed.

Lemma reachable_cache_wf t : reachable t -> dict_wf (cache t).
Proof.
  induction 1 as [id|closed op t _ IH]; [apply NoDup_nil_2|].
  apply exec_cache_wf, IH.
Qed.

Lemma removals_get (keys : list string) (c : list (string * bytes)) k :
  dict_wf c ->
  dict_get k (fold_left (fun c k => dict_del k c) keys c)
  = if decide (k ∈ keys) then None else dict_get k c.
Proof.
  revert c. induction keys as [|k0 keys IH]; intros c Hwf.
  - destruct (decide (k ∈ [])) as [Hin|_]; [inversion Hin|reflexivity].
  - cbn [fold_left]. rewrite IH by apply dict_del_wf, Hwf.
    destruct (decide (k ∈ keys)) as [Hin|Hnin].
    + destruct (decide (k ∈ k0 :: keys)) as [_|Hn]; [reflexivity|].
      exfalso. apply Hn. right. exact Hin.
    + destruct (decide (k = k0)) as [->|Hne].
      * destruct (decide (k0 ∈ k0 :: keys)) as [_|Hn];
          [apply dict_get_del_same, Hwf|exfalso; apply Hn; left].
      * destruct (decide (k ∈ k0 :: keys)) as [Hin|_].
        { apply elem_of_cons in Hin as [?|?]; contradiction. }
        apply dict_get_del_other, Hne.
Qed.

(** X6.  [remove] on a reachable table whose adapter answers: the adapter
    is asked for the items first and told to remove them second; afterwards
    none of the keys is in the cache and every other cache entry is as it
    was; every listener gets [on_remove], in registration order, with the
    items the adapter returned before the removal (keys it did not hold
    are not reported); the table ends dirty. *)
Theorem remove_drops_keys closed keys t ad :
  reachable t -> adapter t = Some ad ->
  ad_fails ad (AGetAll keys) = false -> ad_fails ad (ARemoveAll keys) = false ->
  let r := remove closed keys t in
  outcome r = inr tt
  /\ take 2 (trace r) = [EvAdapter (AGetAll keys); EvAdapter (ARemoveAll keys)]
  /\ (forall k,
        dict_get k (cache (final r))
        = if decide (k ∈ keys) then None else dict_get k (cache t))
  /\ listener_calls (trace r)
     = map (fun l => (l, OnRemove (select_keys keys (ad_data ad))))
         (listeners t)
  /\ changed (final r) = true.
Proof.
  intros Hr Ha Hg Hd. cbn zeta.
  pose proof (reachable_cache_wf t Hr) as Hwf.
  unfold remove, adapter_get_all, adapter_remove_all.
  rewrite (bind_run _ _ _ _ _ _ (require_adapter_ok _ _ Ha)), prefix_trace_nil.
  rewrite (bind_run _ _ _ _ _ _ (adapter_call_ok _ _ _ _ Ha Hg)).
  cbn [fst snd].
  erewrite (bind_run (adapter_call (ARemoveAll keys) _));
    [|apply (adapter_call_ok _ _ _ (mkAdapter (ad_data ad) (ad_fails ad)));
      [reflexivity|exact Hd]].
  cbn [fst snd ad_data ad_fails].
  erewrite (bind_run (modify _)); [|reflexivity].
  rewrite (bind_run _ _ _ _ _ _ (notify_all_eq _ _ _)).
  rewrite mark_changed_eq. rewrite !prefix_trace_app.
  cbn [save_task_handle set_cache set_adapter_field listeners cache].
  assert (Hcalls : forall tl, listener_calls tl = [] ->
    listener_calls
      ((([EvAdapter (AGetAll keys)] ++ [EvAdapter (ARemoveAll keys)]) ++ [])
       ++ flat_map
            (notify_events closed (OnRemove (select_keys keys (ad_data ad))))
            (listeners t) ++ tl)
    = map (fun l => (l, OnRemove (select_keys keys (ad_data ad))))
        (listeners t)).
  { intros tl Htl. rewrite !listener_calls_app, listener_calls_notify, Htl.
    cbn. rewrite app_nil_r. reflexivity. }
  destruct (save_task_handle t); unfold prefix_trace;
    cbn [outcome final trace cache changed set_changed set_save_task_handle
         set_cache];
    (split; [reflexivity|]); (split; [reflexivity|]);
    (split; [intros k; rewrite cache_removals_eq; apply removals_get, Hwf|]);
    (split; [|reflexivity]).
  - rewrite <- (Hcalls [] eq_refl). rewrite !app_nil_r. reflexivity.
  - apply (Hcalls [EvCreateTask] eq_refl).
Qed.

Lemma remove_drops_keys_witness :
  let t := run_ops Ex.all_open [OpAdd [("k1", Ex.v1)]; OpAdd [("k2", Ex.v2)]]
             Ex.cached in
  let r := remove Ex.all_open ["k1"; "zz"] t in
  outcome r = inr tt
  /\ dict_get "k1" (cache (final r)) = None
  /\ listener_calls (trace r)
     = [(SessionTableListener "x:svc/data" Ex.owner, OnRemove [("k1", Ex.v1)])].
Proof.
  intros t r.
  destruct (remove_drops_keys Ex.all_open ["k1"; "zz"] t
              (mkAdapter [("k1", Ex.v1); ("k2", Ex.v2)] Ex.never_fails)
              ltac:(repeat apply run_ops_reachable; constructor)
              eq_refl eq_refl eq_refl) as (H1 & _ & H2 & H3 & _).
  split; [exact H1|]. split; [exact (H2 "k1")|exact H3].
Defined.

(** ** Proxy ids *)

Lemma exec_keeps_proxy_id closed op p :
  is_add op = false ->
  invariant (fun t => proxy_id t = p) (exec closed op).
Proof. intros Hop. destruct op; try discriminate; inv_go. Qed.

Lemma persist_added_keeps_proxy_id closed items p :
  invariant (fun t => proxy_id t = p) (persist_added closed items).
Proof. inv_go. Qed.

Lemma add_proxy_id closed items t :
  proxy_id (final (add closed items t)) =
  match adapter t, proxy_sessions t with
  | Some _, _ :: _ => S (proxy_id t)
  | _, _ => proxy_id t
  end.
Proof.
  destruct (adapter t) as [ad|] eqn:Ha.
  - destruct (proxy_sessions t) as [|[k0 s0] tl] eqn:Hp.
    + rewrite (add_direct closed items t ad Ha Hp).
      exact (persist_added_keeps_proxy_id closed items (proxy_id t) t eq_refl).
    + rewrite (add_proxied closed items t ad k0 s0 tl Ha Hp).
      destruct (closed s0); reflexivity.
  - unfold add. rewrite (bind_run_err _ _ _ _ _ _ (require_adapter_none t Ha)).
    reflexivity.
Qed.

(** X7.  The proxy id never goes down.  Only [add] moves it: one step up
    when the table has an adapter and a non-empty proxy chain (also when the
    packet cannot be sent because the first proxy's socket is closed), no
    step otherwise.  Over any run it grows by at most the number of [add]
    calls. *)
Theorem proxy_id_grows_by_adds closed ops t items :
  proxy_id t <= proxy_id (run_ops closed ops t)
  /\ proxy_id (run_ops closed ops t)
     <= proxy_id t + length (filter (fun op => is_add op = true) ops)
  /\ proxy_id (final (add closed items t)) =
     match adapter t, proxy_sessions t with
     | Some _, _ :: _ => S (proxy_id t)
     | _, _ => proxy_id t
     end.
Proof.
  split; [|split; [|apply add_proxy_id]];
    revert t; induction ops as [|op ops IH]; intros t; cbn [run_ops];
    try (cbn; lia).
  - etransitivity; [|apply IH].
    destruct (is_add op) eqn:Hop.
    + destruct op; try discriminate. cbn [exec]. rewrite add_proxy_id.
      destruct (adapter t); [destruct (proxy_sessions t)|]; lia.
    + rewrite (exec_keeps_proxy_id closed op (proxy_id t) Hop t eq_refl). lia.
  - etransitivity; [apply IH|]. rewrite filter_cons.
    destruct (is_add op) eqn:Hop.
    + destruct op; try discriminate. cbn [exec]. rewrite add_proxy_id.
      destruct (decide (true = true)); [|congruence]. cbn [length].
      destruct (adapter t); [destruct (proxy_sessions t)|]; lia.
    + rewrite (exec_keeps_proxy_id closed op (proxy_id t) Hop t eq_refl).
      destruct (decide (false = true)); [discriminate|]. lia.
Qed.

(** ** Invariants over the state and the calls made so far *)

Lemma hinv_ret {A} J (x : A) : history_invariant J (ret x).
Proof. intros t tr H. cbn. rewrite app_nil_r. exact H. Qed.

Lemma hinv_raise {A} J e : history_invariant J (@raise A e).
Proof. intros t tr H. cbn. rewrite app_nil_r. exact H. Qed.

Lemma hinv_self J : history_invariant J self_.
Proof. intros t tr H. cbn. rewrite app_nil_r. exact H. Qed.

Lemma hinv_emit J e :
  (forall t tr, J t tr -> J t (tr ++ [e])) -> history_invariant J (emit e).
Proof. intros He t tr H. apply He, H. Qed.

Lemma hinv_modify J f :
  (forall t tr, J t tr -> J (f t) tr) -> history_invariant J (modify f).
Proof. intros Hf t tr H. cbn. rewrite app_nil_r. apply Hf, H. Qed.

Lemma hinv_bind {A B} J (m : M A) (f : A -> M B) :
  history_invariant J m -> (forall x, history_invariant J (f x)) ->
  history_invariant J (bind m f).
Proof.
  intros Hm Hf t tr H. unfold bind.
  destruct (outcome (m t)) as [e|x] eqn:Ho; cbn.
  - apply Hm, H.
  - rewrite app_assoc. apply Hf, Hm, H.
Qed.

Lemma hinv_attempt {A} J (m : M A) :
  history_invariant J m -> history_invariant J (attempt m).
Proof. intros Hm t tr H. apply Hm, H. Qed.

Lemma hinv_events (J : CachedTable -> list Event -> Prop) (l : list Event)
    (N : Event -> Prop) :
  (forall t tr e, N e -> J t tr -> J t (tr ++ [e])) ->
  Forall N l -> forall t tr, J t tr -> J t (tr ++ l).
Proof.
  intros He Hl. induction Hl as [|e l Hx Hl IH]; intros t tr H.
  - rewrite app_nil_r. exact H.
  - replace (tr ++ e :: l) with ((tr ++ [e]) ++ l)
      by (rewrite <- app_assoc; reflexivity).
    apply IH, He; assumption.
Qed.

Lemma notify_events_not_create closed c ls :
  Forall (fun e => is_create_task e = false)
    (flat_map (notify_events closed c) ls).
Proof.
  induction ls as [|l ls IH]; [constructor|].
  cbn [flat_map]. apply Forall_app. split; [|exact IH].
  unfold notify_events. destruct l as [k s|n]; [|repeat constructor].
  destruct (closed s); [repeat constructor|].
  destruct c; repeat constructor.
Qed.

(** ** The save task is created once *)

Lemma count_create_task_app tr1 tr2 :
  count_create_task (tr1 ++ tr2) = count_create_task tr1 + count_create_task tr2.
Proof. unfold count_create_task. rewrite filter_app, length_app. reflexivity. Qed.

Lemma task_history_event b t tr e :
  is_create_task e = false -> task_history b t tr -> task_history b t (tr ++ [e]).
Proof.
  intros He [H1 H2].
  assert (Hc : count_create_task (tr ++ [e]) = count_create_task tr).
  { rewrite count_create_task_app. unfold count_create_task at 2.
    rewrite filter_cons. destruct (decide (is_create_task e = true));
      [congruence|]. cbn. lia. }
  unfold task_history. rewrite Hc. split; assumption.
Qed.

Lemma task_history_state b t t' tr :
  save_task_handle t' = save_task_handle t ->
  task_history b t tr -> task_history b t' tr.
Proof. intros Hs [H1 H2]. split; [rewrite Hs; exact H1|exact H2]. Qed.

Lemma task_history_started b t h tr :
  task_history b t tr -> save_task_handle t <> None ->
  task_history b (set_save_task_handle (Some h) t) tr.
Proof. intros [H1 H2] _. split; [discriminate|exact H2]. Qed.

Lemma task_history_mark_changed b :
  history_invariant (task_history b) mark_changed.
Proof.
  intros t tr [H1 H2]. rewrite mark_changed_eq.
  destruct (save_task_handle t) as [h|] eqn:Hs; cbn.
  - rewrite app_nil_r. split; [intros Hn; cbn in Hn; congruence|exact H2].
  - destruct (H1 eq_refl) as [H0 ->]. split; [discriminate|].
    rewrite count_create_task_app, H0.
    change (count_create_task [EvCreateTask]) with 1. lia.
Qed.

Lemma task_history_notify_all b closed c :
  history_invariant (task_history b) (notify_all closed c).
Proof.
  intros t tr H. rewrite notify_all_eq. cbn.
  eapply hinv_events; [|apply notify_events_not_create|exact H].
  intros t0 tr0 e He. apply task_history_event, He.
Qed.

Lemma task_history_update_cache b closed items :
  history_invariant (task_history b) (update_cache closed items).
Proof.
  intros t tr H. rewrite update_cache_eq. cbn.
  apply (task_history_state b t); [reflexivity|].
  destruct (cache_size t) as [n|]; [|rewrite app_nil_r; exact H].
  destruct (n <=? 0)%Z; [rewrite app_nil_r; exact H|].
  eapply hinv_events; [|apply notify_events_not_create|exact H].
  intros t0 tr0 e He. apply task_history_event, He.
Qed.

Lemma task_history_adapter_call {A} b c
    (f : TableAdapter -> A * list (string * bytes)) :
  history_invariant (task_history b) (adapter_call c f).
Proof.
  intros t tr H. destruct (adapter t) as [ad|] eqn:Had.
  - destruct (ad_fails ad c) eqn:Hf.
    + rewrite (adapter_call_fail _ _ _ _ Had Hf). cbn.
      apply task_history_event; [reflexivity|exact H].
    + rewrite (adapter_call_ok _ _ _ _ Had Hf). cbn.
      apply (task_history_state b t); [reflexivity|].
      apply task_history_event; [reflexivity|exact H].
  - rewrite (adapter_call_none _ _ _ Had). cbn. rewrite app_nil_r. exact H.
Qed.

Lemma task_history_send b closed s p :
  history_invariant (task_history b) (send closed s p).
Proof.
  unfold send. destruct (closed s); [apply hinv_raise|].
  apply hinv_emit. intros t tr. apply task_history_event. reflexivity.
Qed.

Ltac hinv_step b :=
  lazymatch goal with
  | |- history_invariant _ (ret _) => apply hinv_ret
  | |- history_invariant _ (raise _) => apply hinv_raise
  | |- history_invariant _ self_ => apply hinv_self
  | |- history_invariant _ (send _ _ _) => apply task_history_send
  | |- history_invariant _ (notify_all _ _) => apply task_history_notify_all
  | |- history_invariant _ (update_cache _ _) =>
      apply task_history_update_cache
  | |- history_invariant _ (adapter_call _ _) =>
      apply task_history_adapter_call
  | |- history_invariant _ mark_changed => apply task_history_mark_changed
  | |- history_invariant _ (emit _) =>
      apply hinv_emit; intros ? ?; apply task_history_event; reflexivity
  | |- history_invariant _ (modify _) =>
      apply hinv_modify; intros ? ?; apply task_history_state; reflexivity
  | |- history_invariant _ (bind _ _) => apply hinv_bind; [|intros ?]
  | |- history_invariant _ (match _ with _ => _ end) => case_match
  | |- history_invariant _ _ =>
      progress unfold exec, void, set_config, set_adapter, store, add_listener,
        remove_listener, attach_session, detach_session, handle_disconnection,
        attach_proxy_session, get, get_all, send_proxy_event,
        persist_added, add, proxy, update, remove, clear, size, set_cache_size,
        require_adapter, adapter_get, adapter_get_all,
        adapter_set_all, adapter_remove_all, adapter_clear, adapter_store
  end.

Lemma task_history_save_task_step b :
  history_invariant (task_history b) save_task_step.
Proof.
  intros t tr H. unfold save_task_step. rewrite bind_self.
  destruct (save_task_handle t) as [[| | |e]|] eqn:Hs;
    try (cbn; rewrite app_nil_r; first [exact H | split; [discriminate|apply H]]).
  destruct (changed t);
    [|cbn; rewrite app_nil_r; split; [discriminate|apply H]].
  assert (Hstore : history_invariant (task_history b) store)
    by (repeat hinv_step b).
  apply hinv_bind; [apply hinv_attempt, Hstore| |exact H].
  intros [e|[]]; apply hinv_modify; intros t0 tr0 [H1 H2];
    (split; [discriminate|exact H2]).
Qed.

Lemma exec_task_history b closed op :
  history_invariant (task_history b) (exec closed op).
Proof.
  destruct op; try apply task_history_save_task_step; repeat hinv_step b.
Qed.

Lemma run_task_history b closed ops t tr :
  task_history b t tr ->
  task_history b (run_ops closed ops t) (tr ++ run_events closed ops t).
Proof.
  revert t tr. induction ops as [|op ops IH]; intros t tr H; cbn.
  - rewrite app_nil_r. exact H.
  - rewrite app_assoc. apply IH, exec_task_history, H.
Qed.

(** X8.  A table creates its save task at most once in its life: a run of
    any calls, from any state, creates one task at most when the handle is
    still [None] and none when a handle is stored; and a stored handle is
    never cleared, whatever is called and whether or not the task has
    ended. *)
Theorem save_task_created_once closed ops t :
  count_create_task (run_events closed ops t)
  <= match save_task_handle t with Some _ => 0 | None => 1 end
  /\ match save_task_handle t with
     | Some _ => save_task_handle (run_ops closed ops t) <> None
     | None => True
     end.
Proof.
  set (b := match save_task_handle t with Some _ => 0 | None => 1 end).
  assert (H0 : task_history b t []).
  { subst b. unfold task_history. change (count_create_task []) with 0.
    destruct (save_task_handle t) eqn:Hs; split;
      first [discriminate | lia | intros _; split; reflexivity]. }
  destruct (run_task_history b closed ops t [] H0) as [H1 H2].
  split; [exact H2|].
  subst b. destruct (save_task_handle t); [|exact I].
  intros Hn. destruct (H1 Hn) as [_ Hb]. discriminate.
Qed.

(** ** [store] *)

Lemma store_eq t :
  store t =
  match adapter t with
  | None => mkRun (inl TableNotSet) t []
  | Some ad =>
      if changed t then
        if ad_fails ad AStore
        then mkRun (inl StorageError) (set_changed false t) [EvAdapter AStore]
        else mkRun (inr tt)
               (set_adapter_field (Some (mkAdapter (ad_data ad) (ad_fails ad)))
                  (set_changed false t))
               [EvAdapter AStore]
      else mkRun (inr tt) t []
  end.
Proof.
  unfold store, adapter_store. destruct (adapter t) as [ad|] eqn:Ha.
  - rewrite (bind_run _ _ _ _ _ _ (require_adapter_ok _ _ Ha)), prefix_trace_nil.
    rewrite bind_self. destruct (changed t) eqn:Hc; [|reflexivity].
    cbn [negb]. erewrite bind_run; [|reflexivity]. rewrite prefix_trace_nil.
    destruct (ad_fails ad AStore) eqn:Hf.
    + apply (adapter_call_fail AStore _ (set_changed false t) ad Ha Hf).
    + exact (adapter_call_ok AStore (fun ad => (tt, ad_data ad))
               (set_changed false t) ad Ha Hf).
  - apply bind_run_err, require_adapter_none, Ha.
Qed.

(** X9.  [store] flushes at most once per dirtying: it calls
    [adapter.store] exactly when the table has an adapter and is dirty.
    On a table with an adapter the dirty flag is down after [store],
    whether the flush succeeded or the adapter failed, so a second [store]
    right after the first returns normally, calls nothing and changes
    nothing: a failed flush is not retried until the table is dirtied
    again.  [store] twice in one coroutine is [store] once. *)
Theorem store_flushes_once t :
  trace (store t) =
    match adapter t with
    | Some _ => if changed t then [EvAdapter AStore] else []
    | None => []
    end
  /\ bind store (fun _ => store) t = store t
  /\ match adapter t with
     | None => store t = mkRun (inl TableNotSet) t []
     | Some ad =>
         outcome (store t)
         = (if changed t && ad_fails ad AStore then inl StorageError
            else inr tt)
         /\ changed (final (store t)) = false
         /\ store (final (store t)) = mkRun (inr tt) (final (store t)) []
     end.
Proof.
  split; [|split].
  - rewrite store_eq. destruct (adapter t) as [ad|]; [|reflexivity].
    destruct (changed t); [|reflexivity].
    destruct (ad_fails ad AStore); reflexivity.
  - rewrite (store_eq t). destruct (adapter t) as [ad|] eqn:Ha.
    + destruct (changed t) eqn:Hc.
      * destruct (ad_fails ad AStore) eqn:Hf.
        { apply bind_run_err. rewrite store_eq, Ha, Hc, Hf. reflexivity. }
        { erewrite bind_run; [|rewrite store_eq, Ha, Hc, Hf; reflexivity].
          rewrite store_eq. reflexivity. }
      * erewrite bind_run; [|rewrite store_eq, Ha, Hc; reflexivity].
        rewrite prefix_trace_nil, store_eq, Ha, Hc. reflexivity.
    + apply bind_run_err. rewrite store_eq, Ha. reflexivity.
  - rewrite (store_eq t). destruct (adapter t) as [ad|] eqn:Ha; [|reflexivity].
    destruct (changed t) eqn:Hc; cbn [andb].
    + destruct (ad_fails ad AStore) eqn:Hf; cbn [outcome final];
        (split; [reflexivity|]); (split; [reflexivity|]);
        rewrite store_eq; unfold set_adapter_field, set_changed;
        cbn [adapter changed]; rewrite ?Ha; reflexivity.
    + cbn [outcome final]. split; [reflexivity|]. split; [exact Hc|].
      rewrite store_eq, Ha, Hc. reflexivity.
Qed.

(** A dirty table whose adapter cannot flush: the first [store] fails and
    clears the flag, the second neither calls the adapter nor fails. *)
Example failed_flush_is_not_retried :
  let r := store Ex.unflushable in
  changed Ex.unflushable = true
  /\ outcome r = inl StorageError
  /\ trace r = [EvAdapter AStore]
  /\ outcome (store (final r)) = inr tt
  /\ trace (store (final r)) = [].
Proof. vm_compute. repeat split. Qed.

(** ** [get_all] *)

Lemma list_remove_first_middle {K} `{EqDecision K} (x : K) l r :
  x ∉ l -> list_remove_first x (l ++ x :: r) = Some (l ++ r).
Proof.
  induction l as [|y l IH]; cbn; intros Hx.
  - destruct (decide (x = x)); [reflexivity|congruence].
  - destruct (decide (x = y)) as [->|Hne]; [exfalso; apply Hx; left|].
    rewrite IH; [reflexivity|]. intros Hin. apply Hx. right. exact Hin.
Qed.

Lemma take_cached_from c ks items0 missed :
  Forall (fun k => dict_contains k c = false) missed ->
  fold_left
    (fun '(items, rest) k =>
       match dict_get k c with
       | Some v =>
           (dict_set k v items,
            match list_remove_first k rest with Some r => r | None => rest end)
       | None => (items, rest)
       end)
    ks (items0, missed ++ ks)
  = (fold_left
       (fun acc k =>
          match dict_get k c with Some v => dict_set k v acc | None => acc end)
       ks items0,
     missed ++ cache_misses c ks).
Proof.
  revert items0 missed. induction ks as [|k ks IH]; intros items0 missed Hm.
  - reflexivity.
  - cbn [fold_left]. unfold cache_misses. rewrite filter_cons.
    destruct (decide (dict_contains k c = false)) as [Hc|Hc].
    + pose proof (proj1 (dict_contains_false k c) Hc) as Hk. rewrite Hk.
      replace (missed ++ k :: ks) with ((missed ++ [k]) ++ ks)
        by (rewrite <- app_assoc; reflexivity).
      rewrite IH.
      * rewrite <- app_assoc. reflexivity.
      * apply Forall_app. split; [exact Hm|]. constructor; [exact Hc|constructor].
    + destruct (dict_get k c) as [v|] eqn:Hk;
        [|exfalso; apply Hc, dict_contains_false, Hk].
      rewrite list_remove_first_middle.
      * apply IH, Hm.
      * intros Hin. rewrite Forall_forall in Hm. apply Hc, Hm, Hin.
Qed.

Lemma take_cached_eq c keys :
  take_cached c keys = (select_keys keys c, cache_misses c keys).
Proof. apply (take_cached_from c keys [] []). constructor. Qed.

Lemma adapter_calls_app tr1 tr2 :
  adapter_calls (tr1 ++ tr2) = adapter_calls tr1 ++ adapter_calls tr2.
Proof.
  unfold adapter_calls. induction tr1 as [|e tr1 IH]; [reflexivity|].
  cbn. destruct e; cbn; rewrite IH; reflexivity.
Qed.

Lemma adapter_calls_notify closed c ls :
  adapter_calls (flat_map (notify_events closed c) ls) = [].
Proof.
  induction ls as [|l ls IH]; [reflexivity|].
  cbn [flat_map]. rewrite adapter_calls_app, IH.
  unfold notify_events. destruct l as [k s|n]; [|reflexivity].
  destruct (closed s); [reflexivity|]. destruct c; reflexivity.
Qed.

(** X3.  [get] on a table with an adapter.  A cached key is answered from
    the cache: no adapter call, nothing changed.  A key that is not cached
    makes exactly one adapter call, [get(key)], in every case (found, not
    found, failing adapter), never a [set_all], and leaves the dirty flag
    as it was.  A failing adapter gives [StorageError] and an unchanged
    table.  Otherwise the result is what the adapter holds; when it holds
    nothing under the key the cache is left alone; when it holds a value
    and the cache is enabled and within its size, a repeated [get] returns
    that value from the cache without any adapter call. *)
Theorem get_reads_through_cache closed t ad k :
  adapter t = Some ad ->
  let r := get closed k t in
  (forall v, dict_get k (cache t) = Some v -> r = mkRun (inr (Some v)) t [])
  /\ (dict_get k (cache t) = None ->
      adapter_calls (trace r) = [AGet k]
      /\ count_set_all (trace r) = 0
      /\ changed (final r) = changed t
      /\ (ad_fails ad (AGet k) = true ->
          r = mkRun (inl StorageError) t [EvAdapter (AGet k)])
      /\ (ad_fails ad (AGet k) = false ->
          outcome r = inr (dict_get k (ad_data ad))
          /\ (dict_get k (ad_data ad) = None ->
              cache (final r) = cache t /\ trace r = [EvAdapter (AGet k)])
          /\ (forall n v,
                cache_size t = Some n -> (0 < n)%Z ->
                (Z.of_nat (length (cache t)) <= n)%Z ->
                dict_get k (ad_data ad) = Some v ->
                get closed k (final r)
                = mkRun (inr (Some v)) (final r) []))).
Proof.
  intros Ha. cbn zeta. unfold get, adapter_get.
  rewrite (bind_run _ _ _ _ _ _ (require_adapter_ok _ _ Ha)), prefix_trace_nil.
  rewrite bind_self. split.
  { intros v Hhit. rewrite Hhit. reflexivity. }
  intros Hmiss. rewrite Hmiss.
  destruct (ad_fails ad (AGet k)) eqn:Hf.
  - rewrite (bind_run_err _ _ _ _ _ _ (adapter_call_fail _ _ _ _ Ha Hf)).
    cbn [trace final]. repeat split; try reflexivity; discriminate.
  - rewrite (bind_run _ _ _ _ _ _ (adapter_call_ok _ _ _ _ Ha Hf)).
    cbn [fst snd]. destruct (dict_get k (ad_data ad)) as [v|] eqn:Hov.
    + rewrite (bind_run _ _ _ _ _ _ (update_cache_eq _ _ _)).
      pose proof (update_cache_trace closed [(k, v)]
                    (set_adapter_field
                       (Some (mkAdapter (ad_data ad) (ad_fails ad))) t)) as Htr.
      rewrite update_cache_eq in Htr. cbn [trace] in Htr.
      unfold prefix_trace. cbn [outcome final trace ret]. rewrite Htr.
      rewrite app_nil_r.
      assert (Hcalls : forall P : list Event -> Prop,
                P [] ->
                (forall c, P (flat_map (notify_events closed c) (listeners t))) ->
                P (if cache_enabled
                        (set_adapter_field
                           (Some (mkAdapter (ad_data ad) (ad_fails ad))) t)
                   then flat_map
                          (notify_events closed
                             (OnCacheUpdate
                                (cache_after [(k, v)]
                                   (set_adapter_field
                                      (Some (mkAdapter (ad_data ad)
                                               (ad_fails ad))) t))))
                          (listeners
                             (set_adapter_field
                                (Some (mkAdapter (ad_data ad) (ad_fails ad)))
                                t))
                   else [])).
      { intros P H0 H1. destruct (cache_enabled _); [apply H1|exact H0]. }
      split; [|split; [|split; [reflexivity|split; [discriminate|]]]].
      * rewrite adapter_calls_app.
        apply (Hcalls (fun tl => adapter_calls [EvAdapter (AGet k)]
                                 ++ adapter_calls tl = [AGet k]));
          [reflexivity|].
        intros c. rewrite adapter_calls_notify. reflexivity.
      * rewrite count_set_all_app.
        change (count_set_all [EvAdapter (AGet k)]) with 0. cbn [plus].
        apply (Hcalls (fun tl => count_set_all tl = 0)); [reflexivity|].
        intros c. apply notify_events_no_set_all.
      * intros _. split; [reflexivity|]. split; [discriminate|].
        intros n v' Hs Hn Hlen [= <-].
        assert (Hhit : dict_get k (cache_after [(k, v)]
                         (set_adapter_field
                            (Some (mkAdapter (ad_data ad) (ad_fails ad))) t))
                       = Some v).
        { unfold cache_after. cbn. rewrite Hs.
          destruct (Z.leb_spec n 0); [lia|].
          apply cache_insert_keeps_inserted; assumption. }
        erewrite bind_run;
          [|apply (require_adapter_ok _ (mkAdapter (ad_data ad) (ad_fails ad)));
            reflexivity].
        rewrite prefix_trace_nil, bind_self. cbn [cache set_cache].
        rewrite Hhit. reflexivity.
    + unfold prefix_trace. cbn.
      split; [reflexivity|]. split; [reflexivity|]. split; [reflexivity|].
      split; [discriminate|]. intros _. split; [reflexivity|].
      split; [auto|]. intros n v _ _ _ Hv. discriminate Hv.
Qed.

Lemma get_reads_through_cache_witness :
  let t := run_ops Ex.all_open [OpSetAdapter (mkAdapter [("k1", Ex.v1)] Ex.never_fails)]
             Ex.cached in
  let r := get Ex.all_open "k1" t in
  adapter_calls (trace r) = [AGet "k1"]
  /\ outcome r = inr (Some Ex.v1)
  /\ get Ex.all_open "k1" (final r) = mkRun (inr (Some Ex.v1)) (final r) [].
Proof.
  intros t r.
  destruct (get_reads_through_cache Ex.all_open t
              (mkAdapter [("k1", Ex.v1)] Ex.never_fails) "k1" eq_refl)
    as (_ & Hmiss).
  destruct (Hmiss eq_refl) as (Hcalls & _ & _ & _ & Hok).
  destruct (Hok eq_refl) as (Hout & _ & Hagain).
  split; [exact Hcalls|]. split; [exact Hout|].
  apply (Hagain 2%Z Ex.v1); [reflexivity|lia|vm_compute; discriminate|reflexivity].
Defined.

(** X10.  [get_all] answers the cached keys from the cache and asks the
    adapter, in one [get_all] call, for exactly the keys that are not
    cached, in request order (duplicates included); when every key is
    cached the adapter is not called and the table is left as it is.  The
    result is the cached hits overlaid with what the adapter returned; an
    adapter failure comes back as [StorageError]. *)
Theorem get_all_asks_only_for_misses closed keys t ad :
  adapter t = Some ad ->
  let missing := cache_misses (cache t) keys in
  let hits := select_keys keys (cache t) in
  let r := get_all closed keys t in
  adapter_calls (trace r)
  = match missing with [] => [] | _ :: _ => [AGetAll missing] end
  /\ outcome r
     = match missing with
       | [] => inr hits
       | _ :: _ =>
           if ad_fails ad (AGetAll missing) then inl StorageError
           else inr (dict_update (select_keys missing (ad_data ad)) hits)
       end
  /\ (missing = [] -> final r = t)
  /\ changed (final r) = changed t.
Proof.
  intros Ha. cbn zeta. unfold get_all, adapter_get_all.
  rewrite (bind_run _ _ _ _ _ _ (require_adapter_ok _ _ Ha)), prefix_trace_nil.
  rewrite bind_self, take_cached_eq.
  destruct (cache_misses (cache t) keys) as [|k0 rest] eqn:Hm.
  - repeat split.
  - destruct (ad_fails ad (AGetAll (k0 :: rest))) eqn:Hf.
    + rewrite (bind_run_err _ _ _ _ _ _ (adapter_call_fail _ _ _ _ Ha Hf)).
      repeat split; discriminate.
    + rewrite (bind_run _ _ _ _ _ _ (adapter_call_ok _ _ _ _ Ha Hf)).
      cbn [fst snd].
      rewrite (bind_run _ _ _ _ _ _ (update_cache_eq _ _ _)).
      unfold prefix_trace. cbn [outcome final trace ret].
      split; [|repeat split; discriminate].
      rewrite !adapter_calls_app.
      change (cache_size (set_adapter_field _ t)) with (cache_size t).
      destruct (cache_size t) as [n|]; [|reflexivity].
      destruct (n <=? 0)%Z; [reflexivity|].
      rewrite adapter_calls_notify. reflexivity.
Qed.

Lemma get_all_asks_only_for_misses_witness :
  let t := run_ops Ex.all_open [OpAdd [("k1", Ex.v1)]; OpAdd [("k2", Ex.v2)];
                                OpAdd [("k3", Ex.v1)]] Ex.cached in
  adapter_calls (trace (get_all Ex.all_open ["k1"; "k3"; "k1"; "k2"] t))
  = [AGetAll ["k1"; "k1"]].
Proof.
  intros t.
  destruct (get_all_asks_only_for_misses Ex.all_open ["k1"; "k3"; "k1"; "k2"] t
              (mkAdapter [("k1", Ex.v1); ("k2", Ex.v2); ("k3", Ex.v1)]
                 Ex.never_fails) eq_refl) as (H & _).
  exact H.
Defined.

(** * The registry extension *)

Lemma existsb_filter_none (f : Identifier -> bool) l :
  existsb f (filter_none l) = true <-> exists p, Some p ∈ l /\ f p = true.
Proof.
  unfold filter_none. induction l as [|[q|] l IH]; cbn.
  - split; [discriminate|]. intros (p & Hp & _). inversion Hp.
  - rewrite orb_true_iff, IH. split.
    + intros [Hq|(p & Hp & Hf)]; [exists q|exists p]; split; auto;
        [left|right; exact Hp].
    + intros (p & Hp & Hf). apply elem_of_cons in Hp as [Hp|Hp].
      * injection Hp as ->. left. exact Hf.
      * right. exists p. auto.
  - rewrite IH. split; intros (p & Hp & Hf); exists p; (split; [|exact Hf]).
    + right. exact Hp.
    + apply elem_of_cons in Hp as [Hp|Hp]; [discriminate|exact Hp].
Qed.

(** X11.  For a session that does not own the registry, the declared
    permissions decide alone: [handle_update] succeeds exactly when the
    session has the registry's [all] or [write] permission, [handle_get]
    exactly when it has [all] or [read]; every other case is
    [PermissionDenied].  In particular a registry that declares no
    permission is closed to everybody but its owners, and a read
    permission alone never lets a session write. *)
Theorem registry_permissions_gate_non_owners
    has_permission registry session value :
  is_subpart_of (reg_id registry) (app_id (app session)) = false ->
  let p := reg_permissions registry in
  (holds_one_of has_permission session [perm_all p; perm_write p] ->
   handle_update has_permission registry session value
   = inr (registry_store value registry))
  /\ (~ holds_one_of has_permission session [perm_all p; perm_write p] ->
      handle_update has_permission registry session value
      = inl (PermissionDenied "not allowed to access"))
  /\ (holds_one_of has_permission session [perm_all p; perm_read p] ->
      handle_get has_permission registry session = inr (reg_data registry))
  /\ (~ holds_one_of has_permission session [perm_all p; perm_read p] ->
      handle_get has_permission registry session
      = inl (PermissionDenied "not allowed to access"))
  /\ (perm_all p = None -> perm_write p = None ->
      handle_update has_permission registry session value
      = inl (PermissionDenied "not allowed to access")).
Proof.
  intros Hown. cbn zeta. unfold handle_update, handle_get, check_permission.
  rewrite Hown.
  assert (Hcase : forall ps,
    (holds_one_of has_permission session ps ->
     existsb (has_permission session) (filter_none ps) = true)
    /\ (~ holds_one_of has_permission session ps ->
        existsb (has_permission session) (filter_none ps) = false)).
  { intros ps. split; intros H.
    - apply existsb_filter_none, H.
    - destruct (existsb _ _) eqn:He; [|reflexivity].
      exfalso. apply H, existsb_filter_none, He. }
  repeat split; intros H.
  - rewrite (proj1 (Hcase _) H). reflexivity.
  - rewrite (proj2 (Hcase _) H). reflexivity.
  - rewrite (proj1 (Hcase _) H). reflexivity.
  - rewrite (proj2 (Hcase _) H). reflexivity.
  - intros Hw. rewrite H, Hw. reflexivity.
Qed.

Lemma registry_permissions_gate_non_owners_witness :
  let registry := mkServerRegistry (mkIdentifier "y" ["reg"])
                    (mkRegistryPermissions None (Some Ex.required) None) [] in
  handle_get (fun _ _ => true) registry Ex.sub_app = inr []
  /\ handle_update (fun _ _ => true) registry Ex.sub_app Ex.v1
     = inl (PermissionDenied "not allowed to access").
Proof.
  intros registry.
  destruct (registry_permissions_gate_non_owners (fun _ _ => true) registry
              Ex.sub_app Ex.v1 eq_refl) as (_ & _ & Hget & _ & Hupd).
  split; [|exact (Hupd eq_refl eq_refl)].
  apply Hget. exists Ex.required. split; [|reflexivity].
  right. left.
Defined.

(** ** Registries are loaded once *)

Lemma dict_set_keys_present {K V} `{EqDecision K} (k : K) (v v' : V) d :
  dict_get k d = Some v' -> dict_keys (dict_set k v d) = dict_keys d.
Proof.
  intros Hk. rewrite dict_set_keys. unfold dict_contains. rewrite Hk.
  reflexivity.
Qed.

Lemma dict_set_keys_absent {K V} `{EqDecision K} (k : K) (v : V) d :
  dict_get k d = None -> dict_keys (dict_set k v d) = dict_keys d ++ [k].
Proof.
  intros Hk. rewrite dict_set_keys. unfold dict_contains. rewrite Hk.
  reflexivity.
Qed.

Lemma loaded_ids_app tr1 tr2 :
  loaded_ids (tr1 ++ tr2) = loaded_ids tr1 ++ loaded_ids tr2.
Proof. apply map_app. Qed.

Lemma loaded_ids_loads ids : loaded_ids (map RegLoad ids) = ids.
Proof.
  unfold loaded_ids. induction ids as [|id ids IH]; cbn; [reflexivity|].
  f_equal. exact IH.
Qed.

Section RegistryFacts.
Variable has_permission : Session -> Identifier -> bool.
Variable load : ServerRegistry -> ServerRegistry.

Lemma registry_get_accounted id ext l :
  registries_accounted ext l ->
  registries_accounted (snd (fst (registry_get load id ext)))
    (l ++ loaded_ids (snd (registry_get load id ext)))
  /\ dict_get id (registries (snd (fst (registry_get load id ext))))
     = Some (fst (fst (registry_get load id ext))).
Proof.
  intros [Hwf Hp]. unfold registry_get.
  destruct (dict_get id (registries ext)) as [r|] eqn:Hg;
    unfold registries_accounted;
    cbn [fst snd registries startup_registries loaded_ids map].
  - rewrite app_nil_r. repeat split; assumption.
  - split; [split|].
    + apply dict_set_wf, Hwf.
    + rewrite (dict_set_keys_absent _ _ _ Hg), Hp.
      rewrite <- !app_assoc. apply Permutation_app_head, Permutation_app_comm.
    + apply dict_set_get.
Qed.

Lemma put_registry_accounted id r ext l r0 :
  dict_get id (registries ext) = Some r0 ->
  registries_accounted ext l -> registries_accounted (put_registry id r ext) l.
Proof.
  intros Hg [Hwf Hp]. split; cbn [put_registry registries startup_registries].
  - apply dict_set_wf, Hwf.
  - rewrite (dict_set_keys_present _ _ _ _ Hg). exact Hp.
Qed.

Lemma load_all_keys ids rs :
  dict_keys (fold_left (fun rs id => load_in_place load id rs) ids rs)
  = dict_keys rs
  /\ (dict_wf rs ->
      dict_wf (fold_left (fun rs id => load_in_place load id rs) ids rs)).
Proof.
  revert rs. induction ids as [|id ids IH]; intros rs; [auto|].
  cbn [fold_left]. destruct (IH (load_in_place load id rs)) as [Hk Hw].
  assert (Hstep : dict_keys (load_in_place load id rs) = dict_keys rs
                  /\ (dict_wf rs -> dict_wf (load_in_place load id rs))).
  { unfold load_in_place. destruct (dict_get id rs) as [r|] eqn:Hg; [|auto].
    split; [apply (dict_set_keys_present _ _ _ _ Hg)|apply dict_set_wf]. }
  destruct Hstep as [Hk' Hw']. split; [rewrite Hk; exact Hk'|auto].
Qed.

Lemma registry_exec_accounted op ext l :
  registries_accounted ext l ->
  registries_accounted (snd (fst (registry_exec has_permission load op ext)))
    (l ++ loaded_ids (snd (registry_exec has_permission load op ext))).
Proof.
  intros Hacc.
  destruct op as [id|id perms| |id v|s id perms|s id v|s id]; cbn [registry_exec].
  - pose proof (registry_get_accounted id ext l Hacc) as [H _].
    destruct (registry_get load id ext) as [[r ext'] tr]. exact H.
  - cbn [fst snd loaded_ids map]. rewrite app_nil_r. unfold registry_register.
    destruct (dict_get id (registries ext)) as [r|] eqn:Hg; [exact Hacc|].
    destruct Hacc as [Hwf Hp]. split; cbn [registries startup_registries].
    + apply dict_set_wf, Hwf.
    + rewrite (dict_set_keys_absent _ _ _ Hg), Hp, app_assoc. reflexivity.
  - unfold registry_on_start. cbn [fst snd]. rewrite loaded_ids_loads.
    destruct Hacc as [Hwf Hp].
    destruct (load_all_keys (startup_registries ext) (registries ext))
      as [Hk Hw].
    split; cbn [registries startup_registries]; [apply Hw, Hwf|].
    rewrite Hk, app_nil_r. exact Hp.
  - pose proof (registry_get_accounted id ext l Hacc) as [H Hg].
    destruct (registry_get load id ext) as [[r ext'] tr]. cbn [fst snd] in *.
    eapply put_registry_accounted; eassumption.
  - pose proof (registry_get_accounted id ext l Hacc) as [H Hg].
    destruct (registry_get load id ext) as [[r ext'] tr]. cbn [fst snd] in *.
    destruct (handle_register r s perms); cbn [fst snd]; [exact H|].
    eapply put_registry_accounted; eassumption.
  - pose proof (registry_get_accounted id ext l Hacc) as [H Hg].
    destruct (registry_get load id ext) as [[r ext'] tr]. cbn [fst snd] in *.
    destruct (handle_update has_permission r s v); cbn [fst snd]; [exact H|].
    eapply put_registry_accounted; eassumption.
  - pose proof (registry_get_accounted id ext l Hacc) as [H Hg].
    destruct (registry_get load id ext) as [[r ext'] tr]. cbn [fst snd] in *.
    destruct (handle_get has_permission r s); exact H.
Qed.

Lemma registry_run_cons op ops ext :
  registry_run has_permission load (op :: ops) ext
  = (fst (registry_run has_permission load ops
            (snd (fst (registry_exec has_permission load op ext)))),
     snd (registry_exec has_permission load op ext)
     ++ snd (registry_run has_permission load ops
               (snd (fst (registry_exec has_permission load op ext))))).
Proof.
  cbn [registry_run].
  destruct (registry_exec has_permission load op ext) as [[o ext'] tr].
  cbn [fst snd].
  destruct (registry_run has_permission load ops ext') as [ext'' tr'].
  reflexivity.
Qed.

Lemma registry_run_accounted ops ext l :
  registries_accounted ext l ->
  registries_accounted (fst (registry_run has_permission load ops ext))
    (l ++ loaded_ids (snd (registry_run has_permission load ops ext))).
Proof.
  revert ext l. induction ops as [|op ops IH]; intros ext l Hacc.
  - cbn. rewrite app_nil_r. exact Hacc.
  - rewrite registry_run_cons. cbn [fst snd].
    rewrite loaded_ids_app, app_assoc.
    apply IH, registry_exec_accounted, Hacc.
Qed.

Lemma registry_run_app ops1 ops2 ext :
  registry_run has_permission load (ops1 ++ ops2) ext
  = (fst (registry_run has_permission load ops2
            (fst (registry_run has_permission load ops1 ext))),
     snd (registry_run has_permission load ops1 ext)
     ++ snd (registry_run has_permission load ops2
               (fst (registry_run has_permission load ops1 ext)))).
Proof.
  revert ext. induction ops1 as [|op ops1 IH]; intros ext.
  - cbn. destruct (registry_run has_permission load ops2 ext). reflexivity.
  - change ((op :: ops1) ++ ops2) with (op :: (ops1 ++ ops2)).
    rewrite !registry_run_cons, IH. cbn [fst snd].
    rewrite app_assoc. reflexivity.
Qed.
End RegistryFacts.

(** X12.  Whatever sequence of [get], [register], [store], packet handlers
    and [_on_start] the extension runs from its empty state, with [load]
    calls that return, no registry is loaded twice, and every registry of
    the map is accounted for exactly once: it has been loaded, or it waits
    in the startup list.  After [_on_start] the startup list is empty, so
    each registry of the map has then been loaded exactly once. *)
Theorem registries_loaded_once has_permission load ops :
  let ext := fst (registry_run has_permission load ops empty_extension) in
  let loaded :=
    loaded_ids (snd (registry_run has_permission load ops empty_extension)) in
  let started :=
    registry_run has_permission load (ops ++ [ROnStart]) empty_extension in
  NoDup (loaded ++ startup_registries ext)
  /\ Permutation (dict_keys (registries ext)) (loaded ++ startup_registries ext)
  /\ startup_registries (fst started) = []
  /\ NoDup (loaded_ids (snd started))
  /\ Permutation (dict_keys (registries (fst started)))
       (loaded_ids (snd started)).
Proof.
  cbn zeta.
  assert (H0 : registries_accounted empty_extension []).
  { split; [apply NoDup_nil_2|reflexivity]. }
  destruct (registry_run_accounted has_permission load ops _ _ H0) as [Hwf Hp].
  destruct (registry_run_accounted has_permission load (ops ++ [ROnStart]) _ _ H0)
    as [Hwf' Hp'].
  cbn [app] in Hp, Hp'.
  assert (Hst : startup_registries
                  (fst (registry_run has_permission load (ops ++ [ROnStart])
                          empty_extension)) = []).
  { rewrite registry_run_app. reflexivity. }
  rewrite Hst, app_nil_r in Hp'.
  repeat split; try assumption.
  - rewrite <- Hp. exact Hwf.
  - rewrite <- Hp'. exact Hwf'.
Qed.

(** A registry declared by the server, then reached by a client before the
    start: it is loaded by [_on_start] and by nothing else. *)
Example registry_declared_then_fetched :
  let id := mkIdentifier "x" ["svc"; "reg"] in
  snd (registry_run (fun _ _ => false) (fun r => r)
         [RRegister id (mkRegistryPermissions None None None);
          RHandleGet Ex.owner id; ROnStart; RGet id] empty_extension)
  = [RegLoad id].
Proof. reflexivity. Qed.

(** ** Sessions: the receive loop and the handshake *)

Section SessionFacts.
Variable read_frame : bytes -> SessionError + PacketData.

Lemma listen_loop_frames frames ps tail :
  Forall2 (fun msg p => receive_message read_frame msg = inr (Some p))
    frames ps ->
  listen_loop read_frame (frames ++ tail)
  = (fst (fst (listen_loop read_frame tail)),
     snd (fst (listen_loop read_frame tail)),
     map EvPacketTask ps ++ snd (listen_loop read_frame tail)).
Proof.
  induction 1 as [|msg p frames ps Hmsg _ IH].
  - rewrite app_nil_l.
    destruct (listen_loop read_frame tail) as [[r rest] tr]. reflexivity.
  - rewrite <- app_comm_cons. cbn [map listen_loop].
    rewrite Hmsg, IH. reflexivity.
Qed.

Lemma listen_loop_stop stop rest :
  (forall p, receive_message read_frame stop <> inr (Some p)) ->
  listen_loop read_frame (stop :: rest)
  = (Finished (match receive_message read_frame stop with
               | inl e => inl e
               | inr _ => inr tt
               end), rest, []).
Proof.
  intros Hstop. cbn [listen_loop].
  destruct (receive_message read_frame stop) as [e|[p|]]; try reflexivity.
  exfalso. apply (Hstop p). reflexivity.
Qed.

Lemma receive_message_close msg :
  receive_message read_frame msg = inr None <-> msg_type msg = WSMsgType.CLOSE.
Proof.
  unfold receive_message.
  destruct (msg_type msg); split; intros H; try reflexivity;
    try discriminate H; exfalso;
    destruct (msg_data msg); try discriminate H;
    destruct (read_frame _); discriminate H.
Qed.
End SessionFacts.

(** X13.  [listen] hands every binary frame that decodes to the packet
    listeners, in the order received, one task per frame.  While only such
    frames arrive it stays suspended and neither closes the socket nor emits
    [disconnected].  At the first other message it stops reading and calls
    [socket.close()] once; messages behind the stopping one are left
    unread.  When [close] returns, or raises an [Exception] (then logged),
    [disconnected] is emitted exactly once, as the last action, and
    [listen] returns normally when the stopping message is a CLOSE and
    raises the error of [_receive] otherwise.  When [close] raises a
    [BaseException] that is no [Exception] (a cancellation), nothing is
    logged, [disconnected] is not emitted, and [listen] raises that
    exception whatever the stopping message was. *)
Theorem listen_runs_until_first_stop read_frame frames ps closed close :
  Forall2 (fun msg p => receive_message read_frame msg = inr (Some p))
    frames ps ->
  AiohttpSession_listen read_frame (mkSocket frames closed close)
  = (Awaiting, mkSocket [] closed close, map EvPacketTask ps)
  /\ forall stop rest,
       (forall p, receive_message read_frame stop <> inr (Some p)) ->
       AiohttpSession_listen read_frame
         (mkSocket (frames ++ stop :: rest) closed close)
       = (Finished
            (match close with
             | CloseRaisesBaseException => inl CloseInterrupted
             | _ =>
                 match receive_message read_frame stop with
                 | inl e => inl e
                 | inr _ => inr tt
                 end
             end),
          mkSocket rest
            (match close with CloseReturns => true | _ => closed end) close,
          map EvPacketTask ps
          ++ SockClose
          :: match close with
             | CloseReturns => [EvDisconnected]
             | CloseRaisesException => [SockLog; SockLog; EvDisconnected]
             | CloseRaisesBaseException => []
             end)
       /\ (receive_message read_frame stop = inr None
           <-> msg_type stop = WSMsgType.CLOSE).
Proof.
  intros Hframes. split.
  - unfold AiohttpSession_listen. cbn [inbox socket_closed close_result].
    rewrite <- (app_nil_r frames) at 1.
    rewrite (listen_loop_frames _ _ _ _ Hframes). cbn.
    rewrite app_nil_r. reflexivity.
  - intros stop rest Hstop. split; [|apply receive_message_close].
    unfold AiohttpSession_listen. cbn [inbox socket_closed close_result].
    rewrite (listen_loop_frames _ _ _ _ Hframes), (listen_loop_stop _ _ _ Hstop).
    cbn [fst snd]. unfold AiohttpSession_disconnect.
    cbn [inbox socket_closed close_result].
    rewrite app_nil_r. destruct close; reflexivity.
Qed.

Lemma listen_runs_until_first_stop_witness :
  let read_frame := fun data : bytes => inr (mkPacketData "chat" data) in
  let frame := mkWSMessage WSMsgType.BINARY (Some []) in
  let text := mkWSMessage WSMsgType.TEXT (Some []) in
  AiohttpSession_listen read_frame
    (mkSocket ([frame; frame] ++ text :: [frame]) false CloseRaisesException)
  = (Finished (inl TextMessage), mkSocket [frame] false CloseRaisesException,
     [EvPacketTask (mkPacketData "chat" []);
      EvPacketTask (mkPacketData "chat" []);
      SockClose; SockLog; SockLog; EvDisconnected]).
Proof.
  intros read_frame frame text.
  assert (Hframes :
    Forall2 (fun msg p => receive_message read_frame msg = inr (Some p))
      [frame; frame] [mkPacketData "chat" []; mkPacketData "chat" []]).
  { repeat constructor. }
  destruct (listen_runs_until_first_stop read_frame _ _ false
              CloseRaisesException Hframes) as [_ Hstop].
  destruct (Hstop text [frame]) as [Heq _]; [intros p; discriminate|].
  exact Heq.
Defined.

(** A cancellation that reaches [socket.close()] while [listen] winds up
    after a CLOSE: the socket's listeners never hear of the
    disconnection. *)
Example listen_cancelled_in_close :
  AiohttpSession_listen (fun data => inr (mkPacketData "chat" data))
    (mkSocket [mkWSMessage WSMsgType.CLOSE None] false
       CloseRaisesBaseException)
  = (Finished (inl CloseInterrupted),
     mkSocket [] false CloseRaisesBaseException, [SockClose]).
Proof. reflexivity. Qed.

(** X14.  [create] returns a session only when the first message is a
    binary frame of the connect type whose app and token
    [authenticate_app] accepted; the session carries that app and the
    permissions the authentication returned, exactly one message has been
    read, and the calls made are the authentication followed by one token
    frame.  In every other outcome nothing is sent on the socket. *)
Theorem create_needs_authenticated_connect read_frame write_frame
    connect_type token_type deserialize_connect serialize_token
    authenticate_app socket :
  match AiohttpSession_create read_frame write_frame connect_type token_type
          deserialize_connect serialize_token authenticate_app socket with
  | (Finished (inr session), socket', tr) =>
      exists msg data frame token token',
        inbox socket = msg :: inbox socket'
        /\ msg_type msg = WSMsgType.BINARY
        /\ msg_data msg = Some data
        /\ read_frame data = inr frame
        /\ pd_type frame = connect_type
        /\ deserialize_connect (pd_data frame) = inr (aio_app session, token)
        /\ authenticate_app (aio_app session) token
           = inr (aio_permissions session, token')
        /\ socket_closed socket = false
        /\ tr = [EvAuthenticate (aio_app session) token;
                 SockSendBytes (write_frame token_type (serialize_token token'))]
  | (_, _, tr) => Forall (fun e => is_send_bytes e = false) tr
  end.
Proof.
  unfold AiohttpSession_create, AiohttpSession_receive.
  destruct (inbox socket) as [|msg rest] eqn:Hin; [constructor|].
  destruct (receive_message read_frame msg) as [e|[frame|]] eqn:Hrecv;
    [constructor| |constructor].
  destruct (bool_decide (pd_type frame = connect_type)) eqn:Htype;
    cbn [negb]; [|constructor].
  apply bool_decide_eq_true in Htype.
  destruct (deserialize_connect (pd_data frame)) as [e|[a token]] eqn:Hde;
    [constructor|].
  destruct (authenticate_app a token) as [e|[permissions token']] eqn:Hauth;
    [repeat constructor|].
  unfold AiohttpSession_send. cbn [socket_closed].
  destruct (socket_closed socket) eqn:Hclosed; [repeat constructor|].
  unfold receive_message in Hrecv.
  destruct (msg_type msg) eqn:Hty; try discriminate Hrecv;
    destruct (msg_data msg) as [data|] eqn:Hdata; try discriminate Hrecv.
  destruct (read_frame data) as [e|frame'] eqn:Hread; [discriminate Hrecv|].
  injection Hrecv as ->.
  exists msg, data, frame, token, token'. cbn.
  repeat split; assumption.
Qed.

(** ** The client table: cache, parsing, proxies *)

Lemma refreshed_nil {T} (kv : string * T) : refreshed [] kv = kv.
Proof. destruct kv. reflexivity. Qed.

Lemma dict_set_present_map {K V} `{EqDecision K} (k : K) (v : V) d :
  dict_wf d -> k ∈ dict_keys d ->
  dict_set k v d
  = map (fun kv => if decide (fst kv = k) then (fst kv, v) else kv) d.
Proof.
  unfold dict_wf, dict_keys.
  induction d as [|[k' v'] d IH]; cbn; intros Hwf Hk.
  - inversion Hk.
  - apply NoDup_cons in Hwf as [Hk' Hwf].
    destruct (decide (k = k')) as [->|Hne].
    + destruct (decide (k' = k')); [|congruence]. f_equal.
      symmetry. etransitivity; [|apply map_id]. apply map_ext_in.
      intros [k0 v0] Hin. cbn.
      destruct (decide (k0 = k')) as [->|]; [|reflexivity].
      exfalso. apply Hk'. apply list_elem_of_In.
      apply (in_map fst) in Hin. exact Hin.
    + destruct (decide (k' = k)); [congruence|]. f_equal.
      apply IH; [exact Hwf|].
      apply elem_of_cons in Hk as [?|Hk]; [congruence|exact Hk].
Qed.

Lemma dict_update_split {T} (items c : list (string * T)) :
  dict_wf items -> dict_wf c ->
  exists extra, dict_update items c = map (refreshed items) c ++ extra.
Proof.
  revert c. induction items as [|[k v] items IH]; intros c Hi Hc.
  - exists []. cbn. rewrite app_nil_r. symmetry.
    etransitivity; [|apply map_id]. apply map_ext. intros kv.
    apply refreshed_nil.
  - unfold dict_wf, dict_keys in Hi. cbn in Hi.
    apply NoDup_cons in Hi as [Hk Hi].
    assert (Hnone : dict_get k items = None)
      by (apply dict_get_not_in_keys; exact Hk).
    destruct (IH (dict_set k v c) Hi (dict_set_wf k v c Hc)) as [extra Hex].
    unfold dict_update in *. cbn [fold_left fst snd]. rewrite Hex.
    destruct (dict_get k c) as [v'|] eqn:Hkc.
    + exists extra. f_equal.
      rewrite dict_set_present_map; [|exact Hc|].
      2:{ apply dict_contains_keys. unfold dict_contains. rewrite Hkc.
          reflexivity. }
      rewrite map_map. apply map_ext. intros [k0 v0].
      unfold refreshed. cbn.
      destruct (decide (k0 = k)) as [->|Hne]; cbn.
      * rewrite Hnone. cbn. reflexivity.
      * reflexivity.
    + exists (refreshed items (k, v) :: extra).
      rewrite (dict_set_new k v c Hkc), map_app. cbn [map].
      rewrite <- app_assoc. cbn [app]. f_equal.
      apply map_ext_in. intros [k0 v0] Hin. unfold refreshed. cbn.
      destruct (decide (k0 = k)) as [->|Hne]; [|reflexivity].
      exfalso.
      assert (Hk0 : k ∈ dict_keys c).
      { apply list_elem_of_In. apply (in_map fst) in Hin. exact Hin. }
      apply dict_contains_keys in Hk0. unfold dict_contains in Hk0.
      rewrite Hkc in Hk0. discriminate.
Qed.

Lemma dict_update_fresh {T} (items acc : list (string * T)) :
  dict_wf (acc ++ items) ->
  dict_update items acc = acc ++ items.
Proof.
  revert acc. induction items as [|[k v] items IH]; intros acc Hwf.
  - cbn. rewrite app_nil_r. reflexivity.
  - unfold dict_update in *. cbn [fold_left fst snd].
    assert (Hk : dict_get k acc = None).
    { apply dict_get_not_in_keys. unfold dict_wf, dict_keys in Hwf.
      rewrite map_app in Hwf. apply NoDup_app in Hwf as (_ & Hdis & _).
      intros Hin. apply (Hdis k Hin). left. }
    rewrite (dict_set_new k v acc Hk), IH.
    + rewrite <- app_assoc. reflexivity.
    + rewrite <- app_assoc. exact Hwf.
Qed.

(** X15.  A client cache that has reached its size takes no new key:
    [update_cache] keeps the first [cache_size] entries of the old cache, in
    their order, refreshes the value of each from the new items, drops every
    item whose key was not among them, and tells the listeners once. *)
Theorem client_full_cache_takes_no_new_key {T} (self : TableImpl T)
    (items : list (string * T)) (n : Z) :
  impl_cache_size self = Some n ->
  (0 <= n)%Z ->
  Z.to_nat n <= length (impl_cache self) ->
  dict_wf (impl_cache self) ->
  dict_wf items ->
  let cache' :=
    map (refreshed items) (take (Z.to_nat n) (impl_cache self)) in
  TableImpl_update_cache items self
  = (mkTableImpl (impl_id self) cache' (Some n) (impl_proxies self),
     [ClientCacheUpdate cache'])
  /\ dict_keys cache' = take (Z.to_nat n) (dict_keys (impl_cache self)).
Proof.
  intros Hsize Hn Hlen Hc Hi cache'.
  assert (Hcache : slice_to n (dict_update items (impl_cache self)) = cache').
  { unfold slice_to. destruct (Z.ltb_spec n 0) as [|_]; [lia|].
    destruct (dict_update_split items (impl_cache self) Hi Hc) as [extra ->].
    rewrite take_app_le by (rewrite length_map; exact Hlen).
    unfold cache'. apply firstn_map. }
  split.
  - unfold TableImpl_update_cache. rewrite Hsize, Hcache. reflexivity.
  - unfold cache', dict_keys. rewrite map_map.
    rewrite <- firstn_map. reflexivity.
Qed.

Lemma client_full_cache_takes_no_new_key_witness :
  TableImpl_update_cache [("b", 20); ("c", 30)]
    (mkTableImpl (mkIdentifier "x" ["t"]) [("a", 1); ("b", 2)] (Some 2%Z) [])
  = (mkTableImpl (mkIdentifier "x" ["t"]) [("a", 1); ("b", 20)] (Some 2%Z) [],
     [ClientCacheUpdate [("a", 1); ("b", 20)]]).
Proof.
  refine (proj1 (client_full_cache_takes_no_new_key
            (mkTableImpl (mkIdentifier "x" ["t"]) [("a", 1); ("b", 2)]
               (Some 2%Z) [])
            [("b", 20); ("c", 30)] 2%Z eq_refl _ _ _ _)).
  - lia.
  - cbn. lia.
  - unfold dict_wf. cbn. apply (bool_decide_unpack (NoDup _)). vm_compute. exact I.
  - unfold dict_wf. cbn. apply (bool_decide_unpack (NoDup _)). vm_compute. exact I.
Defined.

(** X16.  With no cache size set, the client's [update_cache] replaces the
    cache by the items of that call: what was cached before is dropped. *)
Theorem client_unsized_cache_is_replaced {T} (self : TableImpl T)
    (items : list (string * T)) :
  impl_cache_size self = None ->
  dict_wf items ->
  TableImpl_update_cache items self
  = (mkTableImpl (impl_id self) items None (impl_proxies self),
     [ClientCacheUpdate items]).
Proof.
  intros Hsize Hi. unfold TableImpl_update_cache. rewrite Hsize.
  rewrite (dict_update_fresh items []); [reflexivity|exact Hi].
Qed.

Lemma client_unsized_cache_is_replaced_witness :
  TableImpl_update_cache [("c", 30)]
    (mkTableImpl (mkIdentifier "x" ["t"]) [("a", 1); ("b", 2)] None [])
  = (mkTableImpl (mkIdentifier "x" ["t"]) [("c", 30)] None [],
     [ClientCacheUpdate [("c", 30)]]).
Proof.
  refine (client_unsized_cache_is_replaced
            (mkTableImpl (mkIdentifier "x" ["t"]) [("a", 1); ("b", 2)] None [])
            [("c", 30)] eq_refl _).
  unfold dict_wf. cbn. apply (bool_decide_unpack (NoDup _)). vm_compute. exact I.
Defined.

Section TableImplFacts.
Context {T : Type}.
Variable serialize : T -> bytes.
Variable deserialize : bytes -> option T.
Variable key_function : T -> string.

Lemma dict_del_middle {V} (k : string) (x : V) pre rest :
  k ∉ dict_keys pre -> dict_del k (pre ++ (k, x) :: rest) = pre ++ rest.
Proof.
  unfold dict_keys. induction pre as [|[k' v'] pre IH]; cbn; intros Hk.
  - destruct (decide (k = k)); [reflexivity|congruence].
  - destruct (decide (k = k')) as [->|Hne]; [exfalso; apply Hk; left|].
    rewrite IH; [reflexivity|]. intros Hin. apply Hk. right. exact Hin.
Qed.

Lemma dict_set_middle {V} (k : string) (x y : V) pre rest :
  k ∉ dict_keys pre ->
  dict_set k y (pre ++ (k, x) :: rest) = pre ++ (k, y) :: rest.
Proof.
  unfold dict_keys. induction pre as [|[k' v'] pre IH]; cbn; intros Hk.
  - destruct (decide (k = k)); [reflexivity|congruence].
  - destruct (decide (k = k')) as [->|Hne]; [exfalso; apply Hk; left|].
    rewrite IH; [reflexivity|]. intros Hin. apply Hk. right. exact Hin.
Qed.

Lemma proxy_pass_from proxy (snap pre : list (string * T)) :
  dict_wf (pre ++ snap) ->
  fold_left
    (fun items kv =>
       match proxy (snd kv) with
       | None => dict_del (fst kv) items
       | Some updated_item => dict_set (fst kv) updated_item items
       end) snap (pre ++ snap)
  = pre ++ omap (pass_entry proxy) snap.
Proof.
  revert pre. induction snap as [|[k x] snap IH]; intros pre Hwf.
  - reflexivity.
  - assert (Hk : k ∉ dict_keys pre).
    { unfold dict_wf, dict_keys in Hwf. rewrite map_app in Hwf.
      apply NoDup_app in Hwf as (_ & Hdis & _).
      intros Hin. apply (Hdis k Hin). left. }
    cbn [fold_left fst snd omap list_omap]. unfold pass_entry at 1.
    cbn [fst snd].
    destruct (proxy x) as [y|] eqn:Hp.
    + rewrite (dict_set_middle k x y pre snap Hk).
      change (pre ++ (k, y) :: snap) with (pre ++ [(k, y)] ++ snap).
      rewrite app_assoc, IH.
      * rewrite <- app_assoc. reflexivity.
      * rewrite <- app_assoc.
        unfold dict_wf, dict_keys in *.
        rewrite map_app in *. exact Hwf.
    + rewrite (dict_del_middle k x pre snap Hk). apply IH.
      unfold dict_wf, dict_keys in *. rewrite map_app in *. cbn in Hwf.
      apply NoDup_app in Hwf as (Hpre & Hdis & Hsnap).
      apply NoDup_cons in Hsnap as [_ Hsnap].
      apply NoDup_app. split; [exact Hpre|]. split; [|exact Hsnap].
      intros k0 Hin Hin'. apply (Hdis k0 Hin). right. exact Hin'.
Qed.

Lemma proxy_pass_eq proxy (items : list (string * T)) :
  dict_wf items -> proxy_pass proxy items = omap (pass_entry proxy) items.
Proof. intros Hwf. exact (proxy_pass_from proxy items [] Hwf). Qed.

Lemma pass_entry_keys proxy (items : list (string * T)) k :
  k ∈ dict_keys (omap (pass_entry proxy) items) -> k ∈ dict_keys items.
Proof.
  unfold dict_keys. induction items as [|[k' x] items IH]; cbn; [auto|].
  unfold pass_entry at 1. cbn. destruct (proxy x); cbn.
  - intros Hin. apply elem_of_cons in Hin as [->|Hin]; [left|right; auto].
  - intros Hin. right. auto.
Qed.

Lemma pass_entry_wf proxy (items : list (string * T)) :
  dict_wf items -> dict_wf (omap (pass_entry proxy) items).
Proof.
  unfold dict_wf. induction items as [|[k x] items IH]; cbn; [auto|].
  intros Hwf. apply NoDup_cons in Hwf as [Hk Hwf].
  unfold pass_entry at 1. cbn. destruct (proxy x); cbn; [|auto].
  apply NoDup_cons. split; [|auto].
  intros Hin. apply Hk. exact (pass_entry_keys proxy items k Hin).
Qed.

Lemma pass_entry_values proxy (items : list (string * T)) :
  dict_values (omap (pass_entry proxy) items) = omap proxy (dict_values items).
Proof.
  unfold dict_values. induction items as [|[k x] items IH]; cbn; [reflexivity|].
  unfold pass_entry at 1. cbn. destruct (proxy x); cbn; congruence.
Qed.

Lemma through_none (proxies : list (T -> option T)) :
  fold_left
    (fun acc proxy => match acc with Some x => proxy x | None => None end)
    proxies None = None.
Proof. induction proxies; cbn; auto. Qed.

Lemma through_cons proxy proxies (x : T) :
  through (proxy :: proxies) x
  = match proxy x with Some y => through proxies y | None => None end.
Proof.
  unfold through. cbn [fold_left].
  destruct (proxy x); [reflexivity|apply through_none].
Qed.

Lemma omap_cons {A B} (f : A -> option B) x l :
  omap f (x :: l)
  = match f x with Some y => y :: omap f l | None => omap f l end.
Proof. reflexivity. Qed.

Lemma omap_through proxy proxies (l : list T) :
  omap (through proxies) (omap proxy l) = omap (through (proxy :: proxies)) l.
Proof.
  induction l as [|x l IH]; [reflexivity|].
  rewrite !omap_cons, through_cons.
  destruct (proxy x) as [y|]; [|exact IH].
  rewrite omap_cons, IH. reflexivity.
Qed.

Lemma omap_through_nil (l : list T) : omap (through []) l = l.
Proof.
  induction l as [|x l IH]; [reflexivity|].
  rewrite omap_cons. cbn. f_equal. exact IH.
Qed.

Lemma proxies_values proxies (items : list (string * T)) :
  dict_wf items ->
  dict_values
    (fold_left (fun items proxy => proxy_pass proxy items) proxies items)
  = omap (through proxies) (dict_values items).
Proof.
  revert items. induction proxies as [|proxy proxies IH]; intros items Hwf.
  - cbn. symmetry. apply omap_through_nil.
  - cbn [fold_left]. rewrite (proxy_pass_eq proxy items Hwf).
    rewrite IH by (apply pass_entry_wf; exact Hwf).
    rewrite pass_entry_values. apply omap_through.
Qed.

Lemma parse_items_loop_wf items (parsed r : list (string * T)) :
  parse_items_loop deserialize items parsed = inr r ->
  dict_wf parsed -> dict_wf r.
Proof.
  revert parsed. induction items as [|[k b] items IH]; cbn; intros parsed.
  - intros [= <-]. auto.
  - destruct (deserialize b); [|discriminate].
    intros Hr Hwf. apply (IH _ Hr). apply dict_set_wf. exact Hwf.
Qed.

Lemma dict_set_map_values {V W} (f : V -> W) (k : string) (v : V) d :
  dict_set k (f v) (map (fun kv => (fst kv, f (snd kv))) d)
  = map (fun kv => (fst kv, f (snd kv))) (dict_set k v d).
Proof.
  induction d as [|[k' v'] d IH]; cbn; [reflexivity|].
  destruct (decide (k = k')); cbn; [reflexivity|]. rewrite IH. reflexivity.
Qed.

Lemma serialize_items_from (items : list T) (acc : list (string * T)) :
  fold_left
    (fun serialized item =>
       dict_set (key_function item) (serialize item) serialized)
    items (map (fun kv => (fst kv, serialize (snd kv))) acc)
  = map (fun kv => (fst kv, serialize (snd kv)))
      (fold_left (fun acc item => dict_set (key_function item) item acc)
         items acc).
Proof.
  revert acc. induction items as [|x items IH]; intros acc; cbn; [reflexivity|].
  rewrite dict_set_map_values. apply IH.
Qed.

Lemma keyed_from_spec (items : list T) (acc : list (string * T)) (P : T -> Prop) :
  dict_wf acc -> Forall (fun kv => P (snd kv)) acc -> Forall P items ->
  let d := fold_left (fun acc item => dict_set (key_function item) item acc)
             items acc in
  dict_wf d /\ Forall (fun kv => P (snd kv)) d.
Proof.
  revert acc. induction items as [|x items IH]; intros acc Hwf Hacc Hitems; cbn.
  - auto.
  - apply Forall_cons in Hitems as [Hx Hitems].
    apply IH; [apply dict_set_wf; exact Hwf| |exact Hitems].
    apply dict_set_Forall; [exact Hacc|exact Hx].
Qed.

Lemma keyed_distinct (items : list T) (acc : list (string * T)) :
  NoDup (dict_keys acc ++ map key_function items) ->
  fold_left (fun acc item => dict_set (key_function item) item acc) items acc
  = acc ++ map (fun x => (key_function x, x)) items.
Proof.
  revert acc. induction items as [|x items IH]; intros acc Hnd.
  - cbn. rewrite app_nil_r. reflexivity.
  - cbn [fold_left map].
    assert (Hk : dict_get (key_function x) acc = None).
    { apply dict_get_not_in_keys. apply NoDup_app in Hnd as (_ & Hdis & _).
      intros Hin. apply (Hdis _ Hin). left. }
    rewrite (dict_set_new _ x acc Hk), IH.
    + rewrite <- app_assoc. reflexivity.
    + unfold dict_keys in *. rewrite map_app, <- app_assoc. exact Hnd.
Qed.

Lemma parse_items_loop_serialized (d parsed : list (string * T)) :
  dict_wf (parsed ++ d) ->
  Forall (fun kv => deserialize (serialize (snd kv)) = Some (snd kv)) d ->
  parse_items_loop deserialize
    (map (fun kv => (fst kv, serialize (snd kv))) d) parsed
  = inr (parsed ++ d).
Proof.
  revert parsed. induction d as [|[k v] d IH]; intros parsed Hwf Hd; cbn.
  - rewrite app_nil_r. reflexivity.
  - apply Forall_cons in Hd as [Hv Hd]. cbn in Hv. rewrite Hv.
    assert (Hk : dict_get k parsed = None).
    { apply dict_get_not_in_keys. unfold dict_wf, dict_keys in Hwf.
      rewrite map_app in Hwf. apply NoDup_app in Hwf as (_ & Hdis & _).
      intros Hin. apply (Hdis k Hin). left. }
    rewrite (dict_set_new k v parsed Hk), IH.
    + rewrite <- app_assoc. reflexivity.
    + rewrite <- app_assoc. exact Hwf.
    + exact Hd.
Qed.
End TableImplFacts.

(** X17.  The reply of [_on_proxy] to a packet of its own table carries the
    packet's key and the items that went through every proxy, in the order
    the proxies were registered (a proxy being a function of the item it is
    given): each proxy receives what the one before it returned, an item one
    proxy drops is shown to no later proxy and is left out of the reply, and
    the reply is keyed by [key_function] of the final items. *)
Theorem proxy_reply_composes_proxies {T} (serialize : T -> bytes)
    (deserialize : bytes -> option T) (key_function : T -> string)
    (self : TableImpl T) (packet : TableProxyPacket)
    (items : list (string * T)) :
  tpp_id packet = impl_id self ->
  TableImpl_parse_items deserialize (tpp_items packet) = inr items ->
  TableImpl_on_proxy serialize deserialize key_function packet self
  = (inr tt,
     [ClientSendProxy
        (mkTableProxyPacket (impl_id self) (tpp_key packet)
           (TableImpl_serialize_items serialize key_function
              (omap (through (impl_proxies self)) (dict_values items))))]).
Proof.
  intros Hid Hparse. unfold TableImpl_on_proxy.
  rewrite bool_decide_eq_true_2 by exact Hid. cbn [negb].
  rewrite Hparse. rewrite proxies_values; [reflexivity|].
  apply (parse_items_loop_wf deserialize _ [] items Hparse).
  apply NoDup_nil_2.
Qed.

Lemma proxy_reply_composes_proxies_witness :
  let id := mkIdentifier "x" ["t"] in
  let double := fun n : nat => Some (n + n) in
  let small := fun n : nat => if (n <? 5)%nat then Some n else None in
  let serialize := fun n : nat => repeat Byte.x01 n in
  let deserialize := fun b : bytes => Some (length b) in
  let key_function := fun n : nat => if (n <? 3)%nat then "low" else "high" in
  TableImpl_on_proxy serialize deserialize key_function
    (mkTableProxyPacket id 7 [("a", serialize 1); ("b", serialize 2);
                               ("c", serialize 4)])
    (mkTableImpl id [] None [double; small])
  = (inr tt,
     [ClientSendProxy
        (mkTableProxyPacket id 7 [("low", serialize 2); ("high", serialize 4)])]).
Proof.
  intros id double small serialize deserialize key_function.
  exact (proxy_reply_composes_proxies serialize deserialize key_function
           (mkTableImpl id [] None [double; small])
           (mkTableProxyPacket id 7 [("a", serialize 1); ("b", serialize 2);
                                      ("c", serialize 4)])
           [("a", 1); ("b", 2); ("c", 4)] eq_refl eq_refl).
Defined.

(** X18.  What [_serialize_items] produces, [_parse_items] reads back: for
    items that survive their own serializer, parsing the serialized items
    gives the dict of the items under [key_function], an item later in the
    sequence replacing an earlier one of the same key in that one's place.
    When the keys are distinct this is the items in their order. *)
Theorem serialized_items_parse_back {T} (serialize : T -> bytes)
    (deserialize : bytes -> option T) (key_function : T -> string)
    (items : list T) :
  Forall (fun x => deserialize (serialize x) = Some x) items ->
  TableImpl_parse_items deserialize
    (TableImpl_serialize_items serialize key_function items)
  = inr (keyed key_function items)
  /\ (NoDup (map key_function items) ->
      keyed key_function items = map (fun x => (key_function x, x)) items).
Proof.
  intros Hitems. split.
  - unfold TableImpl_parse_items, TableImpl_serialize_items, keyed.
    change (@nil (string * bytes))
      with (map (fun kv : string * T => (fst kv, serialize (snd kv))) []).
    rewrite serialize_items_from.
    destruct (keyed_from_spec key_function items []
                (fun x => deserialize (serialize x) = Some x))
      as [Hwf Hall]; [apply NoDup_nil_2|constructor|exact Hitems|].
    rewrite (parse_items_loop_serialized serialize deserialize _ []);
      [reflexivity|exact Hwf|exact Hall].
  - intros Hnd. unfold keyed.
    apply (keyed_distinct key_function items []). exact Hnd.
Qed.

Lemma serialized_items_parse_back_witness :
  let serialize := fun n : nat => repeat Byte.x01 n in
  let deserialize := fun b : bytes => Some (length b) in
  let key_function := fun n : nat => if (n <? 3)%nat then "low" else "high" in
  TableImpl_parse_items deserialize
    (TableImpl_serialize_items serialize key_function [1; 4; 2])
  = inr [("low", 2); ("high", 4)].
Proof.
  intros serialize deserialize key_function.
  refine (proj1 (serialized_items_parse_back serialize deserialize
                   key_function [1; 4; 2] _)).
  repeat constructor.
Defined.
